(** * outloud: the Chatterbox TTS HTTP server (scripts/chatterbox_server.py)

    A shallow embedding of the text chunker, the audio assembly and the
    request handlers, with the properties of the specification stated and
    proved (or refuted) against it. *)

From Stdlib Require Import String Ascii ZArith NArith Bool Lia SpecFloat List.
Import ListNotations.

Local Open Scope Z_scope.

(* ================================================================== *)
(** * Python strings *)
(* ================================================================== *)

(** A Python [str] is a sequence of Unicode code points; [len] counts code
    points.  Code points are natural numbers here, so every statement
    quantified over [str] covers every Python string. *)

Module PyStr.

Definition char := N.
Definition str := list char.

(** Literal strings of the source, as code points. *)
Definition py (s : string) : str := map N_of_ascii (list_ascii_of_string s).
Arguments py s%_string.

(** [len(s)] of a string or a list, a Python int. *)
Definition len {A : Type} (s : list A) : Z := Z.of_nat (List.length s).

(** Truth value of a string: [if s:] holds for the non-empty ones. *)
Definition truthy {A : Type} (l : list A) : bool :=
  match l with [] => false | _ :: _ => true end.

(** [str.isspace] on one code point, which is also what [\s] matches in a
    [str] pattern and what [str.strip()] removes: Unicode white space. *)
Definition is_space (c : char) : bool :=
  ((9 <=? c) && (c <=? 13) || (28 <=? c) && (c <=? 32)
   || (c =? 133) || (c =? 160) || (c =? 5760)
   || (8192 <=? c) && (c <=? 8202)
   || (c =? 8232) || (c =? 8233) || (c =? 8239) || (c =? 8287)
   || (c =? 12288))%N.

Definition SPACE : char := 32%N.
Definition COMMA : char := 44%N.

Definition is_comma (c : char) : bool := (c =? COMMA)%N.

(** The class [[.!?]] of the sentence pattern. *)
Definition is_terminal (c : char) : bool :=
  ((c =? 46) || (c =? 33) || (c =? 63))%N.

(** [s.lstrip()] and [s.rstrip()] *)
Fixpoint lstrip (s : str) : str :=
  match s with
  | [] => []
  | c :: rest => if is_space c then lstrip rest else s
  end.

Definition rstrip (s : str) : str := rev (lstrip (rev s)).

(** [s.strip()] *)
Definition strip (s : str) : str := rstrip (lstrip s).

(** The characters of [s] that are not white space, in order. *)
Definition non_ws (s : str) : str := filter (fun c => negb (is_space c)) s.

(** [sep.join(l)] *)
Fixpoint join (sep : str) (l : list str) : str :=
  match l with
  | [] => []
  | [x] => x
  | x :: rest => x ++ sep ++ join sep rest
  end.

(** A string without leading or trailing white space. *)
Definition trimmed (s : str) : Prop := strip s = s.

(** The first character, if there is one, is not white space; the same
    for the last one. *)
Definition first_ok (s : str) : bool :=
  match s with [] => true | c :: _ => negb (is_space c) end.

Definition last_ok (s : str) : bool := first_ok (rev s).

End PyStr.

Import PyStr.

(* ================================================================== *)
(** * The two regular-expression splits *)
(* ================================================================== *)

(** [re.split] scans the subject from left to right, cuts it at each match
    of the pattern and returns the pieces between the matches.  Both
    patterns of the chunker match a non-empty run, so the scan is a
    two-mode automaton: inside a piece ([skipping = false]) or inside the
    white space that a match is still consuming ([skipping = true]).
    [cur] holds the piece read so far, last character first. *)

Module Re.

(** The look-behind [(?<=[.!?])] at the current position: the previous
    character of the subject is a sentence terminal. *)
Definition after_terminal (cur : str) : bool :=
  match cur with
  | [] => false
  | c :: _ => is_terminal c
  end.

(** [re.split(r'(?<=[.!?])\s+', s)] *)
Fixpoint split_sentences_from (cur : str) (skipping : bool) (s : str)
  : list str :=
  match s with
  | [] => [rev cur]
  | c :: rest =>
      if skipping then
        if is_space c then split_sentences_from cur true rest
        else split_sentences_from [c] false rest
      else if is_space c && after_terminal cur
           then rev cur :: split_sentences_from [] true rest
           else split_sentences_from (c :: cur) false rest
  end.

Definition split_sentences (s : str) : list str :=
  split_sentences_from [] false s.

(** [re.split(r',\s*', s)] *)
Fixpoint split_commas_from (cur : str) (skipping : bool) (s : str)
  : list str :=
  match s with
  | [] => [rev cur]
  | c :: rest =>
      if skipping && is_space c then split_commas_from cur true rest
      else if is_comma c then rev cur :: split_commas_from [] true rest
      else split_commas_from (c :: cur) false rest
  end.

Definition split_commas (s : str) : list str :=
  split_commas_from [] false s.

End Re.

(* ================================================================== *)
(** * The text chunker *)
(* ================================================================== *)

Module Chunker.

(** The two locals the loop of [split_text_into_chunks] updates. *)
Record loop_state : Type := mkLoop {
  chunks : list str;
  current_chunk : str
}.

(** [if current_chunk: chunks.append(current_chunk)] *)
Definition flush (cs : list str) (cur : str) : list str :=
  if truthy cur then cs ++ [cur] else cs.

(** The inner loop over the comma-separated parts; both branches of its
    conditional append the stripped part. *)
Definition append_parts (max_chars : Z) (cs : list str) (parts : list str)
  : list str :=
  fold_left
    (fun acc part =>
       if len part <=? max_chars then acc ++ [strip part]
       else acc ++ [strip part])
    parts cs.

(** One iteration of [for sentence in sentences]. *)
Definition step (max_chars : Z) (st : loop_state) (sentence : str)
  : loop_state :=
  if len (current_chunk st) + len sentence + 1 <=? max_chars then
    mkLoop (chunks st) (strip (current_chunk st ++ [SPACE] ++ sentence))
  else
    let cs := flush (chunks st) (current_chunk st) in
    if len sentence >? max_chars then
      mkLoop (append_parts max_chars cs (Re.split_commas sentence))
             (current_chunk st)
    else
      mkLoop cs sentence.

Definition init : loop_state := mkLoop [] [].

(** [sentences = re.split(r'(?<=[.!?])\s+', text.strip())] *)
Definition sentences (text : str) : list str :=
  Re.split_sentences (strip text).

(** The list [chunks] when the function reaches its [return]. *)
Definition loop_chunks (text : str) (max_chars : Z) : list str :=
  let st := fold_left (step max_chars) (sentences text) init in
  flush (chunks st) (current_chunk st).

(** [split_text_into_chunks(text, max_chars)] *)
Definition split_text_into_chunks (text : str) (max_chars : Z) : list str :=
  let cs := loop_chunks text max_chars in
  if truthy cs then cs else [text].

End Chunker.

Import Chunker.

(** ** Notions used to state the properties of the chunker *)

(** The characters of [s] that are neither white space nor a comma. *)
Definition letters (s : str) : str :=
  filter (fun c => negb (is_space c || is_comma c)) s.

(** The chunks that a sentence over the limit gives: its comma parts,
    each stripped. *)
Definition comma_parts (s : str) : list str :=
  map strip (Re.split_commas s).

(** The over-long sentence of the specification's example. *)
Definition long_sentence : str :=
  py "A very long sentence with no punctuation that exceeds the limit by itself, truly".

(** A sentence over a limit of 20 that ends in a comma. *)
Definition trailing_comma : str :=
  py "Well, that is all I have to say for now,".

(** Two sentences that fit a limit of 15 one by one, not together. *)
Definition hello : str := py "Hello world. This is a test.".

(** A sentence over a limit of 12, then two short ones. *)
Definition long_then_short : str :=
  py "One, two, three, four, five, six. Yes. No.".

(** A short sentence, an over-long one, and a short one again. *)
Definition short_long_short : str := py "Hi. AAAAAAAAAAAA, b. Yo.".

(** A non-empty string that neither starts nor ends with white space. *)
Definition solid (s : str) : Prop :=
  s <> [] /\ first_ok s = true /\ last_ok s = true.

(** The loop from a given state. *)
Definition run (max_chars : Z) (ss : list str) (st : loop_state)
  : loop_state :=
  fold_left (step max_chars) ss st.

(** The running chunk has no white space at either end (it may be
    empty). *)
Definition tidy (st : loop_state) : Prop :=
  first_ok (current_chunk st) = true /\ last_ok (current_chunk st) = true.

(** What holds of each chunk the loop appends, for the sentences [ss] of
    the text: it has no white space at either end, and it is empty only
    as a stripped comma part of a sentence longer than the limit. *)
Definition chunk_ok (max_chars : Z) (ss : list str) (c : str) : Prop :=
  trimmed c
  /\ (c <> []
      \/ exists s, In s ss /\ max_chars < len s /\ In c (comma_parts s)).

(** The running chunk is the join of the group of sentences gathered
    since the last flush. *)
Definition cur_group (cur : str) (g : list str) : Prop :=
  (g = [] /\ cur = [])
  \/ (g <> [] /\ solid cur /\ cur = join [SPACE] g).

(* ================================================================== *)
(** * Audio assembly *)
(* ================================================================== *)

Module Audio.

(** Python floats are IEEE binary64. *)
Definition prec : Z := 53.
Definition emax : Z := 1024.

(** A waveform is a tensor of shape (1, n): one channel of n samples. *)
Definition sample := spec_float.
Definition waveform := list sample.

Definition zero : sample := S754_zero false.

(** The conversion of a Python int to a float, rounding to nearest. *)
Definition float_of_int (n : Z) : spec_float :=
  binary_normalize prec emax n 0 false.

(** The literal [0.2]: the double 0x3FC999999999999A. *)
Definition point_two : spec_float :=
  S754_finite false 7205759403792794 (-55).

(** [int(f)]: truncation towards zero; an error on infinities and NaN. *)
Definition int_of_float (f : spec_float) : option Z :=
  match f with
  | S754_zero _ => Some 0
  | S754_finite s m e =>
      Some (cond_Zopp s
              (if 0 <=? e then Z.pos m * 2 ^ e else Z.pos m / 2 ^ (- e)))
  | S754_infinity _ | S754_nan => None
  end.

(** A float that is not a negative number. *)
Definition not_negative (f : spec_float) : Prop :=
  match f with
  | S754_finite s _ _ => s = false
  | _ => True
  end.

(** [silence_samples = int(0.2 * tts.sr)] *)
Definition silence_samples (sr : Z) : option Z :=
  int_of_float (SFmul prec emax point_two (float_of_int sr)).

(** [torch.zeros(1, n)]: an error on a negative size. *)
Definition torch_zeros (n : Z) : option waveform :=
  if n <? 0 then None else Some (repeat zero (Z.to_nat n)).

(** The loop [for i, segment in enumerate(audio_segments)], from index
    [i], where [n] is [len(audio_segments)]. *)
Fixpoint interleave_from (i n : Z) (audio_segments : list waveform)
         (silence : waveform) (combined_segments : list waveform)
  : list waveform :=
  match audio_segments with
  | [] => combined_segments
  | segment :: rest =>
      let combined_segments := combined_segments ++ [segment] in
      let combined_segments :=
        if i <? n - 1 then combined_segments ++ [silence]
        else combined_segments in
      interleave_from (i + 1) n rest silence combined_segments
  end.

Definition interleave (audio_segments : list waveform) (silence : waveform)
  : list waveform :=
  interleave_from 0 (len audio_segments) audio_segments silence [].

(** [torch.cat(combined_segments, dim=1)] on tensors of one channel. *)
Definition torch_cat (combined_segments : list waveform) : waveform :=
  concat combined_segments.

(** The segments with the silence between each two neighbours: the first
    segment, then the silence and a segment for each one that follows. *)
Definition between (silence : waveform) (segments : list waveform)
  : list waveform :=
  match segments with
  | [] => []
  | first :: others => first :: flat_map (fun seg => [silence; seg]) others
  end.

(** The number of samples of a list of segments, all together. *)
Definition total_samples (segments : list waveform) : Z :=
  fold_right (fun seg acc => len seg + acc) 0 segments.

End Audio.

(* ================================================================== *)
(** * The server: globals, model loading and the request handlers *)
(* ================================================================== *)

Module Server.

Import Audio.

Inductive torch_device : Type := MPS | CPU.

(** What the handlers use of a loaded [ChatterboxTurboTTS]. *)
Record model : Type := mkModel {
  on_device : torch_device;
  sr : Z
}.

(** The two module globals. *)
Record globals : Type := mkGlobals {
  tts : option model;
  device : option torch_device
}.

(** The globals when the module has just been imported. *)
Definition boot : globals := mkGlobals None None.

(** Exceptions.  [External] is raised by the model library, by
    torchaudio or by the operating system, and carries [str(e)]. *)
Inductive exn : Type :=
| External (message : str)
| AttributeError
| OverflowError
| RuntimeError.

Inductive result (A : Type) : Type :=
| Ok (a : A)
| Raise (e : exn).
Arguments Ok {A} a.
Arguments Raise {A} e.

(** What the process does to the outside. *)
Inductive event : Type :=
| EvPrintLoading
| EvFromPretrained (d : torch_device) (r : result model)
| EvPrintLoaded (d : torch_device)
| EvGenerate (chunk : str)
| EvTempFile (path : str)
| EvSave (path : str) (audio : waveform) (sample_rate : Z)
| EvTraceback (e : exn)
| EvWritePid
| EvPrintRunning (port : Z)
| EvSigterm.

(** The answers of everything outside the module during one call: the
    imports inside [load_model], the probe of the accelerator, the
    pretrained model, the imports inside [/speak], the synthesis (which
    need not give the same waveform twice, so it also takes the number
    of segments made so far), the temporary file and [torchaudio.save]. *)
Record world : Type := mkWorld {
  load_imports : result unit;
  mps_available : bool;
  from_pretrained : torch_device -> result model;
  speak_imports : result unit;
  generate : model -> nat -> str -> result waveform;
  temp_file_name : result str;
  ta_save : str -> waveform -> Z -> result unit
}.

(** ** A monad for code that raises and leaves a trace *)

Definition M (A : Type) : Type := (result A * list event)%type.

Definition ret {A : Type} (a : A) : M A := (Ok a, []).

Definition bind {A B : Type} (c : M A) (k : A -> M B) : M B :=
  match c with
  | (Ok a, t) => let '(r, t') := k a in (r, t ++ t')
  | (Raise e, t) => (Raise e, t)
  end.

Definition lift {A : Type} (r : result A) : M A := (r, []).

Definition emit (e : event) : M unit := (Ok tt, [e]).

Definition of_option {A : Type} (e : exn) (o : option A) : M A :=
  match o with Some a => ret a | None => (Raise e, []) end.

Notation "x <- c ;; k" := (bind c (fun x => k))
  (at level 61, c at next level, right associativity).
Notation "c ;;; k" := (bind c (fun _ => k))
  (at level 61, right associativity).

(** ** load_model *)

(** [load_model()]: the outcome, the globals afterwards and the trace.
    [device] is assigned before [from_pretrained] is called, so a failing
    [from_pretrained] leaves [device] set and [tts] unset. *)
Definition load_model (w : world) (g : globals)
  : result unit * globals * list event :=
  match tts g with
  | Some _ => (Ok tt, g, [])
  | None =>
      match load_imports w with
      | Raise e => (Raise e, g, [EvPrintLoading])
      | Ok _ =>
          let d := if mps_available w then MPS else CPU in
          let r := from_pretrained w d in
          match r with
          | Raise e =>
              (Raise e, mkGlobals (tts g) (Some d),
               [EvPrintLoading; EvFromPretrained d r])
          | Ok m =>
              (Ok tt, mkGlobals (Some m) (Some d),
               [EvPrintLoading; EvFromPretrained d r; EvPrintLoaded d])
          end
      end
  end.

(** ** Responses *)

(** The string under ["error"]: a literal of the source, or [str(e)] of
    the exception caught.  The JSON holds the string alone, so a client
    cannot tell a literal from an exception with the same text; what
    tells them apart is the traceback that the [except] prints. *)
Inductive error_text : Type :=
| Text (s : str)
| StrOf (e : exn).

Inductive body : Type :=
| BHealth (model_loaded : bool) (dev : option torch_device)
| BError (error : error_text)
| BSpeak (audio_path : str) (sample_rate : Z) (n_chunks : Z)
| BShutdown.

(** [Reply] is a JSON answer with its status; [Unhandled] is an
    exception that leaves the view function. *)
Inductive http_response : Type :=
| Reply (status : Z) (b : body)
| Unhandled (e : exn).

Record outcome : Type := mkOutcome {
  response : http_response;
  globals_after : globals;
  trace : list event
}.

(** ** /health *)

Definition health (g : globals) : outcome :=
  mkOutcome
    (Reply 200
       (BHealth (match tts g with Some _ => true | None => false end)
                (device g)))
    g [].

(** ** /speak *)

(** The JSON body, an object in which [text], a string, and
    [max_chunk_size], an integer, may be absent. *)
Record speak_request : Type := mkSpeak {
  text : option str;
  max_chunk_size : option Z
}.

(** [data.get("text", "")] and [data.get("max_chunk_size", 200)] *)
Definition text_of (req : speak_request) : str :=
  match text req with Some t => t | None => [] end.

Definition max_chunk_size_of (req : speak_request) : Z :=
  match max_chunk_size req with Some n => n | None => 200 end.

(** [tts.generate(chunk)] and [tts.sr] on the global [tts]. *)
Definition tts_generate (w : world) (t : option model) (made : nat)
           (chunk : str) : M waveform :=
  match t with
  | None => (Raise AttributeError, [])
  | Some m => (generate w m made chunk, [EvGenerate chunk])
  end.

Definition tts_sr (t : option model) : M Z :=
  match t with
  | None => (Raise AttributeError, [])
  | Some m => ret (sr m)
  end.

(** [if chunk.strip():] *)
Definition nonblank (chunk : str) : bool := truthy (strip chunk).

(** The loop [for chunk in chunks], which skips the chunks that strip to
    nothing. *)
Fixpoint generate_segments (w : world) (t : option model)
         (chunks : list str) (audio_segments : list waveform)
  : M (list waveform) :=
  match chunks with
  | [] => ret audio_segments
  | chunk :: rest =>
      if nonblank chunk then
        wav <- tts_generate w t (List.length audio_segments) chunk ;;
        generate_segments w t rest (audio_segments ++ [wav])
      else generate_segments w t rest audio_segments
  end.

(** The lines from the silence buffer to [torch.cat]. *)
Definition assemble (sample_rate : Z) (audio_segments : list waveform)
  : M waveform :=
  silence_samples <- of_option OverflowError (silence_samples sample_rate) ;;
  silence <- of_option RuntimeError (torch_zeros silence_samples) ;;
  ret (torch_cat (interleave audio_segments silence)).

(** The body of the [try]. *)
Definition speak_try (w : world) (t : option model) (txt : str)
           (max_chunk : Z) : M http_response :=
  lift (speak_imports w) ;;;
  let chunks := split_text_into_chunks txt max_chunk in
  audio_segments <- generate_segments w t chunks [] ;;
  if negb (truthy audio_segments) then
    ret (Reply 500 (BError (Text (py "No audio generated"))))
  else
    sample_rate <- tts_sr t ;;
    combined_audio <- assemble sample_rate audio_segments ;;
    name <- lift (temp_file_name w) ;;
    emit (EvTempFile name) ;;;
    sample_rate' <- tts_sr t ;;
    emit (EvSave name combined_audio sample_rate') ;;;
    lift (ta_save w name combined_audio sample_rate') ;;;
    sample_rate'' <- tts_sr t ;;
    ret (Reply 200 (BSpeak name sample_rate'' (len chunks))).

(** [try: ... except Exception as e: ...] *)
Definition speak_guarded (w : world) (t : option model) (txt : str)
           (max_chunk : Z) : http_response * list event :=
  match speak_try w t txt max_chunk with
  | (Ok r, tr) => (r, tr)
  | (Raise e, tr) =>
      (Reply 500 (BError (StrOf e)), tr ++ [EvTraceback e])
  end.

(** [if tts is None: load_model()] *)
Definition ensure_loaded (w : world) (g : globals)
  : result unit * globals * list event :=
  match tts g with
  | None => load_model w g
  | Some _ => (Ok tt, g, [])
  end.

Definition speak (w : world) (req : speak_request) (g : globals) : outcome :=
  let '(loaded, g1, t1) := ensure_loaded w g in
  match loaded with
  | Raise e => mkOutcome (Unhandled e) g1 t1
  | Ok _ =>
      let txt := text_of req in
      let max_chunk := max_chunk_size_of req in
      if negb (truthy txt) then
        mkOutcome (Reply 400 (BError (Text (py "No text provided")))) g1 t1
      else
        let '(r, t2) := speak_guarded w (tts g1) txt max_chunk in
        mkOutcome r g1 (t1 ++ t2)
  end.

(** ** /shutdown *)

Definition shutdown (g : globals) : outcome :=
  mkOutcome (Reply 200 BShutdown) g [EvSigterm].

(** ** The process *)

Inductive call : Type :=
| LoadModel
| GetHealth
| PostSpeak (req : speak_request)
| PostShutdown.

Definition exec (w : world) (c : call) (g : globals)
  : globals * list event :=
  match c with
  | LoadModel => let '(_, g', t) := load_model w g in (g', t)
  | GetHealth => (globals_after (health g), trace (health g))
  | PostSpeak req => (globals_after (speak w req g), trace (speak w req g))
  | PostShutdown => (globals_after (shutdown g), trace (shutdown g))
  end.

(** A sequence of calls, each in its own world; the signal of
    [/shutdown] ends the process. *)
Fixpoint exec_all (cs : list (world * call)) (g : globals)
  : globals * list event :=
  match cs with
  | [] => (g, [])
  | (w, c) :: rest =>
      let '(g1, t1) := exec w c g in
      match c with
      | PostShutdown => (g1, t1)
      | _ => let '(g2, t2) := exec_all rest g1 in (g2, t1 ++ t2)
      end
  end.

(** What [main] meets at startup besides the preload: the variable
    CHATTERBOX_PORT, absent or with the outcome of [int] on its value;
    the home directory and the [mkdir] of [write_pid_file], then its
    [write_text]; and the listening socket that [app.run] opens on the
    port. *)
Record startup : Type := mkStartup {
  port_env : option (result Z);
  pid_mkdir : result unit;
  pid_write_text : result unit;
  listen : Z -> result unit
}.

(** [int(os.environ.get("CHATTERBOX_PORT", "7865"))] *)
Definition port_of (s : startup) : result Z :=
  match port_env s with
  | None => Ok 7865
  | Some r => r
  end.

(** [write_pid_file()]: the directory, then the file. *)
Definition write_pid_file (s : startup) : M unit :=
  lift (pid_mkdir s) ;;;
  lift (pid_write_text s) ;;;
  emit EvWritePid.

(** [main()]: the port, the preload, the PID file, then [app.run], which
    serves the calls once it listens.  An exception at any step ends the
    process there. *)
Definition main (s : startup) (w0 : world) (cs : list (world * call))
  : globals * list event :=
  match port_of s with
  | Raise _ => (boot, [])
  | Ok port =>
      match load_model w0 boot with
      | (Raise _, g, t) => (g, t)
      | (Ok _, g, t) =>
          match write_pid_file s with
          | (Raise _, tp) => (g, t ++ tp)
          | (Ok _, tp) =>
              match listen s port with
              | Raise _ => (g, t ++ tp ++ [EvPrintRunning port])
              | Ok _ =>
                  let '(g', t') := exec_all cs g in
                  (g', t ++ tp ++ EvPrintRunning port :: t')
              end
          end
      end
  end.

(** The events of a trace that are a successful [from_pretrained]. *)
Definition is_successful_load (e : event) : bool :=
  match e with
  | EvFromPretrained _ (Ok _) => true
  | _ => false
  end.

Definition successful_loads (t : list event) : nat :=
  List.length (filter is_successful_load t).

(** The events of [load_model]. *)
Definition is_load_event (e : event) : bool :=
  match e with
  | EvPrintLoading | EvFromPretrained _ _ | EvPrintLoaded _ => true
  | _ => false
  end.

(** The events of the [try] of [/speak] and of its [except]. *)
Definition is_request_event (e : event) : bool :=
  match e with
  | EvGenerate _ | EvTempFile _ | EvSave _ _ _ | EvTraceback _ => true
  | _ => false
  end.

Definition is_generate (e : event) : bool :=
  match e with EvGenerate _ => true | _ => false end.

(** The events that leave a file behind: [NamedTemporaryFile] creates
    one, [torchaudio.save] fills it. *)
Definition is_save (e : event) : bool :=
  match e with EvTempFile _ | EvSave _ _ _ => true | _ => false end.

(** The number of calls of [generate] in a trace: one for each audio
    segment of a request that succeeds. *)
Definition generated (t : list event) : Z :=
  Z.of_nat (List.length (filter is_generate t)).

(** A world in which nothing fails: the model loads on the CPU with a
    sample rate of 24000, and a chunk is rendered as one sample for each
    character. *)
Definition sunny : world :=
  mkWorld (Ok tt) false (fun d => Ok (mkModel d 24000)) (Ok tt)
          (fun _ _ chunk => Ok (repeat zero (List.length chunk)))
          (Ok (py "/tmp/tmpq3x1.wav")) (fun _ _ _ => Ok tt).

(** The globals after a load in that world. *)
Definition loaded_cpu : globals :=
  mkGlobals (Some (mkModel CPU 24000)) (Some CPU).

(** A startup in which nothing fails, on the default port. *)
Definition calm : startup :=
  mkStartup None (Ok tt) (Ok tt) (fun _ => Ok tt).

End Server.

(* ================================================================== *)
(** * Further notions, for the properties beyond the specification *)
(* ================================================================== *)

(** [p] is the beginning of [s]. *)
Definition starts_with (p s : str) : Prop := exists rest, s = p ++ rest.

(** The last character of [s] is one of [.!?]. *)
Definition ends_with_terminal (s : str) : bool := Re.after_terminal (rev s).

(** Somewhere in [s] a sentence terminal is followed by white space: a
    place where the sentence pattern matches. *)
Fixpoint has_boundary (s : str) : bool :=
  match s with
  | [] => false
  | c :: rest =>
      match rest with
      | [] => false
      | d :: _ => (is_terminal c && is_space d) || has_boundary rest
      end
  end.

Definition count_commas (s : str) : nat := List.length (filter is_comma s).

(** The subject that was cut into the pieces [first :: map snd rest],
    where each piece of [rest] comes with the match of the sentence
    pattern before it. *)
Definition weave (first : str) (rest : list (str * str)) : str :=
  first ++ concat (map (fun gp => fst gp ++ snd gp) rest).

(** A match of [\s+] and the piece after it: the match is a run of white
    space, not empty, and the piece does not go on with white space. *)
Definition gap_ok (gp : str * str) : Prop :=
  fst gp <> []
  /\ forallb is_space (fst gp) = true
  /\ first_ok (snd gp) = true.

(** Groups of sentences packed greedily: the first sentence of a group
    did not fit after the group before it. *)
Fixpoint packed (max_chars : Z) (groups : list (list str)) : Prop :=
  match groups with
  | [] => True
  | g :: rest =>
      match rest with
      | [] => True
      | g' :: _ =>
          match g' with
          | [] => True
          | s :: _ => max_chars < len (join [SPACE] g) + len s + 1
          end
          /\ packed max_chars rest
      end
  end.

(** The groups closed so far and the group of the running chunk. *)
Definition with_open (gs : list (list str)) (g : list str)
  : list (list str) :=
  match g with [] => gs | _ :: _ => gs ++ [g] end.

(** A chunk is within the limit, or it is a comma part of a sentence of
    [ss] that is over the limit. *)
Definition within_limit (max_chars : Z) (ss : list str) (c : str) : Prop :=
  len c <= max_chars
  \/ exists s, In s ss /\ max_chars < len s /\ In c (comma_parts s).

(** A chunk that [/speak] synthesizes: it does not strip to nothing. *)
Definition voiced (c : str) : Prop := strip c <> [].

(** The device [load_model] chooses. *)
Definition probe (w : Server.world) : Server.torch_device :=
  if Server.mps_available w then Server.MPS else Server.CPU.

(** In this world [load_model] raises: at its imports, or when it fetches
    the pretrained model. *)
Definition load_fails (w : Server.world) : Prop :=
  (exists e, Server.load_imports w = Server.Raise e)
  \/ (Server.load_imports w = Server.Ok tt
      /\ exists e, Server.from_pretrained w (probe w) = Server.Raise e).

(** A state in which a loaded model has its device recorded. *)
Definition device_known (g : Server.globals) : Prop :=
  Server.tts g <> None -> Server.device g <> None.

(** Each chunk of [cs] is rendered, in order, by the call of [generate]
    that comes when [made] segments exist already. *)
Fixpoint rendered (w : Server.world) (m : Server.model) (made : nat)
         (cs : list str) (segs : list Audio.waveform) : Prop :=
  match cs, segs with
  | [], [] => True
  | c :: cs', seg :: segs' =>
      Server.generate w m made c = Server.Ok seg
      /\ rendered w m (S made) cs' segs'
  | _, _ => False
  end.

(** The chunks of a request that are synthesized. *)
Definition spoken_chunks (req : Server.speak_request) : list str :=
  filter Server.nonblank
    (split_text_into_chunks (Server.text_of req)
       (Server.max_chunk_size_of req)).

Definition is_print_loading (e : Server.event) : bool :=
  match e with Server.EvPrintLoading => true | _ => false end.

Definition is_write_pid (e : Server.event) : bool :=
  match e with Server.EvWritePid => true | _ => false end.

(** A world in which the pretrained model cannot be fetched. *)
Definition no_weights : Server.world :=
  Server.mkWorld (Server.Ok tt) false
    (fun _ => Server.Raise (Server.External (py "weights not found")))
    (Server.Ok tt)
    (fun _ _ chunk => Server.Ok (repeat Audio.zero (List.length chunk)))
    (Server.Ok (py "/tmp/tmpq3x1.wav")) (fun _ _ _ => Server.Ok tt).

(** A world in which the second call of [generate] fails. *)
Definition hoarse : Server.world :=
  Server.mkWorld (Server.Ok tt) false
    (fun d => Server.Ok (Server.mkModel d 24000)) (Server.Ok tt)
    (fun _ made chunk =>
       match made with
       | 1%nat => Server.Raise (Server.External (py "out of memory"))
       | _ => Server.Ok (repeat Audio.zero (List.length chunk))
       end)
    (Server.Ok (py "/tmp/tmpq3x1.wav")) (fun _ _ _ => Server.Ok tt).

(** A world in which the audio file cannot be written. *)
Definition disk_full : Server.world :=
  Server.mkWorld (Server.Ok tt) false
    (fun d => Server.Ok (Server.mkModel d 24000)) (Server.Ok tt)
    (fun _ _ chunk => Server.Ok (repeat Audio.zero (List.length chunk)))
    (Server.Ok (py "/tmp/tmpq3x1.wav"))
    (fun _ _ _ => Server.Raise (Server.External (py "No space left on device"))).

(** A text without sentence terminal or comma, over a limit of 10. *)
Definition plain_words : str := py "  no punctuation here at all  ".

(** A text with a terminal that no white space follows. *)
Definition decimals : str := py "Pi is 3.14 ok.  Yes".

(** [write_pid_file] raises: at the directory, or at the file. *)
Definition pid_fails (s : Server.startup) : Prop :=
  (exists e, Server.pid_mkdir s = Server.Raise e)
  \/ (Server.pid_mkdir s = Server.Ok tt
      /\ exists e, Server.pid_write_text s = Server.Raise e).

(** [write_pid_file] returns. *)
Definition pid_written (s : Server.startup) : Prop :=
  Server.pid_mkdir s = Server.Ok tt /\ Server.pid_write_text s = Server.Ok tt.

(** A startup in which CHATTERBOX_PORT is not a number. *)
Definition bad_port : Server.startup :=
  Server.mkStartup
    (Some (Server.Raise
             (Server.External
                (py "invalid literal for int() with base 10: 'http'"))))
    (Server.Ok tt) (Server.Ok tt) (fun _ => Server.Ok tt).

(** A startup in which the home directory cannot be written. *)
Definition read_only_home : Server.startup :=
  Server.mkStartup None
    (Server.Raise (Server.External (py "Read-only file system")))
    (Server.Ok tt) (fun _ => Server.Ok tt).

(** A startup in which the port is taken by another process. *)
Definition port_taken : Server.startup :=
  Server.mkStartup (Some (Server.Ok 8080)) (Server.Ok tt) (Server.Ok tt)
    (fun _ => Server.Raise (Server.External (py "Address already in use"))).

(* ================================================================== *)
(** * Facts about the string primitives *)
(* ================================================================== *)

Section StringFacts.

Lemma first_ok_lstrip (s : str) : first_ok (lstrip s) = true.
Proof.
  induction s as [|c rest IH]; simpl; [reflexivity|].
  destruct (is_space c) eqn:E; [exact IH|].
  simpl. now rewrite E.
Qed.

Lemma lstrip_id (s : str) : first_ok s = true -> lstrip s = s.
Proof.
  destruct s as [|c rest]; simpl; [reflexivity|].
  intros H. apply negb_true_iff in H. now rewrite H.
Qed.

Lemma rstrip_id (s : str) : last_ok s = true -> rstrip s = s.
Proof.
  unfold last_ok, rstrip. intros H.
  rewrite (lstrip_id _ H). apply rev_involutive.
Qed.

Lemma strip_id (s : str) :
  first_ok s = true -> last_ok s = true -> strip s = s.
Proof.
  intros Hf Hl. unfold strip. rewrite (lstrip_id _ Hf). now apply rstrip_id.
Qed.

(** [lstrip] removes a prefix. *)
Lemma lstrip_suffix (s : str) : exists w, s = w ++ lstrip s.
Proof.
  induction s as [|c rest [w Hw]]; simpl.
  - now exists [].
  - destruct (is_space c).
    + exists (c :: w). simpl. now f_equal.
    + now exists [].
Qed.

(** [rstrip] removes a suffix. *)
Lemma rstrip_prefix (s : str) : exists w, s = rstrip s ++ w.
Proof.
  destruct (lstrip_suffix (rev s)) as [w Hw].
  exists (rev w). unfold rstrip.
  rewrite <- rev_app_distr, <- Hw. symmetry. apply rev_involutive.
Qed.

Lemma first_ok_rstrip (s : str) :
  first_ok s = true -> first_ok (rstrip s) = true.
Proof.
  intros H. destruct (rstrip_prefix s) as [w Hw].
  destruct (rstrip s) as [|c r]; [reflexivity|].
  rewrite Hw in H. exact H.
Qed.

Lemma last_ok_rstrip (s : str) : last_ok (rstrip s) = true.
Proof.
  unfold last_ok, rstrip. rewrite rev_involutive. apply first_ok_lstrip.
Qed.

Lemma first_ok_strip (s : str) : first_ok (strip s) = true.
Proof. apply first_ok_rstrip, first_ok_lstrip. Qed.

Lemma last_ok_strip (s : str) : last_ok (strip s) = true.
Proof. apply last_ok_rstrip. Qed.

(** Stripping twice is stripping once. *)
Lemma strip_idem (s : str) : trimmed (strip s).
Proof. apply strip_id; [apply first_ok_strip | apply last_ok_strip]. Qed.

Lemma first_ok_app (a b : str) :
  a <> [] -> first_ok (a ++ b) = first_ok a.
Proof. destruct a; [congruence | reflexivity]. Qed.

Lemma last_ok_app (a b : str) :
  b <> [] -> last_ok (a ++ b) = last_ok b.
Proof.
  intros Hb. unfold last_ok. rewrite rev_app_distr.
  apply first_ok_app. intros E. apply Hb.
  apply (f_equal (@rev char)) in E. now rewrite rev_involutive in E.
Qed.

Lemma last_ok_cons (c : char) (s : str) :
  s <> [] -> last_ok (c :: s) = last_ok s.
Proof. intros H. now apply (last_ok_app [c] s). Qed.

Lemma last_ok_sep (a s : str) :
  s <> [] -> last_ok (a ++ [SPACE] ++ s) = last_ok s.
Proof.
  intros H. change ([SPACE] ++ s) with (SPACE :: s).
  rewrite last_ok_app by discriminate. now apply last_ok_cons.
Qed.

Lemma last_ok_snoc (s : str) (c : char) :
  last_ok (s ++ [c]) = negb (is_space c).
Proof. unfold last_ok. now rewrite rev_app_distr. Qed.

Lemma non_ws_app (a b : str) : non_ws (a ++ b) = non_ws a ++ non_ws b.
Proof. apply filter_app. Qed.

Lemma non_ws_rev (s : str) : non_ws (rev s) = rev (non_ws s).
Proof.
  induction s as [|c rest IH]; [reflexivity|].
  simpl rev. rewrite non_ws_app, IH. simpl.
  destruct (is_space c); simpl; [now rewrite app_nil_r | reflexivity].
Qed.

Lemma non_ws_lstrip (s : str) : non_ws (lstrip s) = non_ws s.
Proof.
  induction s as [|c rest IH]; [reflexivity|].
  simpl. destruct (is_space c) eqn:E; simpl; [exact IH | now rewrite E].
Qed.

Lemma non_ws_strip (s : str) : non_ws (strip s) = non_ws s.
Proof.
  unfold strip, rstrip.
  now rewrite non_ws_rev, non_ws_lstrip, non_ws_rev, rev_involutive,
    non_ws_lstrip.
Qed.

Lemma strip_space_cons (s : str) : strip (SPACE :: s) = strip s.
Proof. reflexivity. Qed.

Lemma len_nonneg {A : Type} (s : list A) : 0 <= len s.
Proof. unfold len. lia. Qed.

Lemma truthy_true_iff {A : Type} (l : list A) : truthy l = true <-> l <> [].
Proof. destruct l; simpl; split; congruence. Qed.

End StringFacts.

(* ================================================================== *)
(** * Facts about the two splits *)
(* ================================================================== *)

Section SplitFacts.

Lemma terminal_not_space (c : char) :
  is_terminal c = true -> is_space c = false.
Proof.
  unfold is_terminal. intros H.
  apply orb_true_iff in H. destruct H as [H|H].
  - apply orb_true_iff in H.
    destruct H as [H|H]; apply N.eqb_eq in H; subst c; reflexivity.
  - apply N.eqb_eq in H; subst c; reflexivity.
Qed.

Lemma join_cons (sep x : str) (rest : list str) :
  rest <> [] -> join sep (x :: rest) = x ++ sep ++ join sep rest.
Proof. destruct rest; [congruence | reflexivity]. Qed.

Lemma join_snoc (sep x : str) (l : list str) :
  l <> [] -> join sep (l ++ [x]) = join sep l ++ sep ++ x.
Proof.
  induction l as [|y l IH]; [congruence|]. intros _.
  destruct l as [|z l].
  - reflexivity.
  - change ((y :: z :: l) ++ [x]) with (y :: ((z :: l) ++ [x])).
    rewrite join_cons by (destruct l; discriminate).
    rewrite IH by discriminate.
    rewrite (join_cons sep y (z :: l)) by discriminate.
    now rewrite <- !app_assoc.
Qed.

Lemma split_sentences_from_nonempty (s cur : str) (sk : bool) :
  Re.split_sentences_from cur sk s <> [].
Proof.
  revert cur sk. induction s as [|c rest IH]; intros cur sk; simpl.
  - discriminate.
  - destruct sk; [destruct (is_space c); apply IH|].
    destruct (is_space c && Re.after_terminal cur); [discriminate | apply IH].
Qed.

Lemma split_commas_from_nonempty (s cur : str) (sk : bool) :
  Re.split_commas_from cur sk s <> [].
Proof.
  revert cur sk. induction s as [|c rest IH]; intros cur sk; simpl.
  - discriminate.
  - destruct (sk && is_space c); [apply IH|].
    destruct (is_comma c); [discriminate | apply IH].
Qed.

(** The pieces of a subject that has no white space at either end: none
    is empty and none has white space at either end.  In skipping mode the
    subject that remains must still end with a character of a piece. *)
Lemma split_sentences_from_solid (s : str) :
  forall cur,
    (rev cur ++ s <> [] -> first_ok (rev cur ++ s) = true ->
     last_ok (rev cur ++ s) = true ->
     Forall solid (Re.split_sentences_from cur false s))
    /\ (s <> [] -> last_ok s = true ->
        Forall solid (Re.split_sentences_from cur true s)).
Proof.
  induction s as [|c rest IH]; intros cur; split.
  - rewrite app_nil_r. intros Hn Hf Hl. simpl.
    constructor; [now repeat split | constructor].
  - congruence.
  - intros Hn Hf Hl. simpl.
    destruct (is_space c && Re.after_terminal cur) eqn:E.
    + apply andb_true_iff in E. destruct E as [Hc Ht].
      destruct cur as [|d cur]; [discriminate|]. simpl in Ht.
      assert (Hrest : rest <> []).
      { intros E. subst rest. rewrite last_ok_snoc in Hl.
        now rewrite Hc in Hl. }
      constructor.
      * repeat split.
        -- simpl. intros E. now apply app_eq_nil in E.
        -- rewrite first_ok_app in Hf; [exact Hf|].
           simpl. intros E. now apply app_eq_nil in E.
        -- unfold last_ok. rewrite rev_involutive. simpl.
           now rewrite (terminal_not_space _ Ht).
      * apply (proj2 (IH [])); [exact Hrest|].
        rewrite last_ok_app in Hl by discriminate.
        now rewrite last_ok_cons in Hl.
    + apply (proj1 (IH (c :: cur))); simpl rev; rewrite <- app_assoc;
        assumption.
  - intros _ Hl. simpl. destruct (is_space c) eqn:Hc.
    + assert (Hrest : rest <> []).
      { intros E. subst rest. unfold last_ok in Hl. simpl in Hl.
        now rewrite Hc in Hl. }
      apply (proj2 (IH cur)); [exact Hrest|].
      now rewrite last_ok_cons in Hl.
    + apply (proj1 (IH [c])); simpl.
      * discriminate.
      * now rewrite Hc.
      * exact Hl.
Qed.

(** The sentence split drops white space only. *)
Lemma split_sentences_from_content (s : str) :
  forall cur,
    non_ws (concat (Re.split_sentences_from cur false s))
      = non_ws (rev cur ++ s)
    /\ non_ws (concat (Re.split_sentences_from [] true s)) = non_ws s.
Proof.
  induction s as [|c rest IH]; intros cur; split; simpl.
  - now rewrite !app_nil_r.
  - reflexivity.
  - destruct (is_space c && Re.after_terminal cur) eqn:E.
    + apply andb_true_iff in E. destruct E as [Hc _].
      simpl. rewrite !non_ws_app, (proj2 (IH [])).
      simpl. now rewrite Hc.
    + rewrite (proj1 (IH (c :: cur))). simpl rev. now rewrite <- app_assoc.
  - destruct (is_space c) eqn:Hc.
    + apply (proj2 (IH [])).
    + rewrite (proj1 (IH [c])). simpl. now rewrite Hc.
Qed.

(** The comma split drops the commas and the white space after them:
    with the commas put back between the stripped parts, the subject is
    there again up to white space. *)
Lemma split_commas_from_content (s : str) :
  forall cur sk,
    non_ws (join [COMMA] (map strip (Re.split_commas_from cur sk s)))
      = non_ws (rev cur ++ s).
Proof.
  induction s as [|c rest IH]; intros cur sk; simpl.
  - now rewrite non_ws_strip, app_nil_r.
  - destruct (sk && is_space c) eqn:E.
    + apply andb_true_iff in E. destruct E as [_ Hc].
      rewrite IH, !non_ws_app. simpl. now rewrite Hc.
    + destruct (is_comma c) eqn:Hk.
      * simpl map. rewrite join_cons.
        2:{ intros E0. apply map_eq_nil in E0.
            now apply split_commas_from_nonempty in E0. }
        rewrite !non_ws_app, non_ws_strip, IH.
        apply N.eqb_eq in Hk. subst c. reflexivity.
      * rewrite IH. simpl rev. now rewrite <- app_assoc.
Qed.

End SplitFacts.

(* ================================================================== *)
(** * Facts about the sentences of a text *)
(* ================================================================== *)

Section SentenceFacts.

Variable text : str.

Lemma sentences_nonempty : sentences text <> [].
Proof. apply split_sentences_from_nonempty. Qed.

(** A blank text has the empty string as its only sentence. *)
Lemma sentences_blank : strip text = [] -> sentences text = [[]].
Proof. unfold sentences. now intros ->. Qed.

(** The sentences of a text that is not blank are non-empty and have no
    white space at either end. *)
Lemma sentences_solid : strip text <> [] -> Forall solid (sentences text).
Proof.
  intros H. unfold sentences, Re.split_sentences.
  apply (proj1 (split_sentences_from_solid (strip text) [])); simpl.
  - exact H.
  - apply first_ok_strip.
  - apply last_ok_strip.
Qed.

Lemma sentences_content : non_ws (concat (sentences text)) = non_ws text.
Proof.
  unfold sentences, Re.split_sentences.
  rewrite (proj1 (split_sentences_from_content (strip text) [])).
  simpl. apply non_ws_strip.
Qed.

End SentenceFacts.

(* ================================================================== *)
(** * Facts about the chunking loop *)
(* ================================================================== *)

Section LoopFacts.

Variable max_chars : Z.

Lemma append_parts_eq (parts cs : list str) :
  append_parts max_chars cs parts = cs ++ map strip parts.
Proof.
  unfold append_parts. revert cs.
  induction parts as [|p parts IH]; intros cs; simpl.
  - now rewrite app_nil_r.
  - destruct (len p <=? max_chars); rewrite IH, <- app_assoc; reflexivity.
Qed.

(** The three branches of one iteration. *)
Lemma step_join (st : loop_state) (s : str) :
  len (current_chunk st) + len s + 1 <= max_chars ->
  step max_chars st s
  = mkLoop (chunks st) (strip (current_chunk st ++ [SPACE] ++ s)).
Proof. intros H. unfold step. apply Z.leb_le in H. now rewrite H. Qed.

Lemma step_split (st : loop_state) (s : str) :
  max_chars < len s ->
  step max_chars st s
  = mkLoop (flush (chunks st) (current_chunk st)
              ++ map strip (Re.split_commas s))
           (current_chunk st).
Proof.
  intros H. unfold step.
  pose proof (len_nonneg (current_chunk st)) as Hc.
  destruct (Z.leb_spec (len (current_chunk st) + len s + 1) max_chars);
    [lia|].
  destruct (Z.gtb_spec (len s) max_chars); [|lia].
  now rewrite append_parts_eq.
Qed.

Lemma step_restart (st : loop_state) (s : str) :
  max_chars < len (current_chunk st) + len s + 1 ->
  len s <= max_chars ->
  step max_chars st s = mkLoop (flush (chunks st) (current_chunk st)) s.
Proof.
  intros H1 H2. unfold step.
  destruct (Z.leb_spec (len (current_chunk st) + len s + 1) max_chars);
    [lia|].
  destruct (Z.gtb_spec (len s) max_chars); [lia | reflexivity].
Qed.

(** Exactly one branch applies. *)
Lemma step_cases (st : loop_state) (s : str) :
  (len (current_chunk st) + len s + 1 <= max_chars
   /\ step max_chars st s
      = mkLoop (chunks st) (strip (current_chunk st ++ [SPACE] ++ s)))
  \/ (max_chars < len s
      /\ step max_chars st s
         = mkLoop (flush (chunks st) (current_chunk st)
                     ++ map strip (Re.split_commas s))
                  (current_chunk st))
  \/ (max_chars < len (current_chunk st) + len s + 1 /\ len s <= max_chars
      /\ step max_chars st s
         = mkLoop (flush (chunks st) (current_chunk st)) s).
Proof.
  destruct (Z.le_gt_cases (len (current_chunk st) + len s + 1) max_chars)
    as [H|H].
  - left. split; [exact H | now apply step_join].
  - destruct (Z.le_gt_cases (len s) max_chars) as [H2|H2].
    + right; right. repeat split; try assumption. now apply step_restart.
    + right; left. split; [exact H2 | now apply step_split].
Qed.

Lemma flush_extends (cs : list str) (cur : str) :
  exists extra, flush cs cur = cs ++ extra.
Proof.
  unfold flush. destruct (truthy cur).
  - now exists [cur].
  - exists []. now rewrite app_nil_r.
Qed.

(** The list of chunks only ever grows at its end. *)
Lemma step_extends (st : loop_state) (s : str) :
  exists extra, chunks (step max_chars st s) = chunks st ++ extra.
Proof.
  destruct (step_cases st s) as [[_ E]|[[_ E]|[_ [_ E]]]]; rewrite E; simpl.
  - exists []. now rewrite app_nil_r.
  - destruct (flush_extends (chunks st) (current_chunk st)) as [x Hx].
    rewrite Hx, <- app_assoc. eauto.
  - apply flush_extends.
Qed.

Lemma run_extends (ss : list str) :
  forall st, exists extra, chunks (run max_chars ss st) = chunks st ++ extra.
Proof.
  induction ss as [|s ss IH]; intros st; simpl.
  - exists []. now rewrite app_nil_r.
  - destruct (IH (step max_chars st s)) as [x Hx].
    destruct (step_extends st s) as [y Hy].
    rewrite Hx, Hy, <- app_assoc. eauto.
Qed.

Lemma run_app (a b : list str) (st : loop_state) :
  run max_chars (a ++ b) st = run max_chars b (run max_chars a st).
Proof. apply fold_left_app. Qed.

(** Joining a solid sentence to a tidy running chunk: the strip of the
    source only matters when the running chunk is empty. *)
Lemma strip_join_solid (cur s : str) :
  first_ok cur = true -> last_ok cur = true -> solid s ->
  strip (cur ++ [SPACE] ++ s)
  = match cur with [] => s | _ :: _ => cur ++ [SPACE] ++ s end.
Proof.
  intros Hf Hl (Hn & Hsf & Hsl).
  destruct cur as [|c cur].
  - simpl app. rewrite strip_space_cons. now apply strip_id.
  - apply strip_id.
    + exact Hf.
    + now rewrite last_ok_sep.
Qed.

Lemma strip_join_solid_solid (cur s : str) :
  first_ok cur = true -> last_ok cur = true -> solid s ->
  solid (strip (cur ++ [SPACE] ++ s)).
Proof.
  intros Hf Hl Hs. rewrite (strip_join_solid cur s Hf Hl Hs).
  destruct cur as [|c cur]; [exact Hs|].
  destruct Hs as (Hn & Hsf & Hsl). repeat split.
  - discriminate.
  - exact Hf.
  - now rewrite last_ok_sep.
Qed.

Lemma step_tidy (st : loop_state) (s : str) :
  solid s -> tidy st -> tidy (step max_chars st s).
Proof.
  intros Hs [Hf Hl].
  destruct (step_cases st s) as [[_ E]|[[_ E]|[_ [_ E]]]]; rewrite E;
    unfold tidy; simpl.
  - split; [apply first_ok_strip | apply last_ok_strip].
  - now split.
  - destruct Hs as (_ & H1 & H2). now split.
Qed.

Lemma run_tidy (ss : list str) :
  Forall solid ss -> forall st, tidy st -> tidy (run max_chars ss st).
Proof.
  induction 1 as [|s ss Hs _ IH]; intros st Ht; simpl; [exact Ht|].
  apply IH. now apply step_tidy.
Qed.

(** After an iteration on a solid sentence something is pending: a
    chunk was appended or the running chunk is not empty. *)
Lemma step_live (st : loop_state) (s : str) :
  solid s -> tidy st ->
  chunks (step max_chars st s) <> []
  \/ current_chunk (step max_chars st s) <> [].
Proof.
  intros Hs [Hf Hl].
  destruct (step_cases st s) as [[_ E]|[[_ E]|[_ [_ E]]]]; rewrite E; simpl.
  - right. apply (strip_join_solid_solid _ _ Hf Hl Hs).
  - left. intros H. apply app_eq_nil in H. destruct H as [_ H].
    apply map_eq_nil in H. now apply split_commas_from_nonempty in H.
  - right. apply Hs.
Qed.

Lemma flush_nil_iff (cs : list str) (cur : str) :
  flush cs cur = [] <-> cs = [] /\ cur = [].
Proof.
  unfold flush. destruct cur as [|c cur]; simpl.
  - tauto.
  - split.
    + intros H. now apply app_eq_nil in H.
    + intros [_ H]. discriminate.
Qed.

(** ** Every chunk is trimmed, and empty only as a comma part *)

Lemma flush_chunk_ok (ss cs : list str) (cur : str) :
  first_ok cur = true -> last_ok cur = true ->
  Forall (chunk_ok max_chars ss) cs -> Forall (chunk_ok max_chars ss) (flush cs cur).
Proof.
  intros Hf Hl Hcs. unfold flush.
  destruct cur as [|c cur]; simpl; [exact Hcs|].
  apply Forall_app. split; [exact Hcs|].
  constructor; [|constructor]. split.
  - now apply strip_id.
  - left. discriminate.
Qed.

Lemma step_chunk_ok (ss : list str) (st : loop_state) (s : str) :
  solid s -> In s ss -> tidy st ->
  Forall (chunk_ok max_chars ss) (chunks st) ->
  Forall (chunk_ok max_chars ss) (chunks (step max_chars st s)).
Proof.
  intros Hs Hin [Hf Hl] Hcs.
  destruct (step_cases st s) as [[_ E]|[[Hlong E]|[_ [_ E]]]]; rewrite E;
    simpl.
  - exact Hcs.
  - apply Forall_app. split; [now apply flush_chunk_ok|].
    apply Forall_forall. intros c Hc. split.
    + apply in_map_iff in Hc. destruct Hc as (p & <- & _). apply strip_idem.
    + right. exists s. now repeat split.
  - now apply flush_chunk_ok.
Qed.

Lemma run_chunk_ok (ss : list str) (todo : list str) :
  Forall solid todo -> incl todo ss ->
  forall st, tidy st -> Forall (chunk_ok max_chars ss) (chunks st) ->
  Forall (chunk_ok max_chars ss) (chunks (run max_chars todo st)).
Proof.
  induction 1 as [|s todo Hs _ IH]; intros Hincl st Ht Hcs; simpl;
    [exact Hcs|].
  apply IH.
  - intros x Hx. apply Hincl. now right.
  - now apply step_tidy.
  - apply step_chunk_ok; try assumption. apply Hincl. now left.
Qed.

(** ** When every sentence fits: the chunks group the sentences *)

Lemma cur_group_tidy (cur : str) (g : list str) :
  cur_group cur g -> first_ok cur = true /\ last_ok cur = true.
Proof.
  intros [[_ ->]|(_ & (_ & Hf & Hl) & _)]; [now split | now split].
Qed.

Lemma step_fitting (st : loop_state) (s : str) (pre : list str)
      (gs : list (list str)) (g : list str) :
  solid s -> len s <= max_chars ->
  chunks st = pre ++ map (join [SPACE]) gs ->
  Forall (fun g => g <> []) gs ->
  cur_group (current_chunk st) g ->
  exists gs' g',
    chunks (step max_chars st s) = pre ++ map (join [SPACE]) gs'
    /\ Forall (fun g => g <> []) gs'
    /\ cur_group (current_chunk (step max_chars st s)) g'
    /\ concat gs' ++ g' = (concat gs ++ g) ++ [s].
Proof.
  intros Hs Hfit Hcs Hgs Hcur.
  destruct (cur_group_tidy _ _ Hcur) as [Hf Hl].
  destruct (step_cases st s) as [[_ E]|[[Hlong E]|[_ [_ E]]]]; rewrite E;
    cbn [chunks current_chunk]; [| lia |].
  - exists gs, (g ++ [s]).
    split; [exact Hcs|]. split; [exact Hgs|]. split; [|apply app_assoc].
    right. split; [now destruct g|].
    split; [now apply strip_join_solid_solid|].
    rewrite (strip_join_solid _ _ Hf Hl Hs).
    destruct Hcur as [[Eg Ec]|(Hg & Hsol & Hj)].
    + subst g. rewrite Ec. reflexivity.
    + rewrite join_snoc by exact Hg. rewrite <- Hj.
      destruct Hsol as [Hn _].
      destruct (current_chunk st); [congruence | reflexivity].
  - assert (Hnew : cur_group s [s]).
    { right. split; [discriminate|]. split; [exact Hs | reflexivity]. }
    destruct Hcur as [[Eg Ec]|(Hg & (Hn & _) & Hj)].
    + exists gs, [s]. subst g. rewrite Ec. unfold flush. simpl truthy.
      cbv iota. rewrite app_nil_r.
      split; [exact Hcs|]. split; [exact Hgs|]. split; [exact Hnew|].
      reflexivity.
    + exists (gs ++ [g]), [s]. unfold flush.
      destruct (current_chunk st) as [|c cur] eqn:Ec; [congruence|].
      simpl truthy. cbv iota.
      split; [|split; [|split; [exact Hnew|]]].
      * rewrite map_app, Hcs, <- app_assoc. simpl. now rewrite Hj.
      * apply Forall_app. split; [exact Hgs | now constructor].
      * rewrite concat_app. simpl. now rewrite app_nil_r.
Qed.

Lemma run_fitting (todo : list str) (pre : list str) :
  Forall solid todo -> Forall (fun s => len s <= max_chars) todo ->
  forall st gs g,
    chunks st = pre ++ map (join [SPACE]) gs ->
    Forall (fun g => g <> []) gs ->
    cur_group (current_chunk st) g ->
    exists gs' g',
      chunks (run max_chars todo st) = pre ++ map (join [SPACE]) gs'
      /\ Forall (fun g => g <> []) gs'
      /\ cur_group (current_chunk (run max_chars todo st)) g'
      /\ concat gs' ++ g' = (concat gs ++ g) ++ todo.
Proof.
  induction 1 as [|s todo Hs _ IH]; intros Hfit st gs g Hcs Hgs Hcur.
  - exists gs, g. simpl. now rewrite app_nil_r.
  - inversion Hfit as [|? ? Hfs Hft]; subst.
    destruct (step_fitting st s pre gs g Hs Hfs Hcs Hgs Hcur)
      as (gs1 & g1 & H1 & H2 & H3 & H4).
    destruct (IH Hft _ gs1 g1 H1 H2 H3) as (gs2 & g2 & K1 & K2 & K3 & K4).
    exists gs2, g2. simpl. repeat split; try assumption.
    rewrite K4, H4, <- !app_assoc. reflexivity.
Qed.

(** ** Sentences over the limit before any running chunk *)

(** While the running chunk is empty, each sentence over the limit only
    appends its comma parts. *)
Lemma run_longs (longs : list str) :
  Forall (fun s => max_chars < len s) longs ->
  forall st, current_chunk st = [] ->
    run max_chars longs st
    = mkLoop (chunks st ++ flat_map comma_parts longs) [].
Proof.
  induction 1 as [|s longs Hs _ IH]; intros st Hc; simpl.
  - rewrite app_nil_r. destruct st as [cs cur]. simpl in Hc. now subst cur.
  - rewrite (step_split st s Hs), Hc. rewrite IH by reflexivity.
    simpl. unfold comma_parts. now rewrite <- app_assoc.
Qed.

End LoopFacts.

(* ================================================================== *)
(** * The chunker: what it returns *)
(* ================================================================== *)

Section ChunkerFacts.

Variable text : str.
Variable max_chars : Z.

Lemma split_of_loop_nil :
  loop_chunks text max_chars = [] ->
  split_text_into_chunks text max_chars = [text].
Proof. unfold split_text_into_chunks. now intros ->. Qed.

Lemma split_of_loop_cons :
  loop_chunks text max_chars <> [] ->
  split_text_into_chunks text max_chars = loop_chunks text max_chars.
Proof.
  unfold split_text_into_chunks. intros H.
  apply truthy_true_iff in H. now rewrite H.
Qed.

(** A text that is not blank always yields chunks from the loop. *)
Lemma loop_chunks_live : strip text <> [] -> loop_chunks text max_chars <> [].
Proof.
  intros H. pose proof (sentences_solid text H) as Hsol.
  unfold loop_chunks. fold (run max_chars (sentences text) init).
  destruct (exists_last (sentences_nonempty text)) as (ss & s & E).
  rewrite E in *. apply Forall_app in Hsol. destruct Hsol as [Hss Hs].
  inversion Hs as [|? ? Hs1 _]; subst.
  rewrite run_app. simpl.
  assert (Ht : tidy (run max_chars ss init))
    by (apply run_tidy; [exact Hss | now split]).
  intros K. apply flush_nil_iff in K. destruct K as [K1 K2].
  destruct (step_live max_chars _ s Hs1 Ht); contradiction.
Qed.

(** A blank text yields none, when the limit is not negative. *)
Lemma loop_chunks_blank :
  0 <= max_chars -> strip text = [] -> loop_chunks text max_chars = [].
Proof.
  intros HL H. unfold loop_chunks. rewrite (sentences_blank text H).
  simpl fold_left.
  destruct (step_cases max_chars init []) as [[_ E]|[[Hl _]|[_ [_ E]]]].
  - rewrite E. reflexivity.
  - change (len (@nil char)) with 0 in Hl. lia.
  - rewrite E. reflexivity.
Qed.

Lemma loop_chunks_ok :
  strip text <> [] ->
  Forall (chunk_ok max_chars (sentences text)) (loop_chunks text max_chars).
Proof.
  intros H. pose proof (sentences_solid text H) as Hsol.
  unfold loop_chunks. fold (run max_chars (sentences text) init).
  assert (Ht : tidy (run max_chars (sentences text) init))
    by (apply run_tidy; [exact Hsol | now split]).
  destruct Ht as [Hf Hl].
  apply flush_chunk_ok; try assumption.
  apply run_chunk_ok; try assumption.
  - apply incl_refl.
  - now split.
  - constructor.
Qed.

(** When no sentence over the limit comes after one that fits, the
    chunks are the comma parts of the sentences over the limit, then the
    joins of consecutive groups of the sentences that fit. *)
Lemma loop_chunks_parts_then_groups (longs shorts : list str) :
  strip text <> [] ->
  sentences text = longs ++ shorts ->
  Forall (fun s => max_chars < len s) longs ->
  Forall (fun s => len s <= max_chars) shorts ->
  exists groups,
    Forall (fun g => g <> []) groups
    /\ concat groups = shorts
    /\ loop_chunks text max_chars
       = flat_map comma_parts longs ++ map (join [SPACE]) groups.
Proof.
  intros H Hs Hlong Hfit. pose proof (sentences_solid text H) as Hsol.
  rewrite Hs in Hsol. apply Forall_app in Hsol. destruct Hsol as [_ Hsol].
  unfold loop_chunks. fold (run max_chars (sentences text) init).
  rewrite Hs, run_app, (run_longs max_chars longs Hlong init eq_refl).
  simpl chunks at 1. simpl app at 1.
  set (st0 := mkLoop (flat_map comma_parts longs) []).
  destruct (run_fitting max_chars shorts (flat_map comma_parts longs)
              Hsol Hfit st0 [] [])
    as (gs & g & H1 & H2 & H3 & H4).
  - simpl. now rewrite app_nil_r.
  - constructor.
  - left. now split.
  - simpl in H4.
    destruct H3 as [[Eg Ec]|(Hg & (Hn & _) & Hj)].
    + exists gs. subst g. rewrite Ec, app_nil_r in *.
      repeat split; assumption.
    + exists (gs ++ [g]). split; [|split].
      * apply Forall_app. split; [exact H2 | now constructor].
      * rewrite concat_app. simpl. now rewrite app_nil_r.
      * unfold flush.
        destruct (current_chunk (run max_chars shorts st0));
          [congruence|].
        simpl truthy. cbv iota.
        rewrite map_app, H1, <- app_assoc. simpl. now rewrite Hj.
Qed.

Lemma loop_chunks_groups :
  strip text <> [] ->
  Forall (fun s => len s <= max_chars) (sentences text) ->
  exists groups,
    Forall (fun g => g <> []) groups
    /\ concat groups = sentences text
    /\ loop_chunks text max_chars = map (join [SPACE]) groups.
Proof.
  intros H Hfit.
  apply (loop_chunks_parts_then_groups [] (sentences text) H eq_refl);
    [constructor | exact Hfit].
Qed.

End ChunkerFacts.

Section JoinFacts.

Lemma join_app (sep : str) (a b : list str) :
  a <> [] -> b <> [] -> join sep (a ++ b) = join sep a ++ sep ++ join sep b.
Proof.
  intros Ha Hb. induction a as [|x a IH]; [congruence|].
  destruct a as [|y a].
  - simpl app. now apply join_cons.
  - change ((x :: y :: a) ++ b) with (x :: ((y :: a) ++ b)).
    rewrite join_cons by discriminate.
    rewrite IH by discriminate.
    rewrite (join_cons sep x (y :: a)) by discriminate.
    now rewrite <- !app_assoc.
Qed.

Lemma concat_groups_nonempty (groups : list (list str)) :
  Forall (fun g => g <> []) groups -> groups <> [] -> concat groups <> [].
Proof.
  intros H Hn. destruct groups as [|g gs]; [congruence|].
  inversion H; subst. simpl. intros E. now apply app_eq_nil in E.
Qed.

(** Joining the joins of the groups is joining all the sentences. *)
Lemma join_groups (sep : str) (groups : list (list str)) :
  Forall (fun g => g <> []) groups ->
  join sep (map (join sep) groups) = join sep (concat groups).
Proof.
  induction 1 as [|g gs Hg Hgs IH]; [reflexivity|].
  destruct gs as [|g2 gs].
  - simpl. now rewrite app_nil_r.
  - change (map (join sep) (g :: g2 :: gs))
      with (join sep g :: map (join sep) (g2 :: gs)).
    rewrite join_cons by discriminate.
    rewrite IH. change (concat (g :: g2 :: gs)) with (g ++ concat (g2 :: gs)).
    rewrite join_app; [reflexivity | exact Hg |].
    apply concat_groups_nonempty; [exact Hgs | discriminate].
Qed.

Lemma non_ws_join_space (g : list str) :
  non_ws (join [SPACE] g) = non_ws (concat g).
Proof.
  induction g as [|x g IH]; [reflexivity|].
  destruct g as [|y g].
  - simpl. now rewrite app_nil_r.
  - rewrite join_cons by discriminate.
    change (concat (x :: y :: g)) with (x ++ concat (y :: g)).
    rewrite !non_ws_app, IH. reflexivity.
Qed.

Lemma non_ws_concat_groups (groups : list (list str)) :
  non_ws (concat (map (join [SPACE]) groups))
  = non_ws (concat (concat groups)).
Proof.
  induction groups as [|g gs IH]; [reflexivity|].
  simpl. rewrite concat_app, !non_ws_app, IH, non_ws_join_space.
  reflexivity.
Qed.

(** ** Letters: the text without white space and commas *)

Lemma letters_non_ws (s : str) :
  letters s = filter (fun c => negb (is_comma c)) (non_ws s).
Proof.
  induction s as [|c s IH]; [reflexivity|].
  unfold letters, non_ws in *. simpl.
  destruct (is_space c); simpl; [exact IH|].
  destruct (is_comma c); simpl; now rewrite IH.
Qed.

Lemma letters_app (a b : str) : letters (a ++ b) = letters a ++ letters b.
Proof. apply filter_app. Qed.

Lemma letters_join_comma (l : list str) :
  letters (join [COMMA] l) = letters (concat l).
Proof.
  induction l as [|x l IH]; [reflexivity|].
  destruct l as [|y l].
  - simpl. now rewrite app_nil_r.
  - rewrite join_cons by discriminate.
    change (concat (x :: y :: l)) with (x ++ concat (y :: l)).
    rewrite !letters_app, IH. reflexivity.
Qed.

(** The comma parts of a sentence have its letters. *)
Lemma letters_comma_parts (s : str) :
  letters (concat (comma_parts s)) = letters s.
Proof.
  rewrite <- letters_join_comma, !letters_non_ws.
  unfold comma_parts, Re.split_commas.
  now rewrite split_commas_from_content.
Qed.

Lemma letters_flat_comma_parts (longs : list str) :
  letters (concat (flat_map comma_parts longs)) = letters (concat longs).
Proof.
  induction longs as [|s longs IH]; [reflexivity|].
  simpl. rewrite concat_app, !letters_app, IH, letters_comma_parts.
  reflexivity.
Qed.

Lemma letters_groups (groups : list (list str)) :
  letters (concat (map (join [SPACE]) groups))
  = letters (concat (concat groups)).
Proof. now rewrite !letters_non_ws, non_ws_concat_groups. Qed.

Lemma letters_sentences (text : str) :
  letters (concat (sentences text)) = letters text.
Proof. now rewrite !letters_non_ws, sentences_content. Qed.

End JoinFacts.

(* ================================================================== *)
(** * The chunker: the properties of the specification *)
(* ================================================================== *)

(** C1, as stated, fails: on the over-long sentence of the specification's
    own example the comma is in no chunk, so the chunks joined by single
    spaces do not have the characters of the text. *)
Lemma split_text_drops_commas :
  1 <= 20
  /\ non_ws (join [SPACE] (split_text_into_chunks long_sentence 20))
     <> non_ws long_sentence.
Proof. split; [lia|]. vm_compute. discriminate. Qed.

(** C1, amended.  When no sentence of the text is longer than the limit,
    the chunks have exactly the characters of the text that are not white
    space, in order, none dropped and none repeated; joined by single
    spaces they are the sentences of the text joined by single spaces.
    When the sentences longer than the limit all come before those that
    fit, the chunks are the stripped comma parts of the long sentences,
    in order, then the sentences that fit, in order, in groups joined by
    single spaces.  The comma parts of a sentence give it back, up to
    white space, only with the commas put between them again: the split
    keeps no comma. *)
Theorem split_text_content_preserved (T : str) (L : Z) :
  (Forall (fun s => len s <= L) (sentences T) ->
   non_ws (concat (split_text_into_chunks T L)) = non_ws T
   /\ (strip T <> [] ->
       join [SPACE] (split_text_into_chunks T L)
       = join [SPACE] (sentences T)))
  /\ (forall longs shorts,
        strip T <> [] ->
        sentences T = longs ++ shorts ->
        Forall (fun s => L < len s) longs ->
        Forall (fun s => len s <= L) shorts ->
        exists groups,
          concat groups = shorts
          /\ split_text_into_chunks T L
             = flat_map comma_parts longs ++ map (join [SPACE]) groups)
  /\ (forall s, non_ws (join [COMMA] (comma_parts s)) = non_ws s).
Proof.
  split; [|split].
  - intros Hfit. destruct (strip T) as [|c r] eqn:E.
    + assert (HL : 0 <= L).
      { rewrite (sentences_blank T E) in Hfit.
        inversion Hfit as [|? ? H0 _]; subst. exact H0. }
      rewrite (split_of_loop_nil T L (loop_chunks_blank T L HL E)).
      split; [simpl; now rewrite app_nil_r | congruence].
    + assert (Hne : strip T <> []) by (rewrite E; discriminate).
      destruct (loop_chunks_groups T L Hne Hfit) as (gs & Hgs & Hcat & Hl).
      rewrite (split_of_loop_cons T L (loop_chunks_live T L Hne)), Hl.
      split.
      * now rewrite non_ws_concat_groups, Hcat, sentences_content.
      * intros _. now rewrite join_groups, Hcat.
  - intros longs shorts Hne Hs Hlong Hfit.
    destruct (loop_chunks_parts_then_groups T L longs shorts Hne Hs
                Hlong Hfit) as (gs & _ & Hcat & Hl).
    exists gs. split; [exact Hcat|].
    now rewrite (split_of_loop_cons T L (loop_chunks_live T L Hne)).
  - intros s. unfold comma_parts, Re.split_commas.
    now rewrite split_commas_from_content.
Qed.

Lemma split_text_content_preserved_witness :
  (non_ws (concat (split_text_into_chunks hello 15)) = non_ws hello
   /\ join [SPACE] (split_text_into_chunks hello 15)
      = join [SPACE] (sentences hello))
  /\ (exists groups,
        concat groups = [py "Yes."; py "No."]
        /\ split_text_into_chunks long_then_short 12
           = flat_map comma_parts [py "One, two, three, four, five, six."]
             ++ map (join [SPACE]) groups).
Proof.
  split.
  - destruct (split_text_content_preserved hello 15) as [H _].
    assert (Hfit : Forall (fun s => len s <= 15) (sentences hello)).
    { change (sentences hello)
        with [py "Hello world."; py "This is a test."].
      repeat constructor; vm_compute; discriminate. }
    destruct (H Hfit) as [H1 H2]. split; [exact H1|].
    apply H2. vm_compute. discriminate.
  - destruct (split_text_content_preserved long_then_short 12)
      as (_ & H & _).
    apply H.
    + vm_compute. discriminate.
    + reflexivity.
    + repeat constructor.
    + repeat constructor; vm_compute; discriminate.
Defined.

(** C3, as stated, fails: a sentence over the limit that ends in a comma
    leaves an empty string among the chunks, where [strip] was applied. *)
Lemma split_text_empty_chunk :
  strip trailing_comma <> []
  /\ split_text_into_chunks trailing_comma 20
     = [py "Well"; py "that is all I have to say for now"; strip []]
  /\ ~ Forall (fun c => strip c <> [])
        (split_text_into_chunks trailing_comma 20).
Proof.
  split; [vm_compute; discriminate|].
  split; [vm_compute; reflexivity|].
  intros H. rewrite Forall_forall in H.
  apply (H []); [vm_compute; tauto | reflexivity].
Qed.

(** What the code does on a short sentence, a sentence over the limit
    and a short sentence again: the running chunk is flushed before the
    long sentence is split but not emptied, so the first sentence comes
    back in the last chunk, after the comma parts. *)
Lemma split_text_stale_chunk_repeated :
  split_text_into_chunks short_long_short 10
  = [py "Hi."; py "AAAAAAAAAAAA"; py "b."; py "Hi. Yo."]
  /\ letters (concat (split_text_into_chunks short_long_short 10))
     <> letters short_long_short.
Proof. split; [vm_compute; reflexivity | vm_compute; discriminate]. Qed.

(** C3, amended.  For a text that is not blank, every returned chunk has
    no white space at either end, and a chunk is empty only as a stripped
    comma part of a sentence longer than the limit.  When no sentence is
    longer than the limit, no chunk is empty.  When the sentences longer
    than the limit all come before those that fit, the chunks follow the
    text from left to right: they are the comma parts of the long
    sentences, then groups of the sentences that fit, and put end to end
    they spell the text, white space and commas apart.  (The order of
    the chunks when a sentence over the limit comes after one that fits
    is left open.) *)
Theorem split_text_chunks_trimmed_and_ordered (T : str) (L : Z) :
  strip T <> [] ->
  Forall (chunk_ok L (sentences T)) (split_text_into_chunks T L)
  /\ (Forall (fun s => len s <= L) (sentences T) ->
      Forall (fun c => c <> []) (split_text_into_chunks T L))
  /\ (forall longs shorts,
        sentences T = longs ++ shorts ->
        Forall (fun s => L < len s) longs ->
        Forall (fun s => len s <= L) shorts ->
        letters (concat (split_text_into_chunks T L)) = letters T
        /\ exists groups,
            Forall (fun g => g <> []) groups
            /\ concat groups = shorts
            /\ split_text_into_chunks T L
               = flat_map comma_parts longs ++ map (join [SPACE]) groups).
Proof.
  intros Hne.
  rewrite (split_of_loop_cons T L (loop_chunks_live T L Hne)).
  pose proof (loop_chunks_ok T L Hne) as Hok.
  split; [exact Hok|]. split.
  - intros Hfit. rewrite Forall_forall in *. intros c Hc.
    destruct (Hok c Hc) as [_ [H|(s & Hin & Hlong & _)]]; [exact H|].
    specialize (Hfit s Hin). simpl in Hfit. lia.
  - intros longs shorts Hs Hlong Hfit.
    destruct (loop_chunks_parts_then_groups T L longs shorts Hne Hs
                Hlong Hfit) as (gs & Hgs & Hcat & Hl).
    split; [|now exists gs].
    rewrite <- (letters_sentences T), Hs.
    now rewrite Hl, !concat_app, !letters_app, letters_flat_comma_parts,
      letters_groups, Hcat.
Qed.

Lemma split_text_chunks_trimmed_and_ordered_witness :
  Forall (chunk_ok 15 (sentences hello)) (split_text_into_chunks hello 15)
  /\ Forall (fun c => c <> []) (split_text_into_chunks hello 15)
  /\ letters (concat (split_text_into_chunks long_then_short 12))
     = letters long_then_short.
Proof.
  assert (Hne : strip hello <> []) by (vm_compute; discriminate).
  destruct (split_text_chunks_trimmed_and_ordered hello 15 Hne)
    as (H1 & H2 & _).
  split; [exact H1|]. split.
  - apply H2.
    change (sentences hello) with [py "Hello world."; py "This is a test."].
    repeat constructor; vm_compute; discriminate.
  - assert (Hne2 : strip long_then_short <> [])
      by (vm_compute; discriminate).
    destruct (split_text_chunks_trimmed_and_ordered long_then_short 12 Hne2)
      as (_ & _ & H3).
    apply (H3 [py "One, two, three, four, five, six."]
              [py "Yes."; py "No."]).
    + reflexivity.
    + repeat constructor.
    + repeat constructor; vm_compute; discriminate.
Defined.

(** C4, as stated, fails: for a text of two spaces the loop produces no
    chunk and the function returns the text as it is, not trimmed. *)
Lemma split_text_fallback_not_trimmed :
  loop_chunks (py "  ") 200 = []
  /\ split_text_into_chunks (py "  ") 200 = [py "  "]
  /\ split_text_into_chunks (py "  ") 200 <> [strip (py "  ")].
Proof.
  split; [reflexivity|]. split; [reflexivity|]. vm_compute. discriminate.
Qed.

(** C4, amended.  If the loop produces no chunk, the function returns the
    one-element list of the original text, not trimmed.  For a limit
    that is not negative the loop produces no chunk exactly when the text
    is empty or all white space.  In particular the empty text at limit
    200 gives the list of the empty string. *)
Theorem split_text_fallback_returns_text (T : str) (L : Z) :
  (loop_chunks T L = [] -> split_text_into_chunks T L = [T])
  /\ (0 <= L -> (loop_chunks T L = [] <-> strip T = []))
  /\ split_text_into_chunks (py "") 200 = [py ""].
Proof.
  split; [apply split_of_loop_nil|]. split; [|reflexivity].
  intros HL. split.
  - intros H. destruct (strip T) as [|c r] eqn:E; [reflexivity|].
    exfalso. apply (loop_chunks_live T L); [rewrite E; discriminate | exact H].
  - now apply loop_chunks_blank.
Qed.

Lemma split_text_fallback_returns_text_witness :
  split_text_into_chunks (py "  ") 200 = [py "  "]
  /\ (loop_chunks (py "  ") 200 = [] <-> strip (py "  ") = []).
Proof.
  destruct (split_text_fallback_returns_text (py "  ") 200) as (H1 & H2 & _).
  split.
  - apply H1. reflexivity.
  - apply H2. lia.
Defined.

(** C5.  A sentence longer than the limit is split at its commas (a comma
    and the white space after it), and its parts, each stripped, are
    appended one after the other as chunks of their own, whatever their
    length: they stand side by side in the returned list.  The example
    of the specification returns exactly its two parts, the first of
    which is still over the limit. *)
Theorem split_text_long_sentence_by_commas (T : str) (L : Z) :
  (forall before s after,
      sentences T = before ++ s :: after -> L < len s ->
      exists cs1 cs2,
        split_text_into_chunks T L
        = cs1 ++ map strip (Re.split_commas s) ++ cs2)
  /\ split_text_into_chunks long_sentence 20
     = [py "A very long sentence with no punctuation that exceeds the limit by itself";
        py "truly"]
  /\ 20 < len (py "A very long sentence with no punctuation that exceeds the limit by itself").
Proof.
  split; [|split; [vm_compute; reflexivity | reflexivity]].
  intros before s after Hs Hlong.
  assert (El : exists cs1 cs2,
             loop_chunks T L = cs1 ++ map strip (Re.split_commas s) ++ cs2).
  { unfold loop_chunks. fold (run L (sentences T) init).
    rewrite Hs, run_app. simpl.
    set (st0 := run L before init).
    destruct (run_extends L after (step L st0 s)) as [x Hx].
    destruct (flush_extends (chunks (run L after (step L st0 s)))
                (current_chunk (run L after (step L st0 s)))) as [y Hy].
    rewrite Hy, Hx, (step_split L st0 s Hlong). simpl.
    exists (flush (chunks st0) (current_chunk st0)), (x ++ y).
    now rewrite <- !app_assoc. }
  destruct El as (cs1 & cs2 & El).
  exists cs1, cs2. rewrite split_of_loop_cons; [exact El|].
  rewrite El. intros K. apply app_eq_nil in K. destruct K as [_ K].
  apply app_eq_nil in K. destruct K as [K _].
  apply map_eq_nil in K. now apply split_commas_from_nonempty in K.
Qed.

Lemma split_text_long_sentence_by_commas_witness :
  exists cs1 cs2,
    split_text_into_chunks long_sentence 20
    = cs1 ++ map strip (Re.split_commas long_sentence) ++ cs2.
Proof.
  destruct (split_text_long_sentence_by_commas long_sentence 20) as [H _].
  apply (H [] long_sentence []).
  - reflexivity.
  - vm_compute. reflexivity.
Defined.

(* ================================================================== *)
(** * Audio assembly: the silence between the segments *)
(* ================================================================== *)

Section AssemblyFacts.

Import Audio Server.

Variable silence : waveform.

Lemma len_cons {A : Type} (x : A) (l : list A) : len (x :: l) = 1 + len l.
Proof. unfold len. simpl List.length. lia. Qed.

Lemma len_app {A : Type} (a b : list A) : len (a ++ b) = len a + len b.
Proof. unfold len. rewrite length_app. lia. Qed.

Lemma len_repeat_zero (k : Z) :
  0 <= k -> len (repeat zero (Z.to_nat k)) = k.
Proof. intros H. unfold len. rewrite repeat_length. lia. Qed.

(** Rounding keeps the sign it is given. *)
Lemma binary_round_aux_sign (mx ex : Z) (lx : location) :
  not_negative (binary_round_aux prec emax false mx ex lx).
Proof.
  unfold binary_round_aux.
  destruct (shr_fexp prec emax mx ex lx) as [m1 e1].
  destruct (shr_fexp prec emax _ e1 loc_Exact) as [m2 e2].
  destruct (shr_m m2); try exact I.
  destruct (e2 <=? emax - prec); [reflexivity | exact I].
Qed.

Lemma float_of_int_sign (n : Z) : 0 <= n -> not_negative (float_of_int n).
Proof.
  intros H. unfold float_of_int, binary_normalize.
  destruct n as [|p|p]; [exact I | | lia].
  unfold binary_round. destruct (shl_align p 0 _) as [mz ez].
  apply binary_round_aux_sign.
Qed.

Lemma mul_point_two_sign (f : spec_float) :
  not_negative f -> not_negative (SFmul prec emax point_two f).
Proof.
  destruct f as [s| s | |s m e]; intros H; try exact I.
  simpl in H. subst s. unfold SFmul, point_two. simpl xorb.
  apply binary_round_aux_sign.
Qed.

Lemma int_of_float_nonneg (f : spec_float) (k : Z) :
  not_negative f -> int_of_float f = Some k -> 0 <= k.
Proof.
  destruct f as [s| s | |s m e]; unfold int_of_float, not_negative;
    intros H E; try discriminate.
  - inversion E. lia.
  - subst s. unfold cond_Zopp in E. injection E as <-.
    destruct (0 <=? e) eqn:He.
    + apply Z.leb_le in He. change (0 <= Z.pos m * 2 ^ e).
      apply Z.mul_nonneg_nonneg; [lia | now apply Z.pow_nonneg].
    + apply Z.leb_gt in He. change (0 <= Z.pos m / 2 ^ (- e)).
      apply Z.div_pos; [lia | apply Z.pow_pos_nonneg; lia].
Qed.

(** At a sample rate that is not negative the silence has a size that is
    not negative. *)
Lemma silence_samples_nonneg (sample_rate k : Z) :
  0 <= sample_rate -> silence_samples sample_rate = Some k -> 0 <= k.
Proof.
  intros H. unfold silence_samples. apply int_of_float_nonneg.
  now apply mul_point_two_sign, float_of_int_sign.
Qed.

Lemma interleave_from_cons (seg : waveform) (rest : list waveform)
      (i n : Z) (combined : list waveform) :
  interleave_from i n (seg :: rest) silence combined
  = interleave_from (i + 1) n rest silence
      (if i <? n - 1 then (combined ++ [seg]) ++ [silence]
       else combined ++ [seg]).
Proof. reflexivity. Qed.

(** The loop over [enumerate(audio_segments)] appends the segments with
    the silence between each two neighbours. *)
Lemma interleave_from_between (rest : list waveform) :
  forall (seg : waveform) (i n : Z) (combined : list waveform),
    i + len (seg :: rest) = n ->
    interleave_from i n (seg :: rest) silence combined
    = combined ++ between silence (seg :: rest).
Proof.
  induction rest as [|seg2 rest IH]; intros seg i n combined Hn.
  - simpl. rewrite len_cons in Hn. change (len (@nil waveform)) with 0 in Hn.
    destruct (Z.ltb_spec i (n - 1)); [lia | reflexivity].
  - rewrite interleave_from_cons. rewrite !len_cons in Hn.
    pose proof (len_nonneg rest).
    destruct (Z.ltb_spec i (n - 1)); [|lia].
    rewrite IH by (rewrite len_cons; lia).
    simpl. rewrite <- !app_assoc. reflexivity.
Qed.

Lemma interleave_between (segs : list waveform) :
  interleave segs silence = between silence segs.
Proof.
  destruct segs as [|seg rest]; [reflexivity|].
  unfold interleave. now rewrite interleave_from_between.
Qed.

Lemma len_concat_silenced (rest : list waveform) :
  len (concat (flat_map (fun seg => [silence; seg]) rest))
  = total_samples rest + len rest * len silence.
Proof.
  induction rest as [|x rest IH]; [reflexivity|].
  simpl flat_map. simpl concat. simpl total_samples.
  rewrite !len_app, IH, len_cons. lia.
Qed.

Lemma len_concat_between (seg : waveform) (rest : list waveform) :
  len (concat (between silence (seg :: rest)))
  = total_samples (seg :: rest) + len rest * len silence.
Proof.
  simpl between. simpl concat. simpl total_samples.
  rewrite len_app, len_concat_silenced. lia.
Qed.

End AssemblyFacts.

(** C6.  For a non-empty list of [n] segments and a sample rate [sr] that
    is not negative, with [k] the value of [int(0.2 * sr)], the assembly
    succeeds and the waveform is the first segment followed, for each
    later segment, by [k] zero samples and that segment: silence between
    each two neighbours, none before the first segment and none after
    the last.  Its length is the sum of the lengths of the segments plus
    [(n - 1) * k].  At a sample rate of 16000 the size is 3200 and two
    segments give [len a + 3200 + len b] samples. *)
Theorem assemble_inserts_silence (segs : list Audio.waveform)
        (sample_rate k : Z) :
  (segs <> [] -> 0 <= sample_rate ->
   Audio.silence_samples sample_rate = Some k ->
   exists w,
     Server.assemble sample_rate segs = (Server.Ok w, [])
     /\ w = concat (Audio.between (repeat Audio.zero (Z.to_nat k)) segs)
     /\ len w = Audio.total_samples segs + (len segs - 1) * k)
  /\ Audio.silence_samples 16000 = Some 3200
  /\ (forall a b, exists w,
        Server.assemble 16000 [a; b] = (Server.Ok w, [])
        /\ len w = len a + 3200 + len b).
Proof.
  assert (G : forall segs sr k,
             segs <> [] -> 0 <= sr -> Audio.silence_samples sr = Some k ->
             exists w,
               Server.assemble sr segs = (Server.Ok w, [])
               /\ w = concat
                        (Audio.between (repeat Audio.zero (Z.to_nat k)) segs)
               /\ len w = Audio.total_samples segs + (len segs - 1) * k).
  { clear. intros segs sr k Hne Hsr Hk.
    pose proof (silence_samples_nonneg sr k Hsr Hk) as Hpos.
    destruct segs as [|seg rest]; [congruence|].
    exists (concat (Audio.between (repeat Audio.zero (Z.to_nat k))
                      (seg :: rest))).
    split; [|split; [reflexivity|]].
    - unfold Server.assemble. rewrite Hk. unfold Audio.torch_zeros.
      assert (E : (k <? 0) = false) by (apply Z.ltb_ge; lia).
      cbn [Server.of_option Server.ret Server.bind app]. rewrite E.
      cbn [Server.of_option Server.ret Server.bind app].
      unfold Audio.torch_cat. now rewrite interleave_between.
    - rewrite len_concat_between, len_repeat_zero by exact Hpos.
      rewrite len_cons. lia. }
  split; [apply G|]. split; [vm_compute; reflexivity|].
  intros a b.
  destruct (G [a; b] 16000 3200) as (w & Hw & _ & Hl).
  - discriminate.
  - lia.
  - vm_compute. reflexivity.
  - exists w. split; [exact Hw|]. rewrite Hl.
    unfold Audio.total_samples. simpl fold_right.
    change (len [a; b]) with 2. lia.
Qed.

Lemma assemble_inserts_silence_witness :
  exists w,
    Server.assemble 24000 [[Audio.zero]; [Audio.zero; Audio.zero]]
    = (Server.Ok w, [])
    /\ w = concat (Audio.between (repeat Audio.zero (Z.to_nat 4800))
                     [[Audio.zero]; [Audio.zero; Audio.zero]])
    /\ len w
       = Audio.total_samples [[Audio.zero]; [Audio.zero; Audio.zero]]
         + (len [[Audio.zero]; [Audio.zero; Audio.zero]] - 1) * 4800.
Proof.
  destruct (assemble_inserts_silence
              [[Audio.zero]; [Audio.zero; Audio.zero]] 24000 4800)
    as [H _].
  apply H.
  - discriminate.
  - lia.
  - vm_compute. reflexivity.
Defined.

(* ================================================================== *)
(** * The server: loading and the handlers *)
(* ================================================================== *)

Section ServerFacts.

Import Audio Server.

Lemma filter_none {A : Type} (f : A -> bool) (l : list A) :
  Forall (fun x => f x = false) l -> filter f l = [].
Proof.
  induction 1 as [|x l Hx _ IH]; [reflexivity|]. simpl. now rewrite Hx.
Qed.

Lemma Forall_weaken {A : Type} (P Q : A -> Prop) (l : list A) :
  (forall x, P x -> Q x) -> Forall P l -> Forall Q l.
Proof. intros H HP. eapply Forall_impl; eauto. Qed.

(** ** The monad *)

Lemma bind_ok_inv {A B : Type} (c : M A) (k : A -> M B) (b : B)
      (tr : list event) :
  bind c k = (Ok b, tr) ->
  exists a t1 t2, c = (Ok a, t1) /\ k a = (Ok b, t2) /\ tr = t1 ++ t2.
Proof.
  unfold bind. destruct c as [[a|e] t1]; [|discriminate].
  destruct (k a) as [r t2] eqn:E. intros H. inversion H; subst.
  now exists a, t1, t2.
Qed.

Lemma bind_trace_Forall {A B : Type} (P : event -> Prop) (c : M A)
      (k : A -> M B) :
  Forall P (snd c) -> (forall a, Forall P (snd (k a))) ->
  Forall P (snd (bind c k)).
Proof.
  unfold bind. destruct c as [[a|e] t1]; simpl; intros H1 H2; [|exact H1].
  specialize (H2 a). destruct (k a) as [r t2]. simpl in *.
  apply Forall_app. now split.
Qed.

(** ** load_model *)

(** A call of [load_model] with the model present does nothing. *)
Lemma load_model_loaded (w : world) (g : globals) :
  tts g <> None -> load_model w g = (Ok tt, g, []).
Proof. unfold load_model. destruct (tts g); [reflexivity | congruence]. Qed.

Lemma ensure_loaded_loaded (w : world) (g : globals) :
  tts g <> None -> ensure_loaded w g = (Ok tt, g, []).
Proof. unfold ensure_loaded. destruct (tts g); [reflexivity | congruence]. Qed.

Lemma ensure_loaded_unloaded (w : world) (g : globals) :
  tts g = None -> ensure_loaded w g = load_model w g.
Proof. unfold ensure_loaded. now intros ->. Qed.

(** What a call of [load_model] can do when the model is absent: fail and
    leave it absent, or succeed with exactly one successful
    [from_pretrained]. *)
Lemma load_model_unloaded (w : world) (g : globals) :
  tts g = None ->
  (exists e g' t, load_model w g = (Raise e, g', t) /\ tts g' = None
                  /\ successful_loads t = 0%nat)
  \/ (exists g' t, load_model w g = (Ok tt, g', t) /\ tts g' <> None
                   /\ successful_loads t = 1%nat).
Proof.
  intros H. unfold load_model. rewrite H.
  destruct (load_imports w) as [[]|e].
  - destruct (from_pretrained w (if mps_available w then MPS else CPU))
      as [m|e] eqn:E.
    + right. eexists _, _. split; [reflexivity|]. simpl. split; [discriminate|].
      reflexivity.
    + left. eexists _, _, _. split; [reflexivity|]. simpl. now split.
  - left. eexists _, _, _. split; [reflexivity|]. now split.
Qed.

Lemma load_model_events (w : world) (g : globals) :
  Forall (fun e => is_load_event e = true) (snd (load_model w g)).
Proof.
  unfold load_model. destruct (tts g); [constructor|].
  destruct (load_imports w) as [[]|e]; [|repeat constructor].
  destruct (from_pretrained w _); repeat constructor.
Qed.

Lemma ensure_loaded_events (w : world) (g : globals) :
  Forall (fun e => is_load_event e = true) (snd (ensure_loaded w g)).
Proof.
  unfold ensure_loaded. destruct (tts g); [constructor|].
  apply load_model_events.
Qed.

Lemma load_event_not_request (e : event) :
  is_load_event e = true ->
  is_generate e = false /\ is_save e = false.
Proof. destruct e; simpl; intros H; try discriminate; now split. Qed.

Lemma request_event_not_load (e : event) :
  is_request_event e = true ->
  is_load_event e = false /\ is_successful_load e = false.
Proof. destruct e; simpl; intros H; try discriminate; now split. Qed.

(** ** The [try] of /speak *)

Lemma generate_segments_blank (w : world) (t : option model)
      (chunks : list str) :
  Forall (fun c => strip c = []) chunks ->
  forall acc, generate_segments w t chunks acc = (Ok acc, []).
Proof.
  induction 1 as [|c chunks Hc _ IH]; intros acc; simpl; [reflexivity|].
  unfold nonblank. rewrite Hc. simpl. apply IH.
Qed.

(** When the loop ends normally it has called [generate] once for each
    chunk that is not blank, in order, and has one segment for each. *)
Lemma generate_segments_ok (w : world) (t : option model)
      (chunks : list str) :
  forall acc segs tr,
    generate_segments w t chunks acc = (Ok segs, tr) ->
    tr = map EvGenerate (filter nonblank chunks)
    /\ len segs = len acc + len (filter nonblank chunks).
Proof.
  induction chunks as [|c chunks IH]; intros acc segs tr H; simpl in *.
  - inversion H; subst. change (len (@nil str)) with 0. split; [easy | lia].
  - destruct (nonblank c).
    + apply bind_ok_inv in H. destruct H as (wav & t1 & t2 & H1 & H2 & ->).
      destruct (IH _ _ _ H2) as [-> Hl].
      unfold tts_generate in H1. destruct t as [m|]; [|discriminate].
      inversion H1; subst. split; [reflexivity|].
      rewrite Hl, len_app, !len_cons. change (len (@nil waveform)) with 0.
      lia.
    + now apply IH.
Qed.

Lemma generate_segments_events (w : world) (t : option model)
      (chunks : list str) :
  forall acc,
    Forall (fun e => is_request_event e = true)
           (snd (generate_segments w t chunks acc)).
Proof.
  induction chunks as [|c chunks IH]; intros acc; simpl; [constructor|].
  destruct (nonblank c); [|apply IH].
  apply bind_trace_Forall; [|intros a; apply IH].
  unfold tts_generate. destruct t; simpl; repeat constructor.
Qed.

Lemma assemble_silent (sample_rate : Z) (segs : list waveform) :
  snd (assemble sample_rate segs) = [].
Proof.
  unfold assemble. destruct (silence_samples sample_rate) as [k|];
    [|reflexivity].
  simpl. destruct (torch_zeros k); reflexivity.
Qed.

Lemma speak_try_events (w : world) (t : option model) (txt : str)
      (max_chunk : Z) :
  Forall (fun e => is_request_event e = true)
         (snd (speak_try w t txt max_chunk)).
Proof.
  unfold speak_try.
  apply bind_trace_Forall; [constructor|]. intros _.
  apply bind_trace_Forall; [apply generate_segments_events|]. intros segs.
  destruct (negb (truthy segs)); [constructor|].
  apply bind_trace_Forall; [destruct t; constructor|]. intros rate.
  apply bind_trace_Forall; [rewrite assemble_silent; constructor|].
  intros audio.
  apply bind_trace_Forall; [constructor|]. intros name.
  apply bind_trace_Forall; [repeat constructor|]. intros _.
  apply bind_trace_Forall; [destruct t; constructor|]. intros rate'.
  apply bind_trace_Forall; [repeat constructor|]. intros _.
  apply bind_trace_Forall; [constructor|]. intros _.
  apply bind_trace_Forall; [destruct t; constructor|]. intros rate''.
  constructor.
Qed.

Lemma speak_guarded_events (w : world) (t : option model) (txt : str)
      (max_chunk : Z) :
  Forall (fun e => is_request_event e = true)
         (snd (speak_guarded w t txt max_chunk)).
Proof.
  unfold speak_guarded.
  pose proof (speak_try_events w t txt max_chunk) as H.
  destruct (speak_try w t txt max_chunk) as [[r|e] tr]; simpl in *;
    [exact H|].
  apply Forall_app. split; [exact H | repeat constructor].
Qed.

(** A successful answer of the [try]: its [chunks] field is the number of
    chunks of the chunker, and [generate] was called once for each chunk
    that is not blank. *)
Lemma speak_try_success (w : world) (t : option model) (txt : str)
      (max_chunk : Z) (path : str) (rate n : Z) (tr : list event) :
  speak_try w t txt max_chunk = (Ok (Reply 200 (BSpeak path rate n)), tr) ->
  n = len (split_text_into_chunks txt max_chunk)
  /\ filter is_generate tr
     = map EvGenerate
         (filter nonblank (split_text_into_chunks txt max_chunk)).
Proof.
  unfold speak_try. intros H.
  apply bind_ok_inv in H. destruct H as (u & t1 & t2 & H1 & H & ->).
  unfold lift in H1. inversion H1; subst. clear H1.
  apply bind_ok_inv in H. destruct H as (segs & t3 & t4 & H3 & H & ->).
  apply generate_segments_ok in H3. destruct H3 as [-> _].
  destruct (negb (truthy segs)); [discriminate|].
  apply bind_ok_inv in H. destruct H as (r1 & t5 & t6 & H5 & H & ->).
  assert (Et5 : t5 = []) by (destruct t; inversion H5; reflexivity).
  apply bind_ok_inv in H. destruct H as (audio & t7 & t8 & H7 & H & ->).
  assert (Et7 : t7 = []).
  { pose proof (assemble_silent r1 segs) as K. now rewrite H7 in K. }
  apply bind_ok_inv in H. destruct H as (name & t9 & t10 & H9 & H & ->).
  unfold lift in H9. inversion H9; subst t9. clear H9.
  apply bind_ok_inv in H. destruct H as (u0 & ta & tb & Ha & H & ->).
  unfold emit in Ha. inversion Ha; subst ta. clear Ha.
  apply bind_ok_inv in H. destruct H as (r3 & tc & td & Hc & H & ->).
  assert (Etc : tc = []) by (destruct t; inversion Hc; reflexivity).
  apply bind_ok_inv in H. destruct H as (u1 & t11 & t12 & H11 & H & ->).
  unfold emit in H11. inversion H11; subst t11. clear H11.
  apply bind_ok_inv in H. destruct H as (u2 & t13 & t14 & H13 & H & ->).
  unfold lift in H13. inversion H13; subst t13. clear H13.
  apply bind_ok_inv in H. destruct H as (r2 & t15 & t16 & H15 & H & ->).
  assert (Et15 : t15 = []) by (destruct t; inversion H15; reflexivity).
  unfold ret in H. inversion H; subst. split; [reflexivity|].
  simpl. rewrite !filter_app. simpl. rewrite !app_nil_r.
  induction (filter nonblank (split_text_into_chunks txt max_chunk))
    as [|c l IH]; [reflexivity|]. simpl. now rewrite IH.
Qed.

(** [write_pid_file] writes the file once or raises before it is
    written. *)
Lemma write_pid_file_cases (s : startup) :
  write_pid_file s = (Ok tt, [EvWritePid])
  \/ exists e, write_pid_file s = (Raise e, []).
Proof.
  unfold write_pid_file.
  destruct (pid_mkdir s) as [[]|e]; [|right; now exists e].
  destruct (pid_write_text s) as [[]|e]; [now left | right; now exists e].
Qed.

(** ** /speak, by the outcome of the load *)

Lemma speak_unfold (w : world) (req : speak_request) (g : globals) :
  speak w req g
  = match ensure_loaded w g with
    | (Raise e, g1, t1) => mkOutcome (Unhandled e) g1 t1
    | (Ok _, g1, t1) =>
        if negb (truthy (text_of req)) then
          mkOutcome (Reply 400 (BError (Text (py "No text provided")))) g1 t1
        else
          mkOutcome (fst (speak_guarded w (tts g1) (text_of req)
                            (max_chunk_size_of req)))
                    g1
                    (t1 ++ snd (speak_guarded w (tts g1) (text_of req)
                                  (max_chunk_size_of req)))
    end.
Proof.
  unfold speak. destruct (ensure_loaded w g) as [[[u|e] g1] t1];
    [|reflexivity].
  destruct (negb (truthy (text_of req))); [reflexivity|].
  now destruct (speak_guarded w (tts g1) (text_of req)
                  (max_chunk_size_of req)).
Qed.

Lemma speak_globals (w : world) (req : speak_request) (g : globals) :
  globals_after (speak w req g) = snd (fst (ensure_loaded w g)).
Proof.
  rewrite speak_unfold.
  destruct (ensure_loaded w g) as [[[u|e] g1] t1]; [|reflexivity].
  now destruct (negb (truthy (text_of req))).
Qed.

(** The trace of [/speak]: the events of the load, then those of the
    [try]. *)
Lemma speak_trace (w : world) (req : speak_request) (g : globals) :
  exists t2,
    trace (speak w req g) = snd (ensure_loaded w g) ++ t2
    /\ Forall (fun e => is_request_event e = true) t2.
Proof.
  rewrite speak_unfold.
  destruct (ensure_loaded w g) as [[[u|e] g1] t1]; simpl.
  - destruct (negb (truthy (text_of req))); simpl.
    + exists []. rewrite app_nil_r. split; [reflexivity | constructor].
    + eexists. split; [reflexivity | apply speak_guarded_events].
  - exists []. rewrite app_nil_r. split; [reflexivity | constructor].
Qed.

(** ** Calls in the LOADED state *)

Lemma exec_loaded (w : world) (c : call) (g : globals) :
  tts g <> None ->
  fst (exec w c g) = g
  /\ Forall (fun e => is_load_event e = false) (snd (exec w c g)).
Proof.
  intros H. destruct c as [| |req|]; simpl.
  - rewrite (load_model_loaded w g H). simpl. split; [reflexivity|constructor].
  - split; [reflexivity | constructor].
  - rewrite speak_globals.
    destruct (speak_trace w req g) as (t2 & -> & Ht2).
    rewrite (ensure_loaded_loaded w g H). simpl. split; [reflexivity|].
    eapply Forall_weaken; [|exact Ht2].
    intros e He. now apply request_event_not_load.
  - split; [reflexivity | repeat constructor].
Qed.

Lemma exec_all_loaded (cs : list (world * call)) :
  forall g, tts g <> None ->
    fst (exec_all cs g) = g
    /\ Forall (fun e => is_load_event e = false) (snd (exec_all cs g)).
Proof.
  induction cs as [|[w c] cs IH]; intros g H; simpl.
  - split; [reflexivity | constructor].
  - destruct (exec_loaded w c g H) as [Hg Ht].
    destruct (exec w c g) as [g1 t1]. simpl in Hg, Ht. subst g1.
    destruct (IH g H) as [Hg2 Ht2].
    destruct (exec_all cs g) as [g2 t2]. simpl in Hg2, Ht2.
    destruct c; simpl; (split; [assumption || reflexivity|]);
      try (apply Forall_app; now split); assumption.
Qed.

(** ** Counting the successful loads *)

Lemma successful_loads_app (a b : list event) :
  successful_loads (a ++ b) = (successful_loads a + successful_loads b)%nat.
Proof. unfold successful_loads. now rewrite filter_app, length_app. Qed.

Lemma successful_loads_none (t : list event) :
  Forall (fun e => is_load_event e = false) t -> successful_loads t = 0%nat.
Proof.
  intros H. unfold successful_loads. rewrite filter_none; [reflexivity|].
  eapply Forall_weaken; [|exact H].
  intros e He. destruct e; simpl in *; try reflexivity; discriminate.
Qed.

Lemma successful_loads_request (t : list event) :
  Forall (fun e => is_request_event e = true) t ->
  successful_loads t = 0%nat.
Proof.
  intros H. apply successful_loads_none.
  eapply Forall_weaken; [|exact H].
  intros e He. now apply request_event_not_load.
Qed.

(** A call in the UNLOADED state leaves the model absent without a
    successful load, or makes it present with exactly one. *)
Lemma exec_unloaded (w : world) (c : call) (g : globals) :
  tts g = None ->
  (tts (fst (exec w c g)) = None
   /\ successful_loads (snd (exec w c g)) = 0%nat)
  \/ (tts (fst (exec w c g)) <> None
      /\ successful_loads (snd (exec w c g)) = 1%nat).
Proof.
  intros H. destruct c as [| |req|]; simpl.
  - destruct (load_model_unloaded w g H)
      as [(e & g' & t & E & H1 & H2)|(g' & t & E & H1 & H2)];
      rewrite E; simpl; [left | right]; now split.
  - left. now split.
  - rewrite speak_globals.
    destruct (speak_trace w req g) as (t2 & -> & Ht2).
    rewrite successful_loads_app, (successful_loads_request t2 Ht2).
    rewrite (ensure_loaded_unloaded w g H).
    destruct (load_model_unloaded w g H)
      as [(e & g' & t & E & H1 & H2)|(g' & t & E & H1 & H2)];
      rewrite E; simpl; [left | right]; split; try assumption; lia.
  - left. now split.
Qed.

Lemma exec_all_loads (cs : list (world * call)) :
  forall g,
    (successful_loads (snd (exec_all cs g))
     <= match tts g with Some _ => 0 | None => 1 end)%nat.
Proof.
  induction cs as [|[w c] cs IH]; intros g; simpl.
  - destruct (tts g); unfold successful_loads; simpl; lia.
  - destruct (tts g) as [m|] eqn:Hg.
    + assert (Hl : tts g <> None) by congruence.
      pose proof (proj2 (exec_all_loaded ((w, c) :: cs) g Hl)) as H.
      apply successful_loads_none in H. simpl in H. rewrite H. lia.
    + pose proof (exec_unloaded w c g Hg) as H.
      destruct (exec w c g) as [g1 t1]. simpl in H.
      specialize (IH g1).
      destruct (exec_all cs g1) as [g2 t2]. simpl in IH.
      assert (K : (successful_loads (t1 ++ t2) <= 1)%nat).
      { rewrite successful_loads_app.
        destruct H as [[H1 H2]|[H1 H2]].
        - rewrite H1 in IH. lia.
        - destruct (tts g1); [lia | congruence]. }
      destruct c; simpl; try exact K.
      destruct H as [[_ H2]|[_ H2]]; lia.
Qed.

Lemma len_filter_le {A : Type} (f : A -> bool) (l : list A) :
  len (filter f l) <= len l.
Proof.
  induction l as [|x l IH]; simpl; [lia|].
  destruct (f x); rewrite ?len_cons; lia.
Qed.

Lemma generated_app (a b : list event) :
  generated (a ++ b) = generated a + generated b.
Proof. unfold generated. rewrite filter_app, length_app. lia. Qed.

Lemma generated_load (t : list event) :
  Forall (fun e => is_load_event e = true) t -> generated t = 0.
Proof.
  intros H. unfold generated. rewrite filter_none; [reflexivity|].
  eapply Forall_weaken; [|exact H].
  intros e He. now apply load_event_not_request.
Qed.

Lemma saves_none_load (t : list event) :
  Forall (fun e => is_load_event e = true) t -> filter is_save t = [].
Proof.
  intros H. apply filter_none. eapply Forall_weaken; [|exact H].
  intros e He. now apply load_event_not_request.
Qed.

End ServerFacts.

(** C2, as stated, fails: an empty text sent to a server whose model is
    not loaded yet is answered 400, but only after the model has been
    loaded, and the globals are no longer those of the start. *)
Lemma speak_empty_text_loads_model :
  Server.text_of (Server.mkSpeak (Some (py "")) None) = []
  /\ Server.response
       (Server.speak Server.sunny (Server.mkSpeak (Some (py "")) None)
          Server.boot)
     = Server.Reply 400
         (Server.BError (Server.Text (py "No text provided")))
  /\ Server.trace
       (Server.speak Server.sunny (Server.mkSpeak (Some (py "")) None)
          Server.boot)
     = [Server.EvPrintLoading;
        Server.EvFromPretrained Server.CPU
          (Server.Ok (Server.mkModel Server.CPU 24000));
        Server.EvPrintLoaded Server.CPU]
  /\ Server.globals_after
       (Server.speak Server.sunny (Server.mkSpeak (Some (py "")) None)
          Server.boot)
     <> Server.boot.
Proof. repeat split; try reflexivity. vm_compute. discriminate. Qed.

(** C2, amended.  For a request whose text is empty or absent: when the
    model is loaded, [/speak] answers 400 with the error "No text
    provided", triggers no load and leaves the globals as they were;
    when the model is not loaded, [/speak] first runs [load_model], since
    the load comes before the check of the text, and it answers 400 only
    if that load succeeds, with the globals and the events of the load,
    the model being loaded from then on (if the load raises, the
    exception leaves the handler).  In both cases [generate] is never
    called and no file is written. *)
Theorem speak_empty_text_answers_400 (w : Server.world)
        (req : Server.speak_request) (g : Server.globals) :
  Server.text_of req = [] ->
  (Server.tts g <> None ->
   Server.speak w req g
   = Server.mkOutcome
       (Server.Reply 400
          (Server.BError (Server.Text (py "No text provided")))) g [])
  /\ (Server.tts g = None ->
      Server.speak w req g
      = match Server.load_model w g with
        | (Server.Ok _, g1, t1) =>
            Server.mkOutcome
              (Server.Reply 400
                 (Server.BError (Server.Text (py "No text provided"))))
              g1 t1
        | (Server.Raise e, g1, t1) =>
            Server.mkOutcome (Server.Unhandled e) g1 t1
        end)
  /\ (Server.tts g = None ->
      forall b, Server.response (Server.speak w req g) = Server.Reply 400 b ->
      Server.tts (Server.globals_after (Server.speak w req g)) <> None
      /\ Server.successful_loads (Server.trace (Server.speak w req g))
         = 1%nat)
  /\ filter Server.is_generate (Server.trace (Server.speak w req g)) = []
  /\ filter Server.is_save (Server.trace (Server.speak w req g)) = [].
Proof.
  intros Htxt.
  assert (E : Server.speak w req g
              = match Server.ensure_loaded w g with
                | (Server.Ok _, g1, t1) =>
                    Server.mkOutcome
                      (Server.Reply 400
                         (Server.BError
                            (Server.Text (py "No text provided"))))
                      g1 t1
                | (Server.Raise e, g1, t1) =>
                    Server.mkOutcome (Server.Unhandled e) g1 t1
                end).
  { rewrite speak_unfold, Htxt. simpl.
    now destruct (Server.ensure_loaded w g) as [[[u|e] g1] t1]. }
  split; [|split; [|split]].
  - intros H. rewrite E, (ensure_loaded_loaded w g H). reflexivity.
  - intros H. rewrite E, (ensure_loaded_unloaded w g H). reflexivity.
  - intros H b. rewrite E, (ensure_loaded_unloaded w g H).
    destruct (load_model_unloaded w g H)
      as [(e & g' & t & El & H1 & H2)|(g' & t & El & H1 & H2)];
      rewrite El; simpl; [discriminate | now split].
  - rewrite E. pose proof (ensure_loaded_events w g) as H.
    destruct (Server.ensure_loaded w g) as [[[u|e] g1] t1]; simpl in *;
      (split; apply filter_none; (eapply Forall_weaken; [|exact H]);
       intros x Hx; now apply load_event_not_request).
Qed.

Lemma speak_empty_text_answers_400_witness :
  Server.speak Server.sunny (Server.mkSpeak (Some (py "")) None)
    Server.loaded_cpu
  = Server.mkOutcome
      (Server.Reply 400
         (Server.BError (Server.Text (py "No text provided"))))
      Server.loaded_cpu [].
Proof.
  destruct (speak_empty_text_answers_400 Server.sunny
              (Server.mkSpeak (Some (py "")) None) Server.loaded_cpu)
    as (H & _).
  - reflexivity.
  - apply H. discriminate.
Defined.

(** C7.  When the model is loaded (or loads) and every chunk of a text
    that is not empty strips to nothing, no segment is synthesized and
    [/speak] answers 500 with an [error] field: [generate] is not called,
    no file is written, and the error is "No audio generated" once the
    imports of the [try] have succeeded. *)
Theorem speak_no_audio_is_error (w : Server.world)
        (req : Server.speak_request) (g g1 : Server.globals)
        (t1 : list Server.event) :
  Server.ensure_loaded w g = (Server.Ok tt, g1, t1) ->
  Server.text_of req <> [] ->
  Forall (fun c => strip c = [])
         (split_text_into_chunks (Server.text_of req)
            (Server.max_chunk_size_of req)) ->
  Server.globals_after (Server.speak w req g) = g1
  /\ filter Server.is_generate (Server.trace (Server.speak w req g)) = []
  /\ filter Server.is_save (Server.trace (Server.speak w req g)) = []
  /\ exists err,
      Server.response (Server.speak w req g)
      = Server.Reply 500 (Server.BError err)
      /\ (Server.speak_imports w = Server.Ok tt ->
          err = Server.Text (py "No audio generated")).
Proof.
  intros Hload Htxt Hblank.
  pose proof (ensure_loaded_events w g) as Hev.
  rewrite speak_unfold, Hload in *. simpl in Hev.
  apply truthy_true_iff in Htxt. rewrite Htxt. simpl negb. cbv iota.
  cbn [Server.globals_after Server.trace Server.response].
  unfold Server.speak_guarded, Server.speak_try.
  rewrite (generate_segments_blank w _ _ Hblank []).
  destruct (Server.speak_imports w) as [[]|e]; simpl.
  - rewrite app_nil_r.
    split; [reflexivity|]. split; [|split].
    + apply filter_none. eapply Forall_weaken; [|exact Hev].
      intros x Hx. now apply load_event_not_request.
    + now apply saves_none_load.
    + eexists. split; [reflexivity | reflexivity].
  - split; [reflexivity|]. rewrite !filter_app. simpl. rewrite !app_nil_r.
    split; [|split].
    + apply filter_none. eapply Forall_weaken; [|exact Hev].
      intros x Hx. now apply load_event_not_request.
    + now apply saves_none_load.
    + eexists. split; [reflexivity | discriminate].
Qed.

Lemma speak_no_audio_is_error_witness :
  Server.response
    (Server.speak Server.sunny (Server.mkSpeak (Some (py "  ")) None)
       Server.loaded_cpu)
  = Server.Reply 500 (Server.BError (Server.Text (py "No audio generated")))
  /\ filter Server.is_save
       (Server.trace
          (Server.speak Server.sunny (Server.mkSpeak (Some (py "  ")) None)
             Server.loaded_cpu)) = [].
Proof.
  destruct (speak_no_audio_is_error Server.sunny
              (Server.mkSpeak (Some (py "  ")) None)
              Server.loaded_cpu Server.loaded_cpu [])
    as (_ & _ & Hs & err & Hr & He).
  - reflexivity.
  - discriminate.
  - repeat constructor.
  - split; [|exact Hs]. rewrite Hr, He; reflexivity.
Defined.

(** C9.  [load_model] is guarded by the presence of the model: with the
    model present a call does nothing.  Hence, from a state in which the
    model is loaded, no sequence of calls of [load_model] and of the
    handlers changes the model or the device or reaches the loading code
    again; and in any run of the process, from the start of the module
    or through [main], at most one load succeeds. *)
Theorem model_loaded_at_most_once :
  (forall w g, Server.tts g <> None ->
               Server.load_model w g = (Server.Ok tt, g, []))
  /\ (forall cs g, Server.tts g <> None ->
         fst (Server.exec_all cs g) = g
         /\ filter Server.is_load_event (snd (Server.exec_all cs g)) = [])
  /\ (forall cs,
        (Server.successful_loads (snd (Server.exec_all cs Server.boot))
         <= 1)%nat)
  /\ (forall s w0 cs,
        (Server.successful_loads (snd (Server.main s w0 cs)) <= 1)%nat).
Proof.
  split; [exact load_model_loaded|]. split; [|split].
  - intros cs g H. destruct (exec_all_loaded cs g H) as [H1 H2].
    split; [exact H1 | now apply filter_none].
  - intros cs. apply (exec_all_loads cs Server.boot).
  - intros s w0 cs. unfold Server.main.
    destruct (Server.port_of s) as [port|e0];
      [|unfold Server.successful_loads; simpl; lia].
    destruct (load_model_unloaded w0 Server.boot eq_refl)
      as [(e & g' & t & E & H1 & H2)|(g' & t & E & H1 & H2)]; rewrite E.
    + simpl. lia.
    + destruct (write_pid_file_cases s) as [Ew|[e Ew]]; rewrite Ew.
      * destruct (Server.listen s port) as [[]|e].
        -- destruct (exec_all_loaded cs g' H1) as [_ H3].
           apply successful_loads_none in H3.
           destruct (Server.exec_all cs g') as [g2 t2]. simpl in *.
           rewrite successful_loads_app, H2.
           change (Server.successful_loads
                     (Server.EvWritePid :: Server.EvPrintRunning port :: t2))
             with (Server.successful_loads t2).
           rewrite H3. lia.
        -- simpl snd. rewrite successful_loads_app, H2.
           change (Server.successful_loads
                     [Server.EvWritePid; Server.EvPrintRunning port])
             with 0%nat.
           lia.
      * simpl snd. rewrite successful_loads_app, H2.
        change (Server.successful_loads []) with 0%nat. lia.
Qed.

Lemma model_loaded_at_most_once_witness :
  Server.load_model Server.sunny Server.loaded_cpu
  = (Server.Ok tt, Server.loaded_cpu, [])
  /\ fst (Server.exec_all
            [(Server.sunny, Server.LoadModel);
             (Server.sunny,
              Server.PostSpeak (Server.mkSpeak (Some hello) (Some 15)));
             (Server.sunny, Server.GetHealth)]
            Server.loaded_cpu)
     = Server.loaded_cpu.
Proof.
  destruct model_loaded_at_most_once as (H1 & H2 & _).
  split.
  - apply H1. discriminate.
  - apply H2. discriminate.
Defined.

(** C10.  In a successful answer of [/speak] the [chunks] field is the
    length of the list the chunker returned.  The number of calls of
    [generate], one for each audio segment, is the number of chunks that
    are not blank, so it is at most the [chunks] field and can be less:
    a sentence over the limit that ends in a comma gives three chunks and
    two segments. *)
Theorem speak_chunks_field_counts_all_chunks (w : Server.world)
        (req : Server.speak_request) (g : Server.globals)
        (path : str) (rate n : Z) :
  (Server.response (Server.speak w req g)
   = Server.Reply 200 (Server.BSpeak path rate n) ->
   n = len (split_text_into_chunks (Server.text_of req)
              (Server.max_chunk_size_of req))
   /\ Server.generated (Server.trace (Server.speak w req g))
      = len (filter Server.nonblank
               (split_text_into_chunks (Server.text_of req)
                  (Server.max_chunk_size_of req)))
   /\ Server.generated (Server.trace (Server.speak w req g)) <= n)
  /\ Server.response
       (Server.speak Server.sunny
          (Server.mkSpeak (Some trailing_comma) (Some 20)) Server.loaded_cpu)
     = Server.Reply 200 (Server.BSpeak (py "/tmp/tmpq3x1.wav") 24000 3)
  /\ Server.generated
       (Server.trace
          (Server.speak Server.sunny
             (Server.mkSpeak (Some trailing_comma) (Some 20))
             Server.loaded_cpu))
     = 2.
Proof.
  split; [|split; vm_compute; reflexivity].
  intros H.
  pose proof (ensure_loaded_events w g) as Hev.
  rewrite speak_unfold in *.
  destruct (Server.ensure_loaded w g) as [[[u|e] g1] t1];
    [|discriminate H].
  simpl in Hev.
  destruct (negb (truthy (Server.text_of req))); [discriminate H|].
  cbn [Server.response Server.trace] in *.
  unfold Server.speak_guarded in *.
  destruct (Server.speak_try w (Server.tts g1) (Server.text_of req)
              (Server.max_chunk_size_of req)) as [[r|e] tr] eqn:E;
    simpl in H; [|discriminate H].
  subst r. apply speak_try_success in E. destruct E as [En Eg].
  simpl snd. rewrite generated_app, (generated_load t1 Hev).
  assert (K : Server.generated tr
              = len (filter Server.nonblank
                       (split_text_into_chunks (Server.text_of req)
                          (Server.max_chunk_size_of req)))).
  { unfold Server.generated, len. now rewrite Eg, length_map. }
  split; [exact En|]. split; [lia|].
  rewrite K, En. simpl. apply len_filter_le.
Qed.

Lemma speak_chunks_field_counts_all_chunks_witness :
  3 = len (split_text_into_chunks trailing_comma 20)
  /\ Server.generated
       (Server.trace
          (Server.speak Server.sunny
             (Server.mkSpeak (Some trailing_comma) (Some 20))
             Server.loaded_cpu))
     <= 3.
Proof.
  destruct (speak_chunks_field_counts_all_chunks Server.sunny
              (Server.mkSpeak (Some trailing_comma) (Some 20))
              Server.loaded_cpu (py "/tmp/tmpq3x1.wav") 24000 3)
    as (H & _).
  destruct H as (H1 & _ & H3).
  - vm_compute. reflexivity.
  - split; [exact H1 | exact H3].
Defined.

(* ================================================================== *)
(** * Beyond the specification: the chunker *)
(* ================================================================== *)

Section LengthFacts.

Variable max_chars : Z.

Lemma len_lstrip_le (s : str) : len (lstrip s) <= len s.
Proof.
  destruct (lstrip_suffix s) as [w Hw]. rewrite Hw at 2.
  rewrite len_app. pose proof (len_nonneg w). lia.
Qed.

Lemma len_rstrip_le (s : str) : len (rstrip s) <= len s.
Proof.
  destruct (rstrip_prefix s) as [w Hw]. rewrite Hw at 2.
  rewrite len_app. pose proof (len_nonneg w). lia.
Qed.

Lemma len_strip_le (s : str) : len (strip s) <= len s.
Proof.
  unfold strip. pose proof (len_rstrip_le (lstrip s)).
  pose proof (len_lstrip_le s). lia.
Qed.

Lemma flush_within (ss cs : list str) (cur : str) :
  (cur <> [] -> len cur <= max_chars) ->
  Forall (within_limit max_chars ss) cs ->
  Forall (within_limit max_chars ss) (flush cs cur).
Proof.
  intros Hc Hcs. unfold flush. destruct cur as [|c cur]; simpl; [exact Hcs|].
  apply Forall_app. split; [exact Hcs|].
  constructor; [|constructor]. left. apply Hc. discriminate.
Qed.

(** One iteration keeps the running chunk within the limit and appends
    only chunks within the limit or comma parts. *)
Lemma step_within (ss : list str) (st : loop_state) (s : str) :
  In s ss ->
  (current_chunk st <> [] -> len (current_chunk st) <= max_chars) ->
  Forall (within_limit max_chars ss) (chunks st) ->
  (current_chunk (step max_chars st s) <> [] ->
   len (current_chunk (step max_chars st s)) <= max_chars)
  /\ Forall (within_limit max_chars ss) (chunks (step max_chars st s)).
Proof.
  intros Hin Hc Hcs.
  destruct (step_cases max_chars st s) as [[Hj E]|[[Hl E]|[_ [Hf E]]]];
    rewrite E; cbn [chunks current_chunk].
  - split; [|exact Hcs]. intros _.
    pose proof (len_strip_le (current_chunk st ++ [SPACE] ++ s)) as H.
    rewrite !len_app in H. change (len [SPACE]) with 1 in H. lia.
  - split; [exact Hc|].
    apply Forall_app. split; [now apply flush_within|].
    apply Forall_forall. intros c Hcin. right. exists s. now repeat split.
  - split; [intros _; exact Hf | now apply flush_within].
Qed.

Lemma run_within (ss todo : list str) :
  incl todo ss ->
  forall st,
    (current_chunk st <> [] -> len (current_chunk st) <= max_chars) ->
    Forall (within_limit max_chars ss) (chunks st) ->
    (current_chunk (run max_chars todo st) <> [] ->
     len (current_chunk (run max_chars todo st)) <= max_chars)
    /\ Forall (within_limit max_chars ss) (chunks (run max_chars todo st)).
Proof.
  induction todo as [|s todo IH]; intros Hincl st Hc Hcs; simpl.
  - now split.
  - destruct (step_within ss st s) as [H1 H2]; try assumption.
    + apply Hincl. now left.
    + apply IH; try assumption. intros x Hx. apply Hincl. now right.
Qed.

Lemma loop_chunks_within (text : str) :
  Forall (within_limit max_chars (sentences text))
         (loop_chunks text max_chars).
Proof.
  unfold loop_chunks. fold (run max_chars (sentences text) init).
  destruct (run_within (sentences text) (sentences text) (incl_refl _) init)
    as [H1 H2].
  - intros H. now contradiction H.
  - constructor.
  - now apply flush_within.
Qed.

End LengthFacts.

(** X1.  The limit is kept except by comma parts: for a text that is not
    blank, every returned chunk has at most [max_chars] characters or is
    a stripped comma part of a sentence longer than [max_chars]; so when
    no sentence is longer than the limit, no chunk is. *)
Theorem chunks_within_limit (T : str) (L : Z) :
  strip T <> [] ->
  Forall (within_limit L (sentences T)) (split_text_into_chunks T L)
  /\ (Forall (fun s => len s <= L) (sentences T) ->
      Forall (fun c => len c <= L) (split_text_into_chunks T L)).
Proof.
  intros Hne.
  rewrite (split_of_loop_cons T L (loop_chunks_live T L Hne)).
  pose proof (loop_chunks_within L T) as H.
  split; [exact H|].
  intros Hfit. rewrite Forall_forall in *. intros c Hc.
  destruct (H c Hc) as [Hle|(s & Hin & Hlong & _)]; [exact Hle|].
  specialize (Hfit s Hin). simpl in Hfit. lia.
Qed.

Lemma chunks_within_limit_witness :
  Forall (fun c => len c <= 15) (split_text_into_chunks hello 15).
Proof.
  destruct (chunks_within_limit hello 15) as [_ H].
  - vm_compute. discriminate.
  - apply H.
    change (sentences hello) with [py "Hello world."; py "This is a test."].
    repeat constructor; vm_compute; discriminate.
Defined.

Section PackingFacts.

Variable max_chars : Z.

Lemma packed_grow (s : str) (g : list str) (gs : list (list str)) :
  g <> [] ->
  packed max_chars (gs ++ [g]) -> packed max_chars (gs ++ [g ++ [s]]).
Proof.
  intros Hg. induction gs as [|a gs IH]; intros H; [exact I|].
  destruct gs as [|b gs].
  - destruct g as [|x g]; [congruence|]. exact H.
  - destruct H as [H1 H2]. split; [exact H1 | now apply IH].
Qed.

Lemma packed_close (s : str) (g : list str) (gs : list (list str)) :
  packed max_chars (gs ++ [g]) ->
  max_chars < len (join [SPACE] g) + len s + 1 ->
  packed max_chars ((gs ++ [g]) ++ [[s]]).
Proof.
  intros H Hs. induction gs as [|a gs IH].
  - simpl. now split.
  - destruct gs as [|b gs].
    + destruct H as [H1 _]. split; [exact H1|]. simpl. now split.
    + destruct H as [H1 H2]. split; [exact H1 | now apply IH].
Qed.

(** One iteration on a sentence that fits, with the packing of the
    groups. *)
Lemma step_fitting_packed (st : loop_state) (s : str) (pre : list str)
      (gs : list (list str)) (g : list str) :
  solid s -> len s <= max_chars ->
  chunks st = pre ++ map (join [SPACE]) gs ->
  Forall (fun g => g <> []) gs ->
  cur_group (current_chunk st) g ->
  (g = [] -> gs = []) ->
  packed max_chars (with_open gs g) ->
  exists gs' g',
    chunks (step max_chars st s) = pre ++ map (join [SPACE]) gs'
    /\ Forall (fun g => g <> []) gs'
    /\ cur_group (current_chunk (step max_chars st s)) g'
    /\ g' <> []
    /\ concat gs' ++ g' = (concat gs ++ g) ++ [s]
    /\ packed max_chars (with_open gs' g').
Proof.
  intros Hs Hfit Hcs Hgs Hcur Hemp Hp.
  destruct (cur_group_tidy _ _ Hcur) as [Hf Hl].
  destruct (step_cases max_chars st s) as [[_ E]|[[Hlong E]|[Hn [_ E]]]];
    rewrite E; cbn [chunks current_chunk]; [| lia |].
  - exists gs, (g ++ [s]).
    split; [exact Hcs|]. split; [exact Hgs|].
    split; [|split; [now destruct g|split; [apply app_assoc|]]].
    + right. split; [now destruct g|].
      split; [now apply strip_join_solid_solid|].
      rewrite (strip_join_solid _ _ Hf Hl Hs).
      destruct Hcur as [[Eg Ec]|(Hg & Hsol & Hj)].
      * subst g. rewrite Ec. reflexivity.
      * rewrite join_snoc by exact Hg. rewrite <- Hj.
        destruct Hsol as [Hne _].
        destruct (current_chunk st); [congruence | reflexivity].
    + destruct g as [|x g].
      * rewrite (Hemp eq_refl). exact I.
      * apply (packed_grow s (x :: g) gs); [discriminate | exact Hp].
  - assert (Hnew : cur_group s [s]).
    { right. split; [discriminate|]. split; [exact Hs | reflexivity]. }
    destruct Hcur as [[Eg Ec]|(Hg & (Hne & _) & Hj)].
    + exists [], [s]. subst g. rewrite (Hemp eq_refl) in *.
      rewrite Ec. unfold flush. simpl truthy. cbv iota.
      split; [exact Hcs|]. split; [constructor|]. split; [exact Hnew|].
      split; [discriminate|]. split; [reflexivity | exact I].
    + exists (gs ++ [g]), [s]. unfold flush.
      destruct (current_chunk st) as [|c cur] eqn:Ec; [congruence|].
      simpl truthy. cbv iota.
      split; [|split; [|split; [exact Hnew|split; [discriminate|split]]]].
      * rewrite map_app, Hcs, <- app_assoc. simpl. now rewrite Hj.
      * apply Forall_app. split; [exact Hgs | now constructor].
      * rewrite concat_app. simpl. now rewrite app_nil_r.
      * change (with_open (gs ++ [g]) [s]) with ((gs ++ [g]) ++ [[s]]).
        apply packed_close.
        -- destruct g; [congruence | exact Hp].
        -- now rewrite <- Hj.
Qed.

Lemma run_fitting_packed (todo : list str) (pre : list str) :
  Forall solid todo -> Forall (fun s => len s <= max_chars) todo ->
  forall st gs g,
    chunks st = pre ++ map (join [SPACE]) gs ->
    Forall (fun g => g <> []) gs ->
    cur_group (current_chunk st) g ->
    (g = [] -> gs = []) ->
    packed max_chars (with_open gs g) ->
    exists gs' g',
      chunks (run max_chars todo st) = pre ++ map (join [SPACE]) gs'
      /\ Forall (fun g => g <> []) gs'
      /\ cur_group (current_chunk (run max_chars todo st)) g'
      /\ concat gs' ++ g' = (concat gs ++ g) ++ todo
      /\ packed max_chars (with_open gs' g').
Proof.
  induction 1 as [|s todo Hs _ IH]; intros Hfit st gs g Hcs Hgs Hcur He Hp.
  - exists gs, g. simpl. rewrite app_nil_r. now repeat split.
  - inversion Hfit as [|? ? Hfs Hft]; subst.
    destruct (step_fitting_packed st s pre gs g Hs Hfs Hcs Hgs Hcur He Hp)
      as (gs1 & g1 & H1 & H2 & H3 & H4 & H5 & H6).
    destruct (IH Hft _ gs1 g1 H1 H2 H3) as (gs2 & g2 & K1 & K2 & K3 & K4 & K5).
    + intros E. congruence.
    + exact H6.
    + exists gs2, g2. simpl. repeat split; try assumption.
      rewrite K4, H5, <- !app_assoc. reflexivity.
Qed.

(** When every sentence fits, the chunks are the joins of groups of
    sentences packed greedily. *)
Lemma loop_chunks_packed (text : str) :
  strip text <> [] ->
  Forall (fun s => len s <= max_chars) (sentences text) ->
  exists groups,
    Forall (fun g => g <> []) groups
    /\ concat groups = sentences text
    /\ loop_chunks text max_chars = map (join [SPACE]) groups
    /\ packed max_chars groups.
Proof.
  intros H Hfit. pose proof (sentences_solid text H) as Hsol.
  destruct (run_fitting_packed (sentences text) [] Hsol Hfit init [] [])
    as (gs & g & H1 & H2 & H3 & H4 & H5).
  - reflexivity.
  - constructor.
  - left. now split.
  - reflexivity.
  - exact I.
  - unfold loop_chunks. fold (run max_chars (sentences text) init).
    simpl in H4, H1.
    destruct H3 as [[Eg Ec]|(Hg & (Hn & _) & Hj)].
    + exists gs. subst g. rewrite Ec, app_nil_r in *.
      repeat split; assumption.
    + exists (gs ++ [g]). split; [|split; [|split]].
      * apply Forall_app. split; [exact H2 | now constructor].
      * rewrite concat_app. simpl. now rewrite app_nil_r.
      * unfold flush.
        destruct (current_chunk (run max_chars (sentences text) init));
          [congruence|].
        simpl. rewrite map_app, H1. simpl. now rewrite Hj.
      * destruct g; [congruence | exact H5].
Qed.

Lemma len_groups_le (groups : list (list str)) :
  Forall (fun g => g <> []) groups -> len groups <= len (concat groups).
Proof.
  induction 1 as [|g gs Hg _ IH]; [reflexivity|].
  simpl concat. rewrite len_cons, len_app.
  destruct g as [|x g]; [congruence|]. rewrite len_cons.
  pose proof (len_nonneg g). lia.
Qed.

Lemma len_head_join (s : str) (l : list str) :
  len s <= len (join [SPACE] (s :: l)).
Proof.
  destruct l as [|y l]; [simpl; lia|].
  rewrite join_cons by discriminate. rewrite len_app.
  pose proof (len_nonneg ([SPACE] ++ join [SPACE] (y :: l))). lia.
Qed.

Lemma len_in_join (s : str) (l : list str) :
  In s l -> len s <= len (join [SPACE] l).
Proof.
  induction l as [|x l IH]; [contradiction|].
  intros [->|Hin]; [apply len_head_join|].
  destruct l as [|y l]; [contradiction|].
  rewrite join_cons by discriminate. rewrite !len_app.
  specialize (IH Hin). pose proof (len_nonneg x).
  change (len [SPACE]) with 1. lia.
Qed.

End PackingFacts.

(** X2.  Greedy packing: when the text is not blank and no sentence is
    longer than the limit, the chunks are the joins by single spaces of
    consecutive groups of sentences, and no group could have taken the
    next sentence: the chunk of a group, a space and the first sentence
    of the following group are more than [max_chars] characters.  There
    are at most as many chunks as sentences. *)
Theorem chunks_packed_greedily (T : str) (L : Z) :
  strip T <> [] ->
  Forall (fun s => len s <= L) (sentences T) ->
  (exists groups,
      Forall (fun g => g <> []) groups
      /\ concat groups = sentences T
      /\ split_text_into_chunks T L = map (join [SPACE]) groups
      /\ packed L groups)
  /\ len (split_text_into_chunks T L) <= len (sentences T).
Proof.
  intros Hne Hfit.
  destruct (loop_chunks_packed L T Hne Hfit) as (gs & H1 & H2 & H3 & H4).
  rewrite (split_of_loop_cons T L (loop_chunks_live T L Hne)), H3.
  split; [now exists gs|].
  unfold len at 1. rewrite length_map. fold (len gs).
  rewrite <- H2. now apply len_groups_le.
Qed.

Lemma chunks_packed_greedily_witness :
  (exists groups,
      Forall (fun g => g <> []) groups
      /\ concat groups = sentences hello
      /\ split_text_into_chunks hello 15 = map (join [SPACE]) groups
      /\ packed 15 groups)
  /\ len (split_text_into_chunks hello 15) <= len (sentences hello).
Proof.
  apply chunks_packed_greedily.
  - vm_compute. discriminate.
  - change (sentences hello) with [py "Hello world."; py "This is a test."].
    repeat constructor; vm_compute; discriminate.
Defined.

(** X3.  A short text is one chunk: when the sentences of a text that is
    not blank, joined by single spaces, have at most [max_chars]
    characters, the chunker returns that join as its only chunk. *)
Theorem short_text_is_one_chunk (T : str) (L : Z) :
  strip T <> [] ->
  len (join [SPACE] (sentences T)) <= L ->
  split_text_into_chunks T L = [join [SPACE] (sentences T)].
Proof.
  intros Hne Hlen.
  assert (Hfit : Forall (fun s => len s <= L) (sentences T)).
  { apply Forall_forall. intros s Hs.
    pose proof (len_in_join s _ Hs). lia. }
  destruct (loop_chunks_packed L T Hne Hfit) as (gs & H1 & H2 & H3 & H4).
  rewrite (split_of_loop_cons T L (loop_chunks_live T L Hne)), H3.
  destruct gs as [|g1 gs].
  - exfalso. simpl in H2. symmetry in H2.
    now apply (sentences_nonempty T).
  - destruct gs as [|g2 gs].
    + simpl in H2. rewrite app_nil_r in H2. now subst g1.
    + exfalso. inversion H1 as [|? ? Hg1 Hrest]; subst.
      inversion Hrest as [|? ? Hg2 _]; subst.
      destruct g2 as [|s r]; [congruence|].
      destruct H4 as [Hp _].
      rewrite <- H2 in Hlen.
      change (concat (g1 :: (s :: r) :: gs))
        with (g1 ++ (s :: (r ++ concat gs))) in Hlen.
      rewrite join_app in Hlen by (assumption || discriminate).
      rewrite !len_app in Hlen. change (len [SPACE]) with 1 in Hlen.
      pose proof (len_head_join s (r ++ concat gs)). lia.
Qed.

Lemma short_text_is_one_chunk_witness :
  split_text_into_chunks hello 200 = [join [SPACE] (sentences hello)].
Proof.
  apply short_text_is_one_chunk.
  - vm_compute. discriminate.
  - vm_compute. discriminate.
Defined.

Section BoundaryFacts.

Lemma solid_len_pos (s : str) : solid s -> 0 < len s.
Proof.
  intros [Hn _]. destruct s; [congruence|]. rewrite len_cons.
  pose proof (len_nonneg s). lia.
Qed.

(** What [strip] keeps was there. *)
Lemma Forall_strip (P : char -> Prop) (s : str) :
  Forall P s -> Forall P (strip s).
Proof.
  intros H. destruct (lstrip_suffix s) as [w1 H1].
  destruct (rstrip_prefix (lstrip s)) as [w2 H2].
  rewrite H1 in H. apply Forall_app in H. destruct H as [_ H].
  rewrite H2 in H. apply Forall_app in H. now destruct H as [H _].
Qed.

(** Without a sentence terminal the subject is one piece. *)
Lemma split_sentences_from_whole (s : str) :
  forall cur,
    Forall (fun c => is_terminal c = false) cur ->
    Forall (fun c => is_terminal c = false) s ->
    Re.split_sentences_from cur false s = [rev cur ++ s].
Proof.
  induction s as [|c rest IH]; intros cur Hcur Hs; simpl.
  - now rewrite app_nil_r.
  - inversion Hs as [|? ? Hc Hrest]; subst.
    assert (E : Re.after_terminal cur = false).
    { destruct cur as [|d cur]; [reflexivity|].
      inversion Hcur; subst. assumption. }
    rewrite E, andb_false_r.
    rewrite IH by (try constructor; assumption).
    simpl. now rewrite <- app_assoc.
Qed.

(** Without a comma the subject is one part. *)
Lemma split_commas_from_whole (s : str) :
  forall cur,
    Forall (fun c => is_comma c = false) s ->
    Re.split_commas_from cur false s = [rev cur ++ s].
Proof.
  induction s as [|c rest IH]; intros cur Hs; simpl.
  - now rewrite app_nil_r.
  - inversion Hs as [|? ? Hc Hrest]; subst. rewrite Hc.
    rewrite IH by assumption. simpl. now rewrite <- app_assoc.
Qed.

(** The number of parts is the number of commas and one more, and no
    part has a comma. *)
Lemma split_commas_from_count (s : str) :
  forall cur sk,
    List.length (Re.split_commas_from cur sk s) = S (count_commas s).
Proof.
  unfold count_commas.
  induction s as [|c rest IH]; intros cur sk; simpl; [reflexivity|].
  destruct (sk && is_space c) eqn:E.
  - apply andb_true_iff in E. destruct E as [_ Hc].
    destruct (is_comma c) eqn:Hk.
    + apply N.eqb_eq in Hk. subst c. discriminate Hc.
    + apply IH.
  - destruct (is_comma c); simpl; now rewrite IH.
Qed.

Lemma split_commas_from_free (s : str) :
  forall cur sk,
    Forall (fun c => is_comma c = false) cur ->
    Forall (fun p => Forall (fun c => is_comma c = false) p)
           (Re.split_commas_from cur sk s).
Proof.
  induction s as [|c rest IH]; intros cur sk Hcur; simpl.
  - constructor; [|constructor]. now apply Forall_rev.
  - destruct (sk && is_space c); [now apply IH|].
    destruct (is_comma c) eqn:Hk.
    + constructor; [now apply Forall_rev | apply IH; constructor].
    + apply IH. now constructor.
Qed.

(** The pieces of the sentence split: all but the last end with a
    sentence terminal. *)
Lemma split_sentences_from_ends (s : str) :
  forall cur sk,
    exists front last,
      Re.split_sentences_from cur sk s = front ++ [last]
      /\ Forall (fun p => ends_with_terminal p = true) front.
Proof.
  induction s as [|c rest IH]; intros cur sk; simpl.
  - exists [], (rev cur). now split.
  - destruct sk.
    + destruct (is_space c); apply IH.
    + destruct (is_space c && Re.after_terminal cur) eqn:E; [|apply IH].
      apply andb_true_iff in E. destruct E as [_ Ht].
      destruct (IH [] true) as (front & last & H1 & H2).
      exists (rev cur :: front), last. rewrite H1. split; [reflexivity|].
      constructor; [|exact H2].
      unfold ends_with_terminal. now rewrite rev_involutive.
Qed.

Lemma has_boundary_snoc (s : str) (c : char) :
  has_boundary (s ++ [c])
  = has_boundary s || (Re.after_terminal (rev s) && is_space c).
Proof.
  induction s as [|a s IH]; [reflexivity|].
  destruct s as [|b s].
  - simpl. now rewrite !orb_false_r.
  - change ((a :: b :: s) ++ [c]) with (a :: ((b :: s) ++ [c])).
    change (has_boundary (a :: (b :: s) ++ [c]))
      with ((is_terminal a && is_space b) || has_boundary ((b :: s) ++ [c])).
    rewrite IH.
    change (has_boundary (a :: b :: s))
      with ((is_terminal a && is_space b) || has_boundary (b :: s)).
    rewrite orb_assoc. f_equal. f_equal.
    simpl rev. unfold Re.after_terminal.
    destruct (rev s ++ [b]) as [|x l] eqn:Ex.
    + now apply app_eq_nil in Ex.
    + reflexivity.
Qed.

(** No piece of the sentence split has a place where the pattern still
    matches. *)
Lemma split_sentences_from_maximal (s : str) :
  forall cur sk,
    has_boundary (rev cur) = false ->
    Forall (fun p => has_boundary p = false)
           (Re.split_sentences_from cur sk s).
Proof.
  induction s as [|c rest IH]; intros cur sk Hcur; simpl.
  - now constructor.
  - destruct sk.
    + destruct (is_space c); [now apply IH | now apply IH].
    + destruct (is_space c && Re.after_terminal cur) eqn:E.
      * constructor; [exact Hcur | now apply IH].
      * apply IH. simpl rev. rewrite has_boundary_snoc, Hcur.
        rewrite rev_involutive. simpl. now rewrite andb_comm.
Qed.

(** The pieces and the matches between them make up the subject: inside
    a piece, and inside a match. *)
Lemma split_sentences_from_weave (s : str) :
  (forall cur,
      exists first rest tail,
        Re.split_sentences_from cur false s = first :: map snd rest
        /\ first = rev cur ++ tail
        /\ rev cur ++ s = weave first rest
        /\ Forall gap_ok rest)
  /\ (exists ws first rest,
        Re.split_sentences_from [] true s = first :: map snd rest
        /\ s = ws ++ weave first rest
        /\ forallb is_space ws = true
        /\ first_ok first = true
        /\ Forall gap_ok rest).
Proof.
  induction s as [|c s [IHin IHgap]]; split.
  - intros cur. exists (rev cur), [], []. unfold weave. simpl.
    now rewrite !app_nil_r.
  - exists [], [], []. now repeat split.
  - intros cur.
    change (Re.split_sentences_from cur false (c :: s))
      with (if is_space c && Re.after_terminal cur
            then rev cur :: Re.split_sentences_from [] true s
            else Re.split_sentences_from (c :: cur) false s).
    destruct (is_space c && Re.after_terminal cur) eqn:E.
    + apply andb_true_iff in E. destruct E as [Hc _].
      destruct IHgap as (ws & first & rest & E1 & E2 & Hws & Hf & Hrest).
      exists (rev cur), ((c :: ws, first) :: rest), [].
      rewrite E1. split; [reflexivity|]. split; [now rewrite app_nil_r|].
      split.
      * rewrite E2. unfold weave. simpl. now rewrite <- !app_assoc.
      * constructor; [|exact Hrest]. split; [discriminate|].
        split; [|exact Hf]. simpl. now rewrite Hc, Hws.
    + destruct (IHin (c :: cur)) as (first & rest & tail & E1 & E2 & E3 & Hr).
      exists first, rest, (c :: tail). split; [exact E1|].
      simpl rev in E2, E3. rewrite <- app_assoc in E2, E3.
      now repeat split.
  - change (Re.split_sentences_from [] true (c :: s))
      with (if is_space c then Re.split_sentences_from [] true s
            else Re.split_sentences_from [c] false s).
    destruct (is_space c) eqn:Hc.
    + destruct IHgap as (ws & first & rest & E1 & E2 & Hws & Hf & Hrest).
      exists (c :: ws), first, rest. split; [exact E1|].
      split; [now rewrite E2|]. split; [|now split].
      simpl. now rewrite Hc, Hws.
    + destruct (IHin [c]) as (first & rest & tail & E1 & E2 & E3 & Hr).
      exists [], first, rest. split; [exact E1|]. split; [exact E3|].
      split; [reflexivity|]. split; [|exact Hr].
      rewrite E2. simpl. now rewrite Hc.
Qed.

(** Conversely, a way of cutting the subject that meets these conditions
    is the split: the conditions leave no choice. *)
Lemma has_boundary_app_l (a b : str) :
  has_boundary (a ++ b) = false -> has_boundary a = false.
Proof.
  revert a. induction b as [|c b IH]; intros a H.
  - now rewrite app_nil_r in H.
  - change (a ++ c :: b) with (a ++ [c] ++ b) in H.
    rewrite app_assoc in H. apply IH in H.
    rewrite has_boundary_snoc in H. now apply orb_false_iff in H.
Qed.

Lemma split_sentences_from_piece (p : str) :
  forall cur rest,
    has_boundary (rev cur ++ p) = false ->
    Re.split_sentences_from cur false (p ++ rest)
    = Re.split_sentences_from (rev p ++ cur) false rest.
Proof.
  induction p as [|c p IH]; intros cur rest H; [reflexivity|].
  assert (Hc : has_boundary (rev (c :: cur) ++ p) = false).
  { simpl rev. now rewrite <- app_assoc. }
  assert (E : is_space c && Re.after_terminal cur = false).
  { apply has_boundary_app_l in Hc. simpl rev in Hc.
    rewrite has_boundary_snoc, rev_involutive in Hc.
    apply orb_false_iff in Hc. destruct Hc as [_ Hc].
    now rewrite andb_comm. }
  change (Re.split_sentences_from cur false ((c :: p) ++ rest))
    with (if is_space c && Re.after_terminal cur
          then rev cur :: Re.split_sentences_from [] true (p ++ rest)
          else Re.split_sentences_from (c :: cur) false (p ++ rest)).
  rewrite E, (IH (c :: cur) rest Hc). simpl rev. now rewrite <- app_assoc.
Qed.

Lemma split_sentences_from_skip (ws : str) (s : str) :
  forallb is_space ws = true ->
  Re.split_sentences_from [] true (ws ++ s)
  = Re.split_sentences_from [] true s.
Proof.
  induction ws as [|c ws IH]; intros H; [reflexivity|].
  simpl in H. apply andb_true_iff in H. destruct H as [Hc Hws].
  simpl. rewrite Hc. now apply IH.
Qed.

Lemma split_sentences_from_enter (s : str) :
  first_ok s = true ->
  Re.split_sentences_from [] true s = Re.split_sentences_from [] false s.
Proof.
  destruct s as [|c s]; [reflexivity|]. simpl. intros H.
  apply negb_true_iff in H. now rewrite H.
Qed.

Lemma weave_cons (first gap p : str) (rest : list (str * str)) :
  weave first ((gap, p) :: rest) = first ++ gap ++ weave p rest.
Proof. unfold weave. simpl. now rewrite <- app_assoc. Qed.

Lemma front_of_cons {A : Type} (P : A -> Prop) (x : A) (l : list A) :
  (forall front last, x :: l = front ++ [last] -> Forall P front) ->
  l <> [] ->
  P x /\ (forall front last, l = front ++ [last] -> Forall P front).
Proof.
  intros H Hl. destruct (exists_last Hl) as (front' & last' & E).
  specialize (H (x :: front') last'). rewrite E in H.
  specialize (H eq_refl). inversion H as [|? ? Hx Hf]; subst.
  split; [exact Hx|]. intros front last E2.
  apply app_inj_tail in E2. destruct E2 as [<- _]. exact Hf.
Qed.

Lemma split_sentences_from_unique (rest : list (str * str)) :
  forall first,
    Forall gap_ok rest ->
    Forall (fun s => has_boundary s = false) (first :: map snd rest) ->
    (forall front last,
        first :: map snd rest = front ++ [last] ->
        Forall (fun s => ends_with_terminal s = true) front) ->
    Re.split_sentences_from [] false (weave first rest)
    = first :: map snd rest.
Proof.
  induction rest as [|[gap p] rest IH]; intros first Hg Hb He.
  - unfold weave. simpl concat.
    inversion Hb as [|? ? Hf _]; subst.
    rewrite (split_sentences_from_piece first [] [] Hf). simpl.
    now rewrite app_nil_r, rev_involutive.
  - inversion Hg as [|? ? (Hne & Hws & Hp) Hg']; subst.
    inversion Hb as [|? ? Hf Hb']; subst.
    cbn [fst snd] in *. cbn [map snd] in *.
    destruct (front_of_cons _ _ _ He) as [Hend He']; [discriminate|].
    rewrite weave_cons, (split_sentences_from_piece first [] _ Hf).
    rewrite app_nil_r.
    destruct gap as [|c ws]; [congruence|].
    simpl in Hws. apply andb_true_iff in Hws. destruct Hws as [Hc Hws].
    change (Re.split_sentences_from (rev first) false
              ((c :: ws) ++ weave p rest))
      with (if is_space c && Re.after_terminal (rev first)
            then rev (rev first)
                 :: Re.split_sentences_from [] true (ws ++ weave p rest)
            else Re.split_sentences_from (c :: rev first) false
                   (ws ++ weave p rest)).
    unfold ends_with_terminal in Hend. rewrite Hc, Hend. cbn [andb].
    rewrite rev_involutive, (split_sentences_from_skip ws _ Hws).
    rewrite split_sentences_from_enter.
    + now rewrite (IH p Hg' Hb' He').
    + destruct p as [|d p]; [|exact Hp].
      destruct rest as [|[gap' p'] rest]; [reflexivity|].
      cbn [map snd] in He'.
      destruct (front_of_cons _ _ _ He') as [K _]; [discriminate|].
      discriminate K.
Qed.

End BoundaryFacts.

(** X4.  Where the text is cut into sentences.  The stripped text is
    the sentences in order with a run of white space, never an empty
    one, between each two of them, and the run is taken whole: the next
    sentence does not start with white space.  So nothing is cut where
    no white space stands, as inside [3.14].  Every sentence but the
    last ends with one of [.!?]; no sentence still has a terminal
    followed by white space inside it; and these conditions leave no
    choice: pieces of the stripped text that meet them are the
    sentences.  A text without any of [.!?] is a single sentence, the
    stripped text. *)
Theorem sentences_cut_at_boundaries (T : str) :
  (exists first rest,
      sentences T = first :: map snd rest
      /\ strip T = weave first rest
      /\ Forall gap_ok rest)
  /\ Forall (fun s => has_boundary s = false) (sentences T)
  /\ (forall front last,
        sentences T = front ++ [last] ->
        Forall (fun s => ends_with_terminal s = true) front)
  /\ (forall first rest,
        strip T = weave first rest ->
        Forall gap_ok rest ->
        Forall (fun s => has_boundary s = false) (first :: map snd rest) ->
        (forall front last,
            first :: map snd rest = front ++ [last] ->
            Forall (fun s => ends_with_terminal s = true) front) ->
        sentences T = first :: map snd rest)
  /\ (Forall (fun c => is_terminal c = false) T ->
      sentences T = [strip T]).
Proof.
  unfold sentences, Re.split_sentences.
  split; [|split; [|split; [|split]]];
    [| | |intros first rest -> Hg Hb He;
          now apply split_sentences_from_unique|].
  - destruct (split_sentences_from_weave (strip T)) as [H _].
    destruct (H []) as (first & rest & tail & E1 & _ & E2 & Hr).
    now exists first, rest.
  - now apply split_sentences_from_maximal.
  - intros front last E.
    destruct (split_sentences_from_ends (strip T) [] false)
      as (front' & last' & E' & H).
    rewrite E in E'. apply app_inj_tail in E'. destruct E' as [-> _].
    exact H.
  - intros H. rewrite split_sentences_from_whole.
    + reflexivity.
    + constructor.
    + now apply Forall_strip.
Qed.

Lemma sentences_cut_at_boundaries_witness :
  Forall (fun s => ends_with_terminal s = true) [py "Hello world."]
  /\ sentences decimals = [py "Pi is 3.14 ok."; py "Yes"]
  /\ sentences plain_words = [strip plain_words].
Proof.
  split; [|split].
  - destruct (sentences_cut_at_boundaries hello) as (_ & _ & H & _).
    apply (H [py "Hello world."] (py "This is a test.")). reflexivity.
  - destruct (sentences_cut_at_boundaries decimals) as (_ & _ & _ & H & _).
    apply (H (py "Pi is 3.14 ok.") [(py "  ", py "Yes")]).
    + reflexivity.
    + repeat constructor. discriminate.
    + repeat constructor.
    + intros front last E.
      change (py "Pi is 3.14 ok." :: map snd [(py "  ", py "Yes")])
        with ([py "Pi is 3.14 ok."] ++ [py "Yes"]) in E.
      apply app_inj_tail in E. destruct E as [<- _].
      repeat constructor.
  - destruct (sentences_cut_at_boundaries plain_words)
      as (_ & _ & _ & _ & H).
    apply H. vm_compute. repeat constructor.
Defined.

(** X5.  A text that is one sentence longer than the limit gives one
    chunk more than it has commas, and no chunk contains a comma. *)
Theorem long_sentence_chunks_count_commas (T : str) (L : Z) (s : str) :
  sentences T = [s] -> L < len s ->
  len (split_text_into_chunks T L) = Z.of_nat (count_commas s) + 1
  /\ Forall (fun c => Forall (fun ch => is_comma ch = false) c)
            (split_text_into_chunks T L).
Proof.
  intros Hs Hlong.
  assert (El : loop_chunks T L = comma_parts s).
  { unfold loop_chunks. rewrite Hs. simpl fold_left.
    rewrite step_split by exact Hlong. reflexivity. }
  assert (Es : split_text_into_chunks T L = comma_parts s).
  { rewrite split_of_loop_cons; [exact El|]. rewrite El.
    intros K. apply map_eq_nil in K.
    now apply split_commas_from_nonempty in K. }
  rewrite Es. unfold comma_parts, Re.split_commas. split.
  - unfold len. rewrite length_map, split_commas_from_count. lia.
  - apply Forall_forall. intros c Hc.
    apply in_map_iff in Hc. destruct Hc as (p & <- & Hp).
    apply Forall_strip.
    pose proof (split_commas_from_free s [] false (Forall_nil _)) as H.
    rewrite Forall_forall in H. now apply H.
Qed.

Lemma long_sentence_chunks_count_commas_witness :
  len (split_text_into_chunks trailing_comma 20)
  = Z.of_nat (count_commas trailing_comma) + 1
  /\ Forall (fun c => Forall (fun ch => is_comma ch = false) c)
            (split_text_into_chunks trailing_comma 20).
Proof.
  apply long_sentence_chunks_count_commas.
  - reflexivity.
  - vm_compute. reflexivity.
Defined.

(** X6.  A text with no sentence terminal and no comma cannot be cut: if
    it is not blank, the chunker returns the stripped text as its only
    chunk, whatever the limit, also when the text is longer than the
    limit. *)
Theorem uncuttable_text_is_one_chunk (T : str) (L : Z) :
  strip T <> [] ->
  Forall (fun c => is_terminal c = false) T ->
  Forall (fun c => is_comma c = false) T ->
  split_text_into_chunks T L = [strip T].
Proof.
  intros Hne Ht Hc.
  assert (Es : sentences T = [strip T]).
  { unfold sentences, Re.split_sentences.
    rewrite split_sentences_from_whole;
      [reflexivity | constructor | now apply Forall_strip]. }
  assert (Hflush : flush [] (strip T) = [strip T]).
  { unfold flush. destruct (strip T); [congruence | reflexivity]. }
  rewrite (split_of_loop_cons T L (loop_chunks_live T L Hne)).
  unfold loop_chunks. rewrite Es. simpl fold_left.
  destruct (step_cases L init (strip T)) as [[_ E]|[[_ E]|[_ [_ E]]]];
    rewrite E; cbn [chunks current_chunk init].
  - change ([] ++ [SPACE] ++ strip T) with (SPACE :: strip T).
    rewrite strip_space_cons, (strip_idem T). exact Hflush.
  - unfold Re.split_commas.
    rewrite split_commas_from_whole by now apply Forall_strip.
    simpl. now rewrite (strip_idem T).
  - exact Hflush.
Qed.

Lemma uncuttable_text_is_one_chunk_witness :
  split_text_into_chunks plain_words 10 = [strip plain_words]
  /\ 10 < len (strip plain_words).
Proof.
  split; [|reflexivity].
  apply uncuttable_text_is_one_chunk.
  - vm_compute. discriminate.
  - vm_compute. repeat constructor.
  - vm_compute. repeat constructor.
Defined.

(** X7.  With a limit of zero or less every sentence of a text that is
    not blank is over the limit: the chunks are the stripped comma
    parts of all the sentences, in order. *)
Theorem nonpositive_limit_splits_everything (T : str) (L : Z) :
  strip T <> [] -> L <= 0 ->
  split_text_into_chunks T L = flat_map comma_parts (sentences T).
Proof.
  intros Hne HL.
  assert (Hlong : Forall (fun s => L < len s) (sentences T)).
  { eapply Forall_impl; [|exact (sentences_solid T Hne)].
    intros s Hs. pose proof (solid_len_pos s Hs). lia. }
  destruct (loop_chunks_parts_then_groups T L (sentences T) [] Hne)
    as (gs & Hgs & Hcat & Hl); try assumption.
  - now rewrite app_nil_r.
  - constructor.
  - rewrite (split_of_loop_cons T L (loop_chunks_live T L Hne)), Hl.
    destruct gs as [|g gs]; [simpl; now rewrite app_nil_r|].
    exfalso. inversion Hgs; subst. simpl in Hcat.
    apply app_eq_nil in Hcat. destruct Hcat. contradiction.
Qed.

Lemma nonpositive_limit_splits_everything_witness :
  split_text_into_chunks long_then_short 0
  = [py "One"; py "two"; py "three"; py "four"; py "five"; py "six.";
     py "Yes."; py "No."].
Proof.
  rewrite nonpositive_limit_splits_everything.
  - reflexivity.
  - vm_compute. discriminate.
  - lia.
Defined.

Section VoiceFacts.

Variable max_chars : Z.

Lemma letters_voiced (s : str) : letters s <> [] -> voiced s.
Proof.
  intros H E. apply H. rewrite letters_non_ws, <- non_ws_strip, E.
  reflexivity.
Qed.

Lemma letters_concat_in (l : list str) :
  letters (concat l) <> [] -> exists s, In s l /\ letters s <> [].
Proof.
  induction l as [|x l IH]; simpl; [congruence|].
  rewrite letters_app. intros H.
  destruct (letters x) as [|c r] eqn:E.
  - destruct (IH H) as (s & Hin & Hs). exists s. split; [now right | exact Hs].
  - exists x. split; [now left | rewrite E; discriminate].
Qed.

Lemma tidy_voiced (cur : str) :
  first_ok cur = true -> last_ok cur = true -> cur <> [] -> voiced cur.
Proof. intros Hf Hl Hn. unfold voiced. now rewrite strip_id. Qed.

(** Something will be spoken: a voiced chunk is in the list, or the
    running chunk is not empty. *)
Lemma step_voice_kept (st : loop_state) (s : str) :
  solid s -> tidy st ->
  Exists voiced (chunks st) \/ current_chunk st <> [] ->
  Exists voiced (chunks (step max_chars st s))
  \/ current_chunk (step max_chars st s) <> [].
Proof.
  intros Hs [Hf Hl] HP.
  destruct (step_cases max_chars st s) as [[_ E]|[[_ E]|[_ [_ E]]]];
    rewrite E; cbn [chunks current_chunk].
  - right. apply (strip_join_solid_solid _ _ Hf Hl Hs).
  - destruct HP as [HP|HP]; [|now right].
    left. apply Exists_app. left.
    destruct (flush_extends (chunks st) (current_chunk st)) as [x ->].
    apply Exists_app. now left.
  - right. apply Hs.
Qed.

Lemma step_voice_gained (st : loop_state) (s : str) :
  solid s -> tidy st -> letters s <> [] ->
  Exists voiced (chunks (step max_chars st s))
  \/ current_chunk (step max_chars st s) <> [].
Proof.
  intros Hs [Hf Hl] Hlet.
  destruct (step_cases max_chars st s) as [[_ E]|[[_ E]|[_ [_ E]]]];
    rewrite E; cbn [chunks current_chunk].
  - right. apply (strip_join_solid_solid _ _ Hf Hl Hs).
  - left. apply Exists_app. right.
    rewrite <- letters_comma_parts in Hlet.
    destruct (letters_concat_in _ Hlet) as (p & Hin & Hp).
    apply Exists_exists. exists p. split; [exact Hin|].
    now apply letters_voiced.
  - right. apply Hs.
Qed.

Lemma run_voice_kept (todo : list str) :
  Forall solid todo ->
  forall st, tidy st ->
    Exists voiced (chunks st) \/ current_chunk st <> [] ->
    Exists voiced (chunks (run max_chars todo st))
    \/ current_chunk (run max_chars todo st) <> [].
Proof.
  induction 1 as [|s todo Hs _ IH]; intros st Ht HP; simpl; [exact HP|].
  apply IH; [now apply step_tidy | now apply step_voice_kept].
Qed.

(** A text with a letter gives a chunk that will be spoken. *)
Lemma loop_chunks_voiced (text : str) :
  letters text <> [] -> Exists voiced (loop_chunks text max_chars).
Proof.
  intros Hlet.
  assert (Hne : strip text <> []) by exact (letters_voiced text Hlet).
  pose proof (sentences_solid text Hne) as Hsol.
  rewrite <- letters_sentences in Hlet.
  destruct (letters_concat_in _ Hlet) as (s0 & Hin & Hs0).
  apply in_split in Hin. destruct Hin as (a & b & Eab).
  unfold loop_chunks. fold (run max_chars (sentences text) init).
  rewrite Eab in *. apply Forall_app in Hsol. destruct Hsol as [Ha Hsb].
  inversion Hsb as [|? ? Hs Hb]; subst.
  rewrite run_app. simpl.
  assert (Ht0 : tidy (run max_chars a init))
    by (apply run_tidy; [exact Ha | now split]).
  pose proof (step_voice_gained _ s0 Hs Ht0 Hs0) as HP.
  pose proof (step_tidy max_chars _ s0 Hs Ht0) as Ht1.
  pose proof (run_voice_kept b Hb _ Ht1 HP) as HQ.
  pose proof (run_tidy max_chars b Hb _ Ht1) as [Hf Hl].
  unfold flush.
  destruct (current_chunk (run max_chars b (step max_chars (run max_chars a init) s0)))
    as [|c cur] eqn:Ec.
  - destruct HQ as [HQ|HQ]; [exact HQ | congruence].
  - simpl. apply Exists_app. right. constructor.
    apply tidy_voiced; [exact Hf | exact Hl | discriminate].
Qed.

End VoiceFacts.

(** X8.  A text with at least one character that is neither white space
    nor a comma always gives at least one chunk that does not strip to
    nothing, whatever the limit: there is something to synthesize. *)
Theorem text_with_letters_has_voiced_chunk (T : str) (L : Z) :
  letters T <> [] -> Exists voiced (split_text_into_chunks T L).
Proof.
  intros H. pose proof (loop_chunks_voiced L T H) as HE.
  rewrite split_of_loop_cons; [exact HE|].
  intros E. rewrite E in HE. inversion HE.
Qed.

Lemma text_with_letters_has_voiced_chunk_witness :
  Exists voiced (split_text_into_chunks short_long_short 10).
Proof.
  apply text_with_letters_has_voiced_chunk. vm_compute. discriminate.
Defined.

(* ================================================================== *)
(** * Beyond the specification: the handlers *)
(* ================================================================== *)

Section RequestFacts.

Import Audio Server.

Lemma nonblank_voiced (c : str) : nonblank c = true <-> voiced c.
Proof. unfold nonblank, voiced. apply truthy_true_iff. Qed.

Lemma voiced_spoken (cs : list str) :
  Exists voiced cs -> filter nonblank cs <> [].
Proof.
  intros H. apply Exists_exists in H. destruct H as (c & Hin & Hc).
  intros E. assert (K : In c (filter nonblank cs)).
  { apply filter_In. split; [exact Hin | now apply nonblank_voiced]. }
  rewrite E in K. contradiction.
Qed.

Lemma rendered_length (w : world) (m : model) (cs : list str) :
  forall made segs, rendered w m made cs segs -> len segs = len cs.
Proof.
  induction cs as [|c cs IH]; intros made [|seg segs] H; simpl in H;
    try contradiction; [reflexivity|].
  destruct H as [_ H]. rewrite !len_cons. now rewrite (IH _ _ H).
Qed.

(** The loop that ended normally rendered each spoken chunk in turn. *)
Lemma generate_segments_rendered (w : world) (t : option model)
      (chunks : list str) :
  forall acc segs tr,
    generate_segments w t chunks acc = (Ok segs, tr) ->
    tr = map EvGenerate (filter nonblank chunks)
    /\ exists new,
        segs = acc ++ new
        /\ (t = None -> filter nonblank chunks = [])
        /\ (forall m, t = Some m ->
            rendered w m (List.length acc) (filter nonblank chunks) new).
Proof.
  induction chunks as [|c chunks IH]; intros acc segs tr H; simpl in *.
  - inversion H; subst. split; [reflexivity|].
    exists []. rewrite app_nil_r. now repeat split.
  - destruct (nonblank c).
    + apply bind_ok_inv in H. destruct H as (wav & t1 & t2 & H1 & H2 & ->).
      destruct (IH _ _ _ H2) as (-> & new & -> & Hn & Hr).
      unfold tts_generate in H1. destruct t as [m|]; [|discriminate].
      inversion H1; subst. split; [reflexivity|].
      exists (wav :: new). rewrite <- app_assoc. split; [reflexivity|].
      split; [discriminate|].
      intros m' Em. inversion Em; subst m'. simpl. split; [assumption|].
      specialize (Hr m eq_refl). rewrite length_app in Hr. simpl in Hr.
      now rewrite Nat.add_1_r in Hr.
    + now apply IH.
Qed.

(** The loop when every call of [generate] succeeds. *)
Lemma generate_segments_all (w : world) (m : model) (chunks : list str) :
  forall acc new,
    rendered w m (List.length acc) (filter nonblank chunks) new ->
    generate_segments w (Some m) chunks acc
    = (Ok (acc ++ new), map EvGenerate (filter nonblank chunks)).
Proof.
  induction chunks as [|c chunks IH]; intros acc new H; simpl in *.
  - destruct new; [|contradiction]. now rewrite app_nil_r.
  - destruct (nonblank c); [|now apply IH].
    destruct new as [|seg new]; [contradiction|]. destruct H as [Hg Hr].
    rewrite Hg, (IH (acc ++ [seg]) new).
    + now rewrite <- app_assoc.
    + rewrite length_app. simpl. now rewrite Nat.add_1_r.
Qed.

(** The loop stops at the first call of [generate] that raises. *)
Lemma generate_segments_fails (w : world) (m : model) (chunks : list str) :
  forall acc pre c post new e,
    filter nonblank chunks = pre ++ c :: post ->
    rendered w m (List.length acc) pre new ->
    generate w m (List.length acc + List.length pre)%nat c = Raise e ->
    generate_segments w (Some m) chunks acc
    = (Raise e, map EvGenerate pre ++ [EvGenerate c]).
Proof.
  induction chunks as [|x chunks IH]; intros acc pre c post new e Hf Hr Hg;
    simpl in *.
  - now destruct pre.
  - destruct (nonblank x); [|now apply (IH acc pre c post new)].
    destruct pre as [|p pre].
    + simpl in Hf. inversion Hf; subst.
      rewrite Nat.add_0_r in Hg. now rewrite Hg.
    + simpl in Hf. inversion Hf; subst.
      destruct new as [|seg new]; [contradiction|]. destruct Hr as [Hp Hr].
      rewrite Hp, (IH (acc ++ [seg]) pre c post new e); try assumption.
      * reflexivity.
      * rewrite length_app. simpl. now rewrite Nat.add_1_r.
      * rewrite length_app. simpl.
        replace (List.length acc + 1 + List.length pre)%nat
          with (List.length acc + S (List.length pre))%nat by lia.
        exact Hg.
Qed.

Lemma assemble_ok (rate k : Z) (segs : list waveform) :
  silence_samples rate = Some k -> 0 <= k ->
  assemble rate segs
  = (Ok (concat (between (repeat zero (Z.to_nat k)) segs)), []).
Proof.
  intros Hk Hpos. unfold assemble. rewrite Hk. unfold torch_zeros.
  assert (E : (k <? 0) = false) by (apply Z.ltb_ge; lia).
  cbn [of_option ret bind app]. rewrite E.
  cbn [of_option ret bind app].
  unfold torch_cat. now rewrite interleave_between.
Qed.

Lemma assemble_ok_inv (rate : Z) (segs : list waveform) (audio : waveform)
      (t : list event) :
  assemble rate segs = (Ok audio, t) ->
  exists k, silence_samples rate = Some k /\ 0 <= k
            /\ audio = concat (between (repeat zero (Z.to_nat k)) segs)
            /\ t = [].
Proof.
  intros H. destruct (silence_samples rate) as [k|] eqn:Hk.
  - destruct (Z.ltb_spec k 0) as [Hneg|Hpos].
    + unfold assemble in H. rewrite Hk in H. unfold torch_zeros in H.
      apply Z.ltb_lt in Hneg. cbn [of_option ret bind app] in H.
      rewrite Hneg in H. discriminate H.
    + rewrite (assemble_ok rate k segs Hk Hpos) in H.
      inversion H; subst. now exists k.
  - unfold assemble in H. rewrite Hk in H. discriminate H.
Qed.

End RequestFacts.

Section TryFacts.

Import Audio Server.

Lemma rendered_nonempty (w : world) (m : model) (made : nat)
      (cs : list str) (segs : list waveform) :
  cs <> [] -> rendered w m made cs segs -> segs <> [].
Proof.
  destruct cs as [|c cs]; [congruence|]. intros _ H E. subst segs.
  exact H.
Qed.

(** The [try] when the imports, every call of [generate], the silence
    and the temporary file succeed: it ends as [torchaudio.save] does. *)
Lemma speak_try_reaches_save (w : world) (m : model) (txt : str)
      (max_chunk : Z) (segs : list waveform) (k : Z) (name : str) :
  speak_imports w = Ok tt ->
  filter nonblank (split_text_into_chunks txt max_chunk) <> [] ->
  rendered w m 0 (filter nonblank (split_text_into_chunks txt max_chunk))
           segs ->
  silence_samples (sr m) = Some k -> 0 <= k ->
  temp_file_name w = Ok name ->
  speak_try w (Some m) txt max_chunk
  = (match ta_save w name
             (concat (between (repeat zero (Z.to_nat k)) segs)) (sr m) with
     | Ok _ =>
         Ok (Reply 200
               (BSpeak name (sr m)
                  (len (split_text_into_chunks txt max_chunk))))
     | Raise e => Raise e
     end,
     map EvGenerate (filter nonblank (split_text_into_chunks txt max_chunk))
     ++ [EvTempFile name;
         EvSave name (concat (between (repeat zero (Z.to_nat k)) segs))
                (sr m)]).
Proof.
  intros Himp Hnb Hr Hk Hpos Hname.
  pose proof (rendered_nonempty _ _ _ _ _ Hnb Hr) as Hsegs.
  unfold speak_try. rewrite Himp. cbn [bind lift].
  rewrite (generate_segments_all w m _ [] segs Hr).
  cbn [app].
  destruct segs as [|seg segs]; [congruence|].
  cbn [truthy negb bind tts_sr ret app].
  rewrite (assemble_ok (sr m) k (seg :: segs) Hk Hpos).
  rewrite Hname.
  cbn [bind lift emit ret app tts_sr].
  destruct (ta_save w name _ (sr m)) as [[]|e]; reflexivity.
Qed.

(** The [try] when a call of [generate] raises. *)
Lemma speak_try_generate_raises (w : world) (m : model) (txt : str)
      (max_chunk : Z) (pre post : list str) (c : str)
      (segs : list waveform) (e : exn) :
  speak_imports w = Ok tt ->
  filter nonblank (split_text_into_chunks txt max_chunk)
  = pre ++ c :: post ->
  rendered w m 0 pre segs ->
  generate w m (List.length pre) c = Raise e ->
  speak_try w (Some m) txt max_chunk
  = (Raise e, map EvGenerate pre ++ [EvGenerate c]).
Proof.
  intros Himp Hf Hr Hg.
  unfold speak_try. rewrite Himp. cbn [bind lift].
  rewrite (generate_segments_fails w m _ [] pre c post segs e Hf Hr Hg).
  reflexivity.
Qed.

(** What the [try] has done when it ends normally: nothing, with the
    answer that no audio was generated, when no chunk is spoken; or
    every step from the synthesis to the saved file. *)
Lemma speak_try_ok_inv (w : world) (t : option model) (txt : str)
      (max_chunk : Z) (r : http_response) (tr : list event) :
  speak_try w t txt max_chunk = (Ok r, tr) ->
  (filter nonblank (split_text_into_chunks txt max_chunk) = []
   /\ r = Reply 500 (BError (Text (py "No audio generated")))
   /\ tr = [])
  \/ (exists m segs k name,
        t = Some m
        /\ filter nonblank (split_text_into_chunks txt max_chunk) <> []
        /\ rendered w m 0
             (filter nonblank (split_text_into_chunks txt max_chunk)) segs
        /\ silence_samples (sr m) = Some k /\ 0 <= k
        /\ temp_file_name w = Ok name
        /\ ta_save w name
             (concat (between (repeat zero (Z.to_nat k)) segs)) (sr m)
           = Ok tt
        /\ r = Reply 200
                 (BSpeak name (sr m)
                    (len (split_text_into_chunks txt max_chunk)))
        /\ tr = map EvGenerate
                  (filter nonblank (split_text_into_chunks txt max_chunk))
                ++ [EvTempFile name;
                    EvSave name
                      (concat (between (repeat zero (Z.to_nat k)) segs))
                      (sr m)]).
Proof.
  unfold speak_try. intros H.
  apply bind_ok_inv in H. destruct H as (u & t1 & t2 & H1 & H & ->).
  unfold lift in H1. inversion H1; subst. clear H1. destruct u.
  apply bind_ok_inv in H. destruct H as (segs & t3 & t4 & H3 & H & ->).
  apply generate_segments_rendered in H3.
  destruct H3 as (-> & new & Hs & Hnone & Hr). simpl in Hs. subst new.
  destruct segs as [|seg segs].
  - left. simpl in H. inversion H; subst.
    destruct t as [m|].
    + specialize (Hr m eq_refl). simpl in Hr.
      destruct (filter nonblank (split_text_into_chunks txt max_chunk));
        [now repeat split | contradiction].
    + rewrite (Hnone eq_refl). now repeat split.
  - right. cbn [truthy negb] in H.
    destruct t as [m|]; [|discriminate H].
    specialize (Hr m eq_refl).
    cbn [tts_sr ret bind] in H.
    destruct (assemble (sr m) (seg :: segs)) as [[audio|e] ta] eqn:Ea;
      [|discriminate H].
    apply assemble_ok_inv in Ea. destruct Ea as (k & Hk & Hpos & -> & ->).
    destruct (temp_file_name w) as [name|e] eqn:En; [|discriminate H].
    cbn [bind lift emit ret app tts_sr] in H.
    destruct (ta_save w name _ (sr m)) as [[]|e] eqn:Es; [|discriminate H].
    inversion H; subst.
    exists m, (seg :: segs), k, name.
    repeat split; try assumption; try reflexivity.
    intros E. rewrite E in Hr. exact Hr.
Qed.

(** With a chunk to speak, the loop begins with the call of [generate]
    on the first one, however it ends. *)
Lemma generate_segments_first (w : world) (m : model) (chunks : list str) :
  forall acc c rest,
    filter nonblank chunks = c :: rest ->
    exists tr,
      snd (generate_segments w (Some m) chunks acc) = EvGenerate c :: tr.
Proof.
  induction chunks as [|x chunks IH]; intros acc c rest H;
    cbn [generate_segments filter] in *; [discriminate H|].
  destruct (nonblank x); [|now apply (IH acc c rest)].
  injection H as -> _. unfold bind, tts_generate.
  destruct (generate w m (List.length acc) c) as [wav|e].
  - destruct (generate_segments w (Some m) chunks (acc ++ [wav]))
      as [r t']. now exists t'.
  - now exists [].
Qed.

Lemma bind_lift_ok {A B : Type} (a : A) (k : A -> M B) :
  bind (lift (Ok a)) k = k a.
Proof. unfold bind, lift. now destruct (k a). Qed.

Lemma bind_trace_prefix {A B : Type} (c : M A) (k : A -> M B) :
  exists t', snd (bind c k) = snd c ++ t'.
Proof.
  unfold bind. destruct c as [[a|e] t].
  - destruct (k a) as [r t']. now exists t'.
  - exists []. cbn [snd]. now rewrite app_nil_r.
Qed.

(** So does the [try], when its imports succeed. *)
Lemma speak_try_first (w : world) (m : model) (txt : str) (max_chunk : Z)
      (c : str) (rest : list str) :
  speak_imports w = Ok tt ->
  filter nonblank (split_text_into_chunks txt max_chunk) = c :: rest ->
  exists tr, snd (speak_try w (Some m) txt max_chunk) = EvGenerate c :: tr.
Proof.
  intros Hi Hf. unfold speak_try. rewrite Hi, bind_lift_ok.
  destruct (generate_segments_first w m _ [] c rest Hf) as [tr E].
  match goal with
  | |- context [bind ?x ?k] => destruct (bind_trace_prefix x k) as [t' E']
  end.
  rewrite E', E. now exists (tr ++ t').
Qed.

End TryFacts.

Section SpeakFacts.

Import Audio Server.

Lemma speak_loaded_unfold (w : world) (req : speak_request) (g : globals) :
  tts g <> None -> text_of req <> [] ->
  speak w req g
  = mkOutcome
      (fst (speak_guarded w (tts g) (text_of req) (max_chunk_size_of req)))
      g
      (snd (speak_guarded w (tts g) (text_of req) (max_chunk_size_of req))).
Proof.
  intros Hl Ht. rewrite speak_unfold, (ensure_loaded_loaded w g Hl).
  apply truthy_true_iff in Ht. now rewrite Ht.
Qed.

Lemma saves_none_generate (cs : list str) :
  filter is_save (map EvGenerate cs) = [].
Proof. induction cs; [reflexivity | exact IHcs]. Qed.

(** Everything behind an answer 200. *)
Lemma speak_success_inv (w : world) (req : speak_request) (g : globals)
      (path : str) (rate n : Z) :
  response (speak w req g) = Reply 200 (BSpeak path rate n) ->
  exists g1 t1 m segs k,
    ensure_loaded w g = (Ok tt, g1, t1)
    /\ tts g1 = Some m
    /\ rate = sr m
    /\ n = len (split_text_into_chunks (text_of req)
                  (max_chunk_size_of req))
    /\ spoken_chunks req <> []
    /\ rendered w m 0 (spoken_chunks req) segs
    /\ silence_samples (sr m) = Some k /\ 0 <= k
    /\ ta_save w path
         (concat (between (repeat zero (Z.to_nat k)) segs)) (sr m) = Ok tt
    /\ globals_after (speak w req g) = g1
    /\ trace (speak w req g)
       = t1 ++ map EvGenerate (spoken_chunks req)
         ++ [EvTempFile path;
             EvSave path (concat (between (repeat zero (Z.to_nat k)) segs))
                    (sr m)].
Proof.
  intros H. rewrite speak_unfold in *.
  destruct (ensure_loaded w g) as [[[[]|e] g1] t1]; [|discriminate H].
  destruct (negb (truthy (text_of req))); [discriminate H|].
  cbn [response trace globals_after] in *.
  unfold speak_guarded in *.
  destruct (speak_try w (tts g1) (text_of req) (max_chunk_size_of req))
    as [[r|e] tr] eqn:E; simpl in H; [|discriminate H].
  subst r. apply speak_try_ok_inv in E.
  destruct E as [(_ & E & _)|(m & segs & k & name & E)]; [discriminate E|].
  destruct E as (Et & Hnb & Hr & Hk & Hpos & Hname & Hsave & Er & ->).
  inversion Er; subst.
  exists g1, t1, m, segs, k. simpl snd. now repeat split.
Qed.

(** A text with a letter has a chunk that is spoken. *)
Lemma letters_spoken (req : speak_request) :
  letters (text_of req) <> [] -> spoken_chunks req <> [].
Proof.
  intros Hlet. unfold spoken_chunks. apply voiced_spoken.
  pose proof (loop_chunks_voiced (max_chunk_size_of req) _ Hlet) as HE.
  rewrite split_of_loop_cons; [exact HE|].
  intros K. rewrite K in HE. inversion HE.
Qed.

(** After [if tts is None: load_model()] has returned, the model is
    there. *)
Lemma ensure_loaded_ok (w : world) (g g1 : globals) (t1 : list event) :
  ensure_loaded w g = (Ok tt, g1, t1) -> tts g1 <> None.
Proof.
  intros E. destruct (tts g) as [m|] eqn:Hg.
  - rewrite ensure_loaded_loaded in E by congruence.
    injection E as <- _. congruence.
  - rewrite (ensure_loaded_unloaded w g Hg) in E.
    destruct (load_model_unloaded w g Hg)
      as [(e & g' & t & E' & _)|(g' & t & E' & H & _)];
      rewrite E in E'; [discriminate E'|].
    injection E' as <- _. exact H.
Qed.

End SpeakFacts.

(** X9.  For a text with at least one character that is neither white
    space nor a comma, the [try] of [/speak] does not stop at the answer
    that no audio was generated, whatever the limit, the state and the
    world.  There is a first chunk to speak, and once the model is there
    and the imports of the [try] have succeeded, [generate] is called on
    it first; and an answer 500 comes from the [except] only: the
    traceback of an exception has just been printed, and the error of the
    answer is the text of that exception. *)
Theorem letters_never_no_audio (w : Server.world)
        (req : Server.speak_request) (g : Server.globals) :
  letters (Server.text_of req) <> [] ->
  (exists c rest,
      spoken_chunks req = c :: rest
      /\ forall g1 t1,
          Server.ensure_loaded w g = (Server.Ok tt, g1, t1) ->
          Server.speak_imports w = Server.Ok tt ->
          exists tr,
            Server.trace (Server.speak w req g)
            = t1 ++ Server.EvGenerate c :: tr)
  /\ (forall b,
        Server.response (Server.speak w req g) = Server.Reply 500 b ->
        exists e tr,
          Server.trace (Server.speak w req g)
          = tr ++ [Server.EvTraceback e]
          /\ b = Server.BError (Server.StrOf e)).
Proof.
  intros Hlet.
  pose proof (letters_spoken req Hlet) as Hsp.
  assert (Ht : negb (truthy (Server.text_of req)) = false).
  { destruct (Server.text_of req); [now contradiction Hlet | reflexivity]. }
  split.
  - destruct (spoken_chunks req) as [|c rest] eqn:Ec; [congruence|].
    exists c, rest. split; [reflexivity|].
    intros g1 t1 E Hi. rewrite speak_unfold, E, Ht. cbn [Server.trace].
    pose proof (ensure_loaded_ok w g g1 t1 E) as Hg1.
    destruct (Server.tts g1) as [m|]; [clear Hg1|congruence].
    destruct (speak_try_first w m (Server.text_of req)
                (Server.max_chunk_size_of req) c rest Hi Ec) as [tr Etr].
    unfold Server.speak_guarded.
    destruct (Server.speak_try w (Some m) (Server.text_of req)
                (Server.max_chunk_size_of req)) as [[r|e] t2];
      cbn [snd] in *; subst t2.
    + now exists tr.
    + now exists (tr ++ [Server.EvTraceback e]).
  - intros b H. rewrite speak_unfold in *.
    destruct (Server.ensure_loaded w g) as [[[[]|e] g1] t1];
      [|discriminate H].
    rewrite Ht in *. cbn [Server.response Server.trace] in *.
    unfold Server.speak_guarded in *.
    destruct (Server.speak_try w (Server.tts g1) (Server.text_of req)
                (Server.max_chunk_size_of req)) as [[r|e] tr] eqn:E;
      cbn [fst snd] in *.
    + subst r. apply speak_try_ok_inv in E.
      destruct E as [(E & _)|(m & segs & k & name & _ & _ & _ & _ & _ & _ & _
                              & E & _)]; [|discriminate E].
      now contradiction Hsp.
    + injection H as <-. exists e, (t1 ++ tr). split; [|reflexivity].
      now rewrite app_assoc.
Qed.

Lemma letters_never_no_audio_witness :
  (exists tr,
      Server.trace
        (Server.speak hoarse (Server.mkSpeak (Some (py ", x ,")) (Some 1))
           Server.boot)
      = [Server.EvPrintLoading;
         Server.EvFromPretrained Server.CPU
           (Server.Ok (Server.mkModel Server.CPU 24000));
         Server.EvPrintLoaded Server.CPU]
        ++ Server.EvGenerate (py "x") :: tr)
  /\ (exists e tr,
        Server.trace
          (Server.speak hoarse
             (Server.mkSpeak (Some long_then_short) (Some 20))
             Server.loaded_cpu)
        = tr ++ [Server.EvTraceback e]
        /\ Server.BError (Server.StrOf (Server.External (py "out of memory")))
           = Server.BError (Server.StrOf e)).
Proof.
  split.
  - destruct (letters_never_no_audio hoarse
                (Server.mkSpeak (Some (py ", x ,")) (Some 1)) Server.boot)
      as ((c & rest & Ec & H) & _); [vm_compute; discriminate|].
    injection Ec as <- _.
    apply (H Server.loaded_cpu); reflexivity.
  - destruct (letters_never_no_audio hoarse
                (Server.mkSpeak (Some long_then_short) (Some 20))
                Server.loaded_cpu)
      as (_ & H); [vm_compute; discriminate|].
    apply H. reflexivity.
Defined.

(** X10.  Behind an answer 200 of [/speak]: the model is loaded and its
    sample rate is the [sample_rate] of the answer; exactly one
    temporary file was created and one waveform saved, at the
    [audio_path] of the answer and at that sample rate, and the save
    succeeded. *)
Theorem speak_success_file_matches_answer (w : Server.world)
        (req : Server.speak_request) (g : Server.globals)
        (path : str) (rate n : Z) :
  Server.response (Server.speak w req g)
  = Server.Reply 200 (Server.BSpeak path rate n) ->
  exists m audio,
    Server.tts (Server.globals_after (Server.speak w req g)) = Some m
    /\ rate = Server.sr m
    /\ filter Server.is_save (Server.trace (Server.speak w req g))
       = [Server.EvTempFile path; Server.EvSave path audio rate]
    /\ Server.ta_save w path audio rate = Server.Ok tt.
Proof.
  intros H. pose proof (ensure_loaded_events w g) as Hev.
  destruct (speak_success_inv w req g path rate n H)
    as (g1 & t1 & m & segs & k & Hl & Ht & -> & _ & _ & _ & _ & _ & Hs
        & -> & ->).
  rewrite Hl in Hev. simpl in Hev.
  exists m, (concat (Audio.between (repeat Audio.zero (Z.to_nat k)) segs)).
  split; [exact Ht|]. split; [reflexivity|]. split; [|exact Hs].
  rewrite !filter_app, (saves_none_load t1 Hev), saves_none_generate.
  reflexivity.
Qed.

Lemma speak_success_file_matches_answer_witness :
  exists m audio,
    Server.tts
      (Server.globals_after
         (Server.speak Server.sunny (Server.mkSpeak (Some hello) (Some 15))
            Server.boot)) = Some m
    /\ 24000 = Server.sr m
    /\ filter Server.is_save
         (Server.trace
            (Server.speak Server.sunny
               (Server.mkSpeak (Some hello) (Some 15)) Server.boot))
       = [Server.EvTempFile (py "/tmp/tmpq3x1.wav");
          Server.EvSave (py "/tmp/tmpq3x1.wav") audio 24000]
    /\ Server.ta_save Server.sunny (py "/tmp/tmpq3x1.wav") audio 24000
       = Server.Ok tt.
Proof.
  apply (speak_success_file_matches_answer Server.sunny
           (Server.mkSpeak (Some hello) (Some 15)) Server.boot
           (py "/tmp/tmpq3x1.wav") 24000 2).
  vm_compute. reflexivity.
Defined.

(** X11.  The audio behind an answer 200: the saved waveform is, in
    order, the segment that [generate] returned for each chunk that is
    not blank, with [int(0.2 * sample_rate)] zero samples between each
    two neighbours; it has one segment for each such chunk, and its
    length is the lengths of the segments plus that silence once less
    than there are segments. *)
Theorem speak_success_audio_is_segments_with_silence (w : Server.world)
        (req : Server.speak_request) (g : Server.globals)
        (path : str) (rate n : Z) :
  Server.response (Server.speak w req g)
  = Server.Reply 200 (Server.BSpeak path rate n) ->
  exists m segs k audio,
    Server.tts (Server.globals_after (Server.speak w req g)) = Some m
    /\ In (Server.EvSave path audio rate)
          (Server.trace (Server.speak w req g))
    /\ rendered w m 0 (spoken_chunks req) segs
    /\ len segs = len (spoken_chunks req)
    /\ Audio.silence_samples rate = Some k /\ 0 <= k
    /\ audio = concat (Audio.between (repeat Audio.zero (Z.to_nat k)) segs)
    /\ len audio = Audio.total_samples segs + (len segs - 1) * k.
Proof.
  intros H.
  destruct (speak_success_inv w req g path rate n H)
    as (g1 & t1 & m & segs & k & Hl & Ht & -> & _ & Hnb & Hr & Hk & Hpos
        & _ & -> & ->).
  exists m, segs, k,
    (concat (Audio.between (repeat Audio.zero (Z.to_nat k)) segs)).
  split; [exact Ht|]. split.
  { apply in_or_app. right. apply in_or_app. right. right. now left. }
  split; [exact Hr|].
  split; [exact (rendered_length w m _ _ _ Hr)|].
  split; [exact Hk|]. split; [exact Hpos|]. split; [reflexivity|].
  pose proof (rendered_nonempty _ _ _ _ _ Hnb Hr) as Hsegs.
  destruct segs as [|seg rest]; [congruence|].
  rewrite len_concat_between, len_repeat_zero by exact Hpos.
  rewrite len_cons. lia.
Qed.

Lemma speak_success_audio_is_segments_with_silence_witness :
  exists m segs k audio,
    Server.tts
      (Server.globals_after
         (Server.speak Server.sunny (Server.mkSpeak (Some hello) (Some 15))
            Server.loaded_cpu)) = Some m
    /\ In (Server.EvSave (py "/tmp/tmpq3x1.wav") audio 24000)
          (Server.trace
             (Server.speak Server.sunny
                (Server.mkSpeak (Some hello) (Some 15)) Server.loaded_cpu))
    /\ rendered Server.sunny m 0
         (spoken_chunks (Server.mkSpeak (Some hello) (Some 15))) segs
    /\ len segs = len (spoken_chunks (Server.mkSpeak (Some hello) (Some 15)))
    /\ Audio.silence_samples 24000 = Some k /\ 0 <= k
    /\ audio = concat (Audio.between (repeat Audio.zero (Z.to_nat k)) segs)
    /\ len audio = Audio.total_samples segs + (len segs - 1) * k.
Proof.
  apply (speak_success_audio_is_segments_with_silence Server.sunny
           (Server.mkSpeak (Some hello) (Some 15)) Server.loaded_cpu
           (py "/tmp/tmpq3x1.wav") 24000 2).
  vm_compute. reflexivity.
Defined.

(** X12.  A failing synthesis: with the model loaded, when [generate]
    raises on a chunk after rendering the spoken chunks before it,
    [/speak] answers 500 with the text of that exception and prints the
    traceback; the chunks after it are not synthesized, no file is
    created and the globals are unchanged. *)
Theorem speak_generate_failure (w : Server.world)
        (req : Server.speak_request) (g : Server.globals) (m : Server.model)
        (pre post : list str) (c : str) (segs : list Audio.waveform)
        (e : Server.exn) :
  Server.tts g = Some m ->
  Server.text_of req <> [] ->
  Server.speak_imports w = Server.Ok tt ->
  spoken_chunks req = pre ++ c :: post ->
  rendered w m 0 pre segs ->
  Server.generate w m (List.length pre) c = Server.Raise e ->
  Server.speak w req g
  = Server.mkOutcome
      (Server.Reply 500 (Server.BError (Server.StrOf e))) g
      (map Server.EvGenerate pre
       ++ [Server.EvGenerate c; Server.EvTraceback e]).
Proof.
  intros Ht Htxt Himp Hsp Hr Hg.
  rewrite speak_loaded_unfold by (congruence || assumption).
  unfold Server.speak_guarded. rewrite Ht.
  rewrite (speak_try_generate_raises w m _ _ pre post c segs e Himp Hsp Hr Hg).
  simpl. now rewrite <- app_assoc.
Qed.

Lemma speak_generate_failure_witness :
  Server.speak hoarse (Server.mkSpeak (Some hello) (Some 15))
    Server.loaded_cpu
  = Server.mkOutcome
      (Server.Reply 500
         (Server.BError
            (Server.StrOf (Server.External (py "out of memory")))))
      Server.loaded_cpu
      (map Server.EvGenerate [py "Hello world."]
       ++ [Server.EvGenerate (py "This is a test.");
           Server.EvTraceback (Server.External (py "out of memory"))]).
Proof.
  apply (speak_generate_failure hoarse
           (Server.mkSpeak (Some hello) (Some 15)) Server.loaded_cpu
           (Server.mkModel Server.CPU 24000)
           [py "Hello world."] [] (py "This is a test.")
           [repeat Audio.zero 12]).
  - reflexivity.
  - discriminate.
  - reflexivity.
  - reflexivity.
  - simpl. split; reflexivity.
  - reflexivity.
Defined.

(** X13.  A failing save leaves a file behind: with the model loaded,
    when every chunk is synthesized and the temporary file is created
    but [torchaudio.save] raises, [/speak] answers 500 with the text of
    that exception, after the temporary file has been created; nothing
    removes it. *)
Theorem speak_save_failure_leaves_temp_file (w : Server.world)
        (req : Server.speak_request) (g : Server.globals) (m : Server.model)
        (segs : list Audio.waveform) (k : Z) (name : str) (e : Server.exn) :
  Server.tts g = Some m ->
  Server.text_of req <> [] ->
  Server.speak_imports w = Server.Ok tt ->
  spoken_chunks req <> [] ->
  rendered w m 0 (spoken_chunks req) segs ->
  Audio.silence_samples (Server.sr m) = Some k -> 0 <= k ->
  Server.temp_file_name w = Server.Ok name ->
  Server.ta_save w name
    (concat (Audio.between (repeat Audio.zero (Z.to_nat k)) segs))
    (Server.sr m) = Server.Raise e ->
  Server.speak w req g
  = Server.mkOutcome
      (Server.Reply 500 (Server.BError (Server.StrOf e))) g
      (map Server.EvGenerate (spoken_chunks req)
       ++ [Server.EvTempFile name;
           Server.EvSave name
             (concat (Audio.between (repeat Audio.zero (Z.to_nat k)) segs))
             (Server.sr m);
           Server.EvTraceback e]).
Proof.
  intros Ht Htxt Himp Hnb Hr Hk Hpos Hname Hsave.
  rewrite speak_loaded_unfold by (congruence || assumption).
  unfold Server.speak_guarded. rewrite Ht.
  rewrite (speak_try_reaches_save w m _ _ segs k name Himp Hnb Hr Hk Hpos
             Hname).
  rewrite Hsave. simpl. now rewrite <- app_assoc.
Qed.

Lemma speak_save_failure_leaves_temp_file_witness :
  Server.response
    (Server.speak disk_full (Server.mkSpeak (Some (py "Hi.")) None)
       Server.loaded_cpu)
  = Server.Reply 500
      (Server.BError
         (Server.StrOf (Server.External (py "No space left on device"))))
  /\ In (Server.EvTempFile (py "/tmp/tmpq3x1.wav"))
        (Server.trace
           (Server.speak disk_full (Server.mkSpeak (Some (py "Hi.")) None)
              Server.loaded_cpu)).
Proof.
  rewrite (speak_save_failure_leaves_temp_file disk_full
             (Server.mkSpeak (Some (py "Hi.")) None) Server.loaded_cpu
             (Server.mkModel Server.CPU 24000)
             [repeat Audio.zero 3] 4800 (py "/tmp/tmpq3x1.wav")
             (Server.External (py "No space left on device"))).
  - split; [reflexivity|]. simpl. right. now left.
  - reflexivity.
  - discriminate.
  - reflexivity.
  - vm_compute. discriminate.
  - simpl. split; reflexivity.
  - vm_compute. reflexivity.
  - lia.
  - reflexivity.
  - reflexivity.
Defined.

Section ProcessFacts.

Import Audio Server.

Lemma load_model_fails (w : world) (g : globals) :
  tts g = None -> load_fails w ->
  exists e g' t,
    load_model w g = (Raise e, g', t)
    /\ tts g' = None
    /\ List.length (filter is_print_loading t) = 1%nat
    /\ filter is_request_event t = [].
Proof.
  intros Hg [[e He]|[Hi [e He]]]; unfold load_model; rewrite Hg.
  - rewrite He. exists e, g, [EvPrintLoading]. now repeat split.
  - rewrite Hi. unfold probe in He. rewrite He.
    eexists e, _, _. split; [reflexivity|]. now repeat split.
Qed.

Lemma load_model_device (w : world) (g : globals) :
  device_known g -> device_known (snd (fst (load_model w g))).
Proof.
  unfold device_known, load_model. intros H.
  destruct (tts g) as [m|] eqn:Hg; [simpl; now rewrite Hg|].
  destruct (load_imports w) as [[]|e]; [|simpl; now rewrite Hg].
  destruct (from_pretrained w _); simpl; intros _; discriminate.
Qed.

Lemma exec_device (w : world) (c : call) (g : globals) :
  device_known g -> device_known (fst (exec w c g)).
Proof.
  intros H. destruct c as [| |req|]; simpl; try exact H.
  - pose proof (load_model_device w g H) as K.
    now destruct (load_model w g) as [[r g'] t].
  - rewrite speak_globals. unfold ensure_loaded.
    destruct (tts g) eqn:Hg; [exact H|]. now apply load_model_device.
Qed.

Lemma exec_all_device (cs : list (world * call)) :
  forall g, device_known g -> device_known (fst (exec_all cs g)).
Proof.
  induction cs as [|[w c] cs IH]; intros g H; simpl; [exact H|].
  pose proof (exec_device w c g H) as K.
  destruct (exec w c g) as [g1 t1]. simpl in K.
  specialize (IH g1 K). destruct (exec_all cs g1) as [g2 t2].
  now destruct c.
Qed.

Lemma exec_no_pid (w : world) (c : call) (g : globals) :
  Forall (fun e => is_write_pid e = false) (snd (exec w c g)).
Proof.
  destruct c as [| |req|]; simpl.
  - pose proof (load_model_events w g) as H.
    destruct (load_model w g) as [[r g'] t]. simpl in *.
    eapply Forall_weaken; [|exact H]. intros e He. now destruct e.
  - constructor.
  - destruct (speak_trace w req g) as (t2 & -> & H2).
    apply Forall_app. split.
    + eapply Forall_weaken; [|apply ensure_loaded_events].
      intros e He. now destruct e.
    + eapply Forall_weaken; [|exact H2]. intros e He. now destruct e.
  - repeat constructor.
Qed.

Lemma exec_all_no_pid (cs : list (world * call)) :
  forall g, Forall (fun e => is_write_pid e = false) (snd (exec_all cs g)).
Proof.
  induction cs as [|[w c] cs IH]; intros g; simpl; [constructor|].
  pose proof (exec_no_pid w c g) as H.
  destruct (exec w c g) as [g1 t1]. simpl in H.
  specialize (IH g1). destruct (exec_all cs g1) as [g2 t2]. simpl in IH.
  destruct c; simpl; try (apply Forall_app; now split); exact H.
Qed.

Lemma load_events_print_once (w : world) (g : globals) (r : result unit)
      (g' : globals) (t : list event) :
  tts g = None -> load_model w g = (r, g', t) ->
  List.length (filter is_print_loading t) = 1%nat.
Proof.
  unfold load_model. intros Hg. rewrite Hg.
  destruct (load_imports w) as [[]|e].
  - destruct (from_pretrained w _); intros H; inversion H; reflexivity.
  - intros H; inversion H; reflexivity.
Qed.

End ProcessFacts.

(** X14.  A failed load is not remembered: while the model is not loaded
    and [load_model] raises, [/speak] lets the exception out, the model
    stays unloaded, and every further [/speak] starts the load again;
    nothing is synthesized or written. *)
Theorem failed_load_is_retried :
  (forall w req g,
      Server.tts g = None -> load_fails w ->
      exists e,
        Server.response (Server.speak w req g) = Server.Unhandled e
        /\ Server.tts (Server.globals_after (Server.speak w req g)) = None)
  /\ (forall cs g,
        Server.tts g = None ->
        Forall (fun wc => load_fails (fst wc)
                          /\ exists req, snd wc = Server.PostSpeak req) cs ->
        Server.tts (fst (Server.exec_all cs g)) = None
        /\ List.length
             (filter is_print_loading (snd (Server.exec_all cs g)))
           = List.length cs
        /\ filter Server.is_request_event (snd (Server.exec_all cs g)) = []).
Proof.
  assert (One : forall w req g,
             Server.tts g = None -> load_fails w ->
             exists e g' t,
               Server.speak w req g
               = Server.mkOutcome (Server.Unhandled e) g' t
               /\ Server.tts g' = None
               /\ List.length (filter is_print_loading t) = 1%nat
               /\ filter Server.is_request_event t = []).
  { intros w req g Hg Hw.
    destruct (load_model_fails w g Hg Hw) as (e & g' & t & E & H1 & H2 & H3).
    exists e, g', t. split; [|now repeat split].
    rewrite speak_unfold, (ensure_loaded_unloaded w g Hg), E. reflexivity. }
  split.
  - intros w req g Hg Hw.
    destruct (One w req g Hg Hw) as (e & g' & t & E & H1 & _).
    exists e. rewrite E. now split.
  - induction cs as [|[w c] cs IH]; intros g Hg Hcs; simpl.
    + now repeat split.
    + inversion Hcs as [|? ? [Hw [req Hc]] Hrest]; subst. simpl in Hw, Hc.
      subst c. simpl.
      destruct (One w req g Hg Hw) as (e & g' & t & E & H1 & H2 & H3).
      rewrite E. simpl.
      destruct (IH g' H1 Hrest) as (K1 & K2 & K3).
      destruct (Server.exec_all cs g') as [g2 t2]. simpl in *.
      split; [exact K1|]. rewrite !filter_app, length_app, H2, H3, K2, K3.
      now split.
Qed.

Lemma failed_load_is_retried_witness :
  Server.tts
    (fst (Server.exec_all
            [(no_weights, Server.PostSpeak (Server.mkSpeak (Some hello) None));
             (no_weights, Server.PostSpeak (Server.mkSpeak (Some hello) None))]
            Server.boot)) = None
  /\ List.length
       (filter is_print_loading
          (snd (Server.exec_all
                  [(no_weights,
                    Server.PostSpeak (Server.mkSpeak (Some hello) None));
                   (no_weights,
                    Server.PostSpeak (Server.mkSpeak (Some hello) None))]
                  Server.boot))) = 2%nat.
Proof.
  destruct failed_load_is_retried as [_ H].
  destruct (H [(no_weights,
                Server.PostSpeak (Server.mkSpeak (Some hello) None));
               (no_weights,
                Server.PostSpeak (Server.mkSpeak (Some hello) None))]
              Server.boot) as (H1 & H2 & _).
  - reflexivity.
  - assert (Hw : load_fails no_weights).
    { right. split; [reflexivity|]. eexists. reflexivity. }
    repeat constructor; try exact Hw; eexists; reflexivity.
  - now split.
Defined.

(** X15.  What [/health] can report: in any state the process reaches,
    from the start of the module or through [main], [model_loaded] true
    comes with a device; but after a load that failed when fetching the
    pretrained model, [/health] reports [model_loaded] false together
    with the device that was chosen, since [device] is assigned before
    the model is fetched. *)
Theorem health_reports_device_with_model :
  (forall cs dev,
      Server.response (Server.health (fst (Server.exec_all cs Server.boot)))
      = Server.Reply 200 (Server.BHealth true dev) -> dev <> None)
  /\ (forall s w0 cs dev,
        Server.response (Server.health (fst (Server.main s w0 cs)))
        = Server.Reply 200 (Server.BHealth true dev) -> dev <> None)
  /\ (forall w req e,
        Server.load_imports w = Server.Ok tt ->
        Server.from_pretrained w (probe w) = Server.Raise e ->
        Server.response
          (Server.health
             (Server.globals_after (Server.speak w req Server.boot)))
        = Server.Reply 200 (Server.BHealth false (Some (probe w)))).
Proof.
  assert (Hb : device_known Server.boot) by (intros H; now contradiction H).
  assert (Hh : forall g dev,
             device_known g ->
             Server.response (Server.health g)
             = Server.Reply 200 (Server.BHealth true dev) -> dev <> None).
  { intros g dev Hg H. unfold Server.health in H. simpl in H.
    destruct (Server.tts g) eqn:E; [|discriminate H].
    inversion H; subst. apply Hg. congruence. }
  split; [|split].
  - intros cs dev. apply Hh. now apply exec_all_device.
  - intros s w0 cs dev. apply Hh. unfold Server.main.
    destruct (Server.port_of s) as [port|e0]; [|exact Hb].
    pose proof (load_model_device w0 Server.boot Hb) as K.
    destruct (Server.load_model w0 Server.boot) as [[[u|e] g] t];
      simpl in K; [|exact K].
    destruct (Server.write_pid_file s) as [[u'|e] tp]; [|exact K].
    destruct (Server.listen s port) as [u''|e]; [|exact K].
    pose proof (exec_all_device cs g K) as K2.
    now destruct (Server.exec_all cs g).
  - intros w req e Hi He. rewrite speak_globals.
    unfold Server.ensure_loaded, Server.load_model. simpl.
    rewrite Hi. unfold probe in *. rewrite He. reflexivity.
Qed.

Lemma health_reports_device_with_model_witness :
  Server.response
    (Server.health
       (Server.globals_after
          (Server.speak no_weights (Server.mkSpeak (Some hello) None)
             Server.boot)))
  = Server.Reply 200 (Server.BHealth false (Some Server.CPU)).
Proof.
  destruct health_reports_device_with_model as (_ & _ & H).
  apply (H no_weights (Server.mkSpeak (Some hello) None)
           (Server.External (py "weights not found"))); reflexivity.
Defined.

(** X16.  [main] step by step.  If CHATTERBOX_PORT is not a number,
    nothing is loaded or written.  If the preload raises, the process
    ends with the model unloaded, the PID file not written and no request
    handled.  If the preload succeeds, the loading code has been entered
    once; then a failing [write_pid_file] ends the process with nothing
    served; a port that cannot be opened ends it with the PID file
    written and left behind; and otherwise the requests are served with
    the globals of the preload, which they never change, the PID file is
    written that one time and the loading code is not entered again. *)
Theorem main_preloads_once (s : Server.startup) (w0 : Server.world)
        (cs : list (Server.world * Server.call)) :
  (forall e,
      Server.port_of s = Server.Raise e ->
      Server.main s w0 cs = (Server.boot, []))
  /\ (forall port e g t,
        Server.port_of s = Server.Ok port ->
        Server.load_model w0 Server.boot = (Server.Raise e, g, t) ->
        Server.main s w0 cs = (g, t)
        /\ Server.tts g = None
        /\ filter is_write_pid t = []
        /\ filter Server.is_request_event t = [])
  /\ (forall port g t,
        Server.port_of s = Server.Ok port ->
        Server.load_model w0 Server.boot = (Server.Ok tt, g, t) ->
        Server.tts g <> None
        /\ filter is_write_pid t = []
        /\ filter Server.is_request_event t = []
        /\ List.length (filter is_print_loading t) = 1%nat
        /\ (pid_fails s -> Server.main s w0 cs = (g, t))
        /\ (pid_written s ->
            forall e,
              Server.listen s port = Server.Raise e ->
              Server.main s w0 cs
              = (g, t ++ [Server.EvWritePid; Server.EvPrintRunning port]))
        /\ (pid_written s ->
            Server.listen s port = Server.Ok tt ->
            Server.main s w0 cs
            = (g, t ++ Server.EvWritePid :: Server.EvPrintRunning port
                   :: snd (Server.exec_all cs g))
            /\ filter is_write_pid (snd (Server.exec_all cs g)) = []
            /\ filter is_print_loading (snd (Server.exec_all cs g)) = [])).
Proof.
  split; [|split].
  - intros e E. unfold Server.main. now rewrite E.
  - intros port e g t Ep E. unfold Server.main. rewrite Ep, E.
    split; [reflexivity|].
    pose proof (load_model_events w0 Server.boot) as Hev.
    rewrite E in Hev. simpl in Hev.
    destruct (load_model_unloaded w0 Server.boot eq_refl)
      as [(e' & g' & t' & E' & H1 & _)|(g' & t' & E' & _)];
      rewrite E in E'; inversion E'; subst.
    split; [exact H1|]. split; apply filter_none;
      (eapply Forall_weaken; [|exact Hev]); intros x Hx; now destruct x.
  - intros port g t Ep E.
    pose proof (load_model_events w0 Server.boot) as Hev.
    rewrite E in Hev. simpl in Hev.
    pose proof (load_events_print_once w0 Server.boot _ _ _ eq_refl E) as Hp.
    assert (Hg : Server.tts g <> None).
    { destruct (load_model_unloaded w0 Server.boot eq_refl)
        as [(e' & g' & t' & E' & _)|(g' & t' & E' & H1 & _)];
        rewrite E in E'; inversion E'; subst. exact H1. }
    split; [exact Hg|].
    split; [apply filter_none; eapply Forall_weaken; [|exact Hev];
            intros x Hx; now destruct x|].
    split; [apply filter_none; eapply Forall_weaken; [|exact Hev];
            intros x Hx; now destruct x|].
    split; [exact Hp|].
    unfold Server.main, Server.write_pid_file. rewrite Ep, E.
    split; [|split].
    + intros [[e Hm]|[Hm [e Hw]]]; rewrite Hm; [|rewrite Hw]; simpl;
        now rewrite app_nil_r.
    + intros [Hm Hw] e Hl. rewrite Hm, Hw. simpl. now rewrite Hl.
    + intros [Hm Hw] Hl. rewrite Hm, Hw. simpl. rewrite Hl.
      destruct (exec_all_loaded cs g Hg) as [K1 K2].
      pose proof (exec_all_no_pid cs g) as K3.
      destruct (Server.exec_all cs g) as [g2 t2]. simpl in *. subst g2.
      split; [reflexivity|]. split; apply filter_none; [exact K3|].
      eapply Forall_weaken; [|exact K2]. intros x Hx. now destruct x.
Qed.

Lemma main_preloads_once_witness :
  Server.main bad_port Server.sunny
    [(Server.sunny, Server.PostSpeak (Server.mkSpeak (Some hello) None))]
  = (Server.boot, [])
  /\ Server.main Server.calm no_weights
       [(Server.sunny, Server.PostSpeak (Server.mkSpeak (Some hello) None))]
     = (Server.mkGlobals None (Some Server.CPU),
        [Server.EvPrintLoading;
         Server.EvFromPretrained Server.CPU
           (Server.Raise (Server.External (py "weights not found")))])
  /\ Server.main read_only_home Server.sunny
       [(Server.sunny, Server.PostSpeak (Server.mkSpeak (Some hello) None))]
     = (Server.loaded_cpu,
        [Server.EvPrintLoading;
         Server.EvFromPretrained Server.CPU
           (Server.Ok (Server.mkModel Server.CPU 24000));
         Server.EvPrintLoaded Server.CPU])
  /\ Server.main port_taken Server.sunny
       [(Server.sunny, Server.PostSpeak (Server.mkSpeak (Some hello) None))]
     = (Server.loaded_cpu,
        [Server.EvPrintLoading;
         Server.EvFromPretrained Server.CPU
           (Server.Ok (Server.mkModel Server.CPU 24000));
         Server.EvPrintLoaded Server.CPU;
         Server.EvWritePid; Server.EvPrintRunning 8080])
  /\ filter is_write_pid
       (snd (Server.exec_all
               [(Server.sunny,
                 Server.PostSpeak (Server.mkSpeak (Some hello) None))]
               Server.loaded_cpu)) = [].
Proof.
  split; [|split; [|split; [|split]]].
  - destruct (main_preloads_once bad_port Server.sunny
                [(Server.sunny,
                  Server.PostSpeak (Server.mkSpeak (Some hello) None))])
      as (H & _).
    apply (H (Server.External
                (py "invalid literal for int() with base 10: 'http'"))).
    reflexivity.
  - destruct (main_preloads_once Server.calm no_weights
                [(Server.sunny,
                  Server.PostSpeak (Server.mkSpeak (Some hello) None))])
      as (_ & H & _).
    apply (H 7865 (Server.External (py "weights not found")));
      reflexivity.
  - destruct (main_preloads_once read_only_home Server.sunny
                [(Server.sunny,
                  Server.PostSpeak (Server.mkSpeak (Some hello) None))])
      as (_ & _ & H).
    destruct (H 7865 Server.loaded_cpu
                [Server.EvPrintLoading;
                 Server.EvFromPretrained Server.CPU
                   (Server.Ok (Server.mkModel Server.CPU 24000));
                 Server.EvPrintLoaded Server.CPU] eq_refl eq_refl)
      as (_ & _ & _ & _ & K & _).
    apply K. left. eexists. reflexivity.
  - destruct (main_preloads_once port_taken Server.sunny
                [(Server.sunny,
                  Server.PostSpeak (Server.mkSpeak (Some hello) None))])
      as (_ & _ & H).
    destruct (H 8080 Server.loaded_cpu
                [Server.EvPrintLoading;
                 Server.EvFromPretrained Server.CPU
                   (Server.Ok (Server.mkModel Server.CPU 24000));
                 Server.EvPrintLoaded Server.CPU] eq_refl eq_refl)
      as (_ & _ & _ & _ & _ & K & _).
    apply (K (conj eq_refl eq_refl)
             (Server.External (py "Address already in use"))).
    reflexivity.
  - destruct (main_preloads_once Server.calm Server.sunny
                [(Server.sunny,
                  Server.PostSpeak (Server.mkSpeak (Some hello) None))])
      as (_ & _ & H).
    destruct (H 7865 Server.loaded_cpu
                [Server.EvPrintLoading;
                 Server.EvFromPretrained Server.CPU
                   (Server.Ok (Server.mkModel Server.CPU 24000));
                 Server.EvPrintLoaded Server.CPU] eq_refl eq_refl)
      as (_ & _ & _ & _ & _ & _ & K).
    destruct (K (conj eq_refl eq_refl) eq_refl) as (_ & K2 & _).
    exact K2.
Defined.

(* ================================================================== *)
(** * Beyond the specification: the running chunk after a long sentence *)
(* ================================================================== *)

Section StaleFacts.

Variable max_chars : Z.

Lemma starts_with_refl (s : str) : starts_with s s.
Proof. exists []. now rewrite app_nil_r. Qed.

Lemma starts_with_app (p s t : str) :
  starts_with p s -> starts_with p (s ++ t).
Proof. intros [r ->]. exists (r ++ t). now rewrite app_assoc. Qed.

(** Once the running chunk is not empty it never is again. *)
Lemma step_current_stays (st : loop_state) (s : str) :
  solid s -> tidy st -> current_chunk st <> [] ->
  current_chunk (step max_chars st s) <> [].
Proof.
  intros Hs [Hf Hl] Hc.
  destruct (step_cases max_chars st s) as [[_ E]|[[_ E]|[_ [_ E]]]];
    rewrite E; cbn [chunks current_chunk].
  - apply (strip_join_solid_solid _ _ Hf Hl Hs).
  - exact Hc.
  - apply Hs.
Qed.

Lemma step_current_fits (st : loop_state) (s : str) :
  solid s -> tidy st -> len s <= max_chars ->
  current_chunk (step max_chars st s) <> [].
Proof.
  intros Hs [Hf Hl] Hfit.
  destruct (step_cases max_chars st s) as [[_ E]|[[Hlong E]|[_ [_ E]]]];
    rewrite E; cbn [chunks current_chunk]; [| lia |].
  - apply (strip_join_solid_solid _ _ Hf Hl Hs).
  - apply Hs.
Qed.

Lemma run_current_nonempty (todo : list str) :
  Forall solid todo ->
  forall st, tidy st ->
    current_chunk st <> [] \/ Exists (fun s => len s <= max_chars) todo ->
    current_chunk (run max_chars todo st) <> [].
Proof.
  induction 1 as [|s todo Hs _ IH]; intros st Ht H; simpl.
  - destruct H as [H|H]; [exact H | inversion H].
  - apply IH; [now apply step_tidy|].
    destruct H as [H|H].
    + left. now apply step_current_stays.
    + inversion H as [? ? Hfit|? ? Hrest]; subst.
      * left. now apply step_current_fits.
      * now right.
Qed.

(** With a running chunk that begins with [cur], one iteration appends a
    chunk that begins with [cur] or keeps such a running chunk. *)
Lemma step_repeats (cur : str) (st : loop_state) (s : str) :
  solid s -> tidy st -> current_chunk st <> [] ->
  starts_with cur (current_chunk st) ->
  exists extra,
    chunks (step max_chars st s) = chunks st ++ extra
    /\ (Exists (starts_with cur) extra
        \/ starts_with cur (current_chunk (step max_chars st s))).
Proof.
  intros Hs [Hf Hl] Hc Hsw.
  assert (Hfl : flush (chunks st) (current_chunk st)
                = chunks st ++ [current_chunk st]).
  { unfold flush. destruct (current_chunk st); [congruence | reflexivity]. }
  destruct (step_cases max_chars st s) as [[_ E]|[[_ E]|[_ [_ E]]]];
    rewrite E; cbn [chunks current_chunk].
  - exists []. rewrite app_nil_r. split; [reflexivity|]. right.
    rewrite (strip_join_solid _ _ Hf Hl Hs).
    destruct (current_chunk st) as [|c r] eqn:Ec; [congruence|].
    now apply starts_with_app.
  - exists (current_chunk st :: map strip (Re.split_commas s)).
    rewrite Hfl, <- app_assoc. split; [reflexivity|].
    left. now constructor.
  - exists [current_chunk st]. rewrite Hfl. split; [reflexivity|].
    left. now constructor.
Qed.

Lemma run_repeats (cur : str) (todo : list str) :
  Forall solid todo ->
  forall st, tidy st -> current_chunk st <> [] ->
    starts_with cur (current_chunk st) ->
    exists extra,
      chunks (run max_chars todo st) = chunks st ++ extra
      /\ (Exists (starts_with cur) extra
          \/ starts_with cur (current_chunk (run max_chars todo st))).
Proof.
  induction 1 as [|s todo Hs Hrest IH]; intros st Ht Hc Hsw; simpl.
  - exists []. rewrite app_nil_r. split; [reflexivity | now right].
  - destruct (step_repeats cur st s Hs Ht Hc Hsw) as (x & Hx & [H|H]).
    + destruct (run_extends max_chars todo (step max_chars st s))
        as [y Hy].
      exists (x ++ y). rewrite Hy, Hx, <- app_assoc.
      split; [reflexivity|]. left. apply Exists_app. now left.
    + destruct (IH (step max_chars st s)) as (y & Hy & K).
      * now apply step_tidy.
      * now apply step_current_stays.
      * exact H.
      * exists (x ++ y). rewrite Hy, Hx, <- app_assoc.
        split; [reflexivity|].
        destruct K as [K|K]; [left; apply Exists_app; now right | now right].
Qed.

End StaleFacts.

(** X17.  The running chunk is not cleared when a sentence over the
    limit is split: if a sentence longer than the limit comes after a
    sentence that fits, the returned list holds the running chunk of
    that moment, then the comma parts of the long sentence, and further
    on once more a chunk that begins with that running chunk, so its
    text is returned twice. *)
Theorem flushed_chunk_returns_after_long_sentence (T : str) (L : Z)
        (before after : list str) (s : str) :
  strip T <> [] ->
  sentences T = before ++ s :: after ->
  L < len s ->
  Exists (fun x => len x <= L) before ->
  exists cur cs1 cs2 again,
    cur <> []
    /\ split_text_into_chunks T L = cs1 ++ cur :: comma_parts s ++ cs2
    /\ In again cs2
    /\ starts_with cur again.
Proof.
  intros Hne Hs Hlong Hfit.
  pose proof (sentences_solid T Hne) as Hsol. rewrite Hs in Hsol.
  apply Forall_app in Hsol. destruct Hsol as [Hb Hsa].
  inversion Hsa as [|? ? Hss Ha]; subst.
  set (st0 := run L before init).
  assert (Ht0 : tidy st0) by (apply run_tidy; [exact Hb | now split]).
  assert (Hc0 : current_chunk st0 <> [])
    by (apply run_current_nonempty; [exact Hb | now split | now right]).
  set (st1 := step L st0 s).
  assert (E1 : st1 = mkLoop (chunks st0
                             ++ current_chunk st0 :: comma_parts s)
                            (current_chunk st0)).
  { unfold st1. rewrite (step_split L st0 s Hlong). unfold flush.
    destruct (current_chunk st0); [congruence|].
    simpl truthy. cbv iota. now rewrite <- app_assoc. }
  assert (Ht1 : tidy st1) by (now apply step_tidy).
  assert (Hc1 : current_chunk st1 <> []) by (rewrite E1; exact Hc0).
  destruct (run_repeats L (current_chunk st0) after Ha st1 Ht1 Hc1)
    as (x & Hx & K).
  { rewrite E1. apply starts_with_refl. }
  assert (Hc2 : current_chunk (run L after st1) <> [])
    by (apply run_current_nonempty; [exact Ha | exact Ht1 | now left]).
  assert (El : loop_chunks T L
               = chunks st0
                 ++ current_chunk st0
                    :: comma_parts s
                       ++ (x ++ [current_chunk (run L after st1)])).
  { unfold loop_chunks. fold (run L (sentences T) init).
    rewrite Hs, run_app. fold st0.
    change (run L (s :: after) st0) with (run L after st1).
    unfold flush. destruct (current_chunk (run L after st1)) as [|c r] eqn:Ec;
      [congruence|].
    simpl truthy. cbv iota. rewrite Hx, E1. cbn [chunks].
    rewrite <- !app_assoc. reflexivity. }
  rewrite (split_of_loop_cons T L (loop_chunks_live T L Hne)), El.
  destruct K as [K|K].
  - apply Exists_exists in K. destruct K as (again & Hin & Hsw).
    exists (current_chunk st0), (chunks st0),
      (x ++ [current_chunk (run L after st1)]), again.
    split; [exact Hc0|]. split; [reflexivity|].
    split; [apply in_or_app; now left | exact Hsw].
  - exists (current_chunk st0), (chunks st0),
      (x ++ [current_chunk (run L after st1)]),
      (current_chunk (run L after st1)).
    split; [exact Hc0|]. split; [reflexivity|].
    split; [apply in_or_app; right; now left | exact K].
Qed.

Lemma flushed_chunk_returns_after_long_sentence_witness :
  exists cur cs1 cs2 again,
    cur <> []
    /\ split_text_into_chunks short_long_short 10
       = cs1 ++ cur :: comma_parts (py "AAAAAAAAAAAA, b.") ++ cs2
    /\ In again cs2
    /\ starts_with cur again.
Proof.
  apply (flushed_chunk_returns_after_long_sentence short_long_short 10
           [py "Hi."] [py "Yo."] (py "AAAAAAAAAAAA, b.")).
  - vm_compute. discriminate.
  - reflexivity.
  - vm_compute. reflexivity.
  - constructor. vm_compute. discriminate.
Defined.

(** X18.  A [/speak] that has to load the model first answers as the
    same request does on the loaded server: when the model is not loaded
    and [load_model] succeeds, the answer is that of [/speak] in the
    globals the load leaves, the globals at the end are those, and the
    trace is the events of the load followed by those of that request. *)
Theorem lazy_load_then_same_answer (w : Server.world)
        (req : Server.speak_request) (g g1 : Server.globals)
        (t1 : list Server.event) :
  Server.tts g = None ->
  Server.load_model w g = (Server.Ok tt, g1, t1) ->
  Server.speak w req g
  = Server.mkOutcome (Server.response (Server.speak w req g1)) g1
      (t1 ++ Server.trace (Server.speak w req g1)).
Proof.
  intros Hg Hl.
  assert (Hg1 : Server.tts g1 <> None).
  { destruct (load_model_unloaded w g Hg)
      as [(e & g' & t & E & _)|(g' & t & E & H1 & _)];
      rewrite Hl in E; inversion E; subst. exact H1. }
  rewrite (speak_unfold w req g), (speak_unfold w req g1).
  rewrite (ensure_loaded_unloaded w g Hg), Hl.
  rewrite (ensure_loaded_loaded w g1 Hg1).
  destruct (negb (truthy (Server.text_of req))); simpl;
    [now rewrite app_nil_r | reflexivity].
Qed.

Lemma lazy_load_then_same_answer_witness :
  Server.speak Server.sunny (Server.mkSpeak (Some hello) (Some 15))
    Server.boot
  = Server.mkOutcome
      (Server.response
         (Server.speak Server.sunny (Server.mkSpeak (Some hello) (Some 15))
            Server.loaded_cpu))
      Server.loaded_cpu
      ([Server.EvPrintLoading;
        Server.EvFromPretrained Server.CPU
          (Server.Ok (Server.mkModel Server.CPU 24000));
        Server.EvPrintLoaded Server.CPU]
       ++ Server.trace
            (Server.speak Server.sunny
               (Server.mkSpeak (Some hello) (Some 15)) Server.loaded_cpu)).
Proof.
  apply lazy_load_then_same_answer; reflexivity.
Defined.

(** X19.  White space around the text does not count: for a text that
    is not blank, the chunker returns for the stripped text what it
    returns for the text. *)
Theorem surrounding_white_space_is_ignored (T : str) (L : Z) :
  strip T <> [] ->
  split_text_into_chunks (strip T) L = split_text_into_chunks T L.
Proof.
  intros Hne.
  assert (Hne2 : strip (strip T) <> []) by now rewrite (strip_idem T).
  rewrite (split_of_loop_cons T L (loop_chunks_live T L Hne)).
  rewrite (split_of_loop_cons (strip T) L (loop_chunks_live _ L Hne2)).
  unfold loop_chunks, sentences. now rewrite (strip_idem T).
Qed.

Lemma surrounding_white_space_is_ignored_witness :
  split_text_into_chunks (strip plain_words) 10
  = split_text_into_chunks plain_words 10.
Proof.
  apply surrounding_white_space_is_ignored. vm_compute. discriminate.
Defined.

